(** * Verification of the utility functions of Al-Auqash/utils

    The development embeds the TypeScript sources in Rocq:
    - [src/utils/object/index.ts]: [deepMerge], [deepEqual],
      [getNestedValue], [setNestedValue], [mergeObjects], [objectToPairs],
      [pairsToObject], [queryStringToObject];
    - the timing/identifier module: [generateUUID], [debounce], [throttle];
    - the password module: [validatePassword];
    - [src/utils/string/index.ts]: [splitIntoWords], [toSentenceCase],
      [toTitleCase], [toCamelCase], [toSnakeCase], [toKebabCase],
      [toToggleCase].

    JavaScript objects live in a heap indexed by locations, so that
    reference identity ([===] on objects), sharing and in-place mutation
    are those of the program.  An object is a finite map from string keys
    to values; an array is such an object whose kind records its [length]
    and whose elements sit under the index keys "0", "1", ...

    Scope of the model.  Every object has the built-in prototype of its
    kind, and the built-in prototypes are in their initial state.  A key
    that an object does not own is looked up in its prototype: the members
    of [Object.prototype] are known by name, but they are not values of
    the model; reading one gives [Builtin], and what the program does with
    such a value is left open, as are the members of [Array.prototype] and
    [String.prototype] and a change of prototype through [__proto__].
    Numbers are the integral ones and [NaN]; strings are sequences of 8-bit
    code units.  The modules are ES modules and therefore run in strict
    mode.  The own keys of an object are enumerated in an order of the
    model's own, not in that of the program (the integer keys in ascending
    order, then the others as they were created): no statement depends on
    the order. *)

From Stdlib Require Import ZArith QArith Qround String Ascii.
From Stdlib Require Import DecimalString HexadecimalString.
From Stdlib Require Import DecimalPos DecimalN.
From stdpp Require Import gmap strings list fin_maps.

Close Scope Q_scope.
Open Scope string_scope.

(** ** JavaScript values, objects and the heap *)

Module JS.

Abbreviation loc := positive.

Inductive value : Type :=
| VUndef
| VNull
| VBool (b : bool)
| VNum (z : Z)
| VNaN
| VStr (s : string)
| VRef (l : loc).

#[global] Instance value_eq_dec : EqDecision value.
Proof. solve_decision. Defined.

(** [Array n] is an array exotic object whose [length] is [n]. *)
Inductive kind : Type :=
| Plain
| Array (len : N).

Record object : Type := Obj { okind : kind; oprops : gmap string value }.

Abbreviation heap := (gmap loc object).

Definition empty_object : object := Obj Plain ∅.

(** Reading a location.  Every location the program holds is allocated;
    the lookup is made total with the empty object. *)
Definition deref (h : heap) (l : loc) : object := default empty_object (h !! l).

(** [new] object: the next unused location. *)
Definition alloc (h : heap) (o : object) : heap * loc :=
  let l := fresh (dom h) in (<[l := o]> h, l).

(** ToBoolean. *)
Definition truthy (v : value) : bool :=
  match v with
  | VUndef | VNull | VNaN => false
  | VBool b => b
  | VNum z => negb (z =? 0)%Z
  | VStr s => negb (String.eqb s "")
  | VRef _ => true
  end.

(** [typeof v === 'object'] *)
Definition typeof_object (v : value) : bool :=
  match v with
  | VNull | VRef _ => true
  | _ => false
  end.

(** [a === b]: identity on references, value equality on primitives,
    and [NaN] differs from everything, itself included. *)
Definition strict_eq (a b : value) : bool :=
  match a with
  | VNaN => false
  | _ => bool_decide (a = b)
  end.

(** Canonical array indices: the decimal numerals without leading zeros
    below [2^32 - 1]. *)
Definition key_of_index (n : N) : string :=
  DecimalString.NilZero.string_of_uint (N.to_uint n).

Definition index_of_key (k : string) : option N :=
  match DecimalString.NilZero.uint_of_string k with
  | Some u =>
      let n := N.of_uint u in
      if String.eqb (key_of_index n) k && (n <? 2 ^ 32 - 1)%N
      then Some n else None
  | None => None
  end.

Definition is_array (o : object) : bool :=
  match okind o with Array _ => true | Plain => false end.

(** [Object.keys(o)], also the keys a [for (key in o)] visits and the
    ones a spread [{...o}] copies: the own enumerable string keys ([length]
    of an array is not enumerable). *)
Definition keys (o : object) : list string := (map_to_list (oprops o)).*1.

(** The names of the members of [Object.prototype], which every object
    inherits; [__proto__] is an accessor, the others are methods. *)
Definition object_prototype_members : list string :=
  ["constructor"; "hasOwnProperty"; "isPrototypeOf"; "propertyIsEnumerable";
   "toLocaleString"; "toString"; "valueOf"; "__proto__";
   "__defineGetter__"; "__defineSetter__"; "__lookupGetter__";
   "__lookupSetter__"].

(** The names that [Number.prototype] adds to them. *)
Definition number_prototype_members : list string :=
  ["toExponential"; "toFixed"; "toPrecision"].

Definition is_member (k : string) (names : list string) : bool :=
  existsb (String.eqb k) names.
Arguments is_member : simpl never.

Definition owns (o : object) (k : string) : bool :=
  bool_decide (is_Some (oprops o !! k)).

(** [o[k]] for a key that [o] owns, or the [length] of an array: the
    prototype of [o] is not consulted. *)
Definition obj_get (o : object) (k : string) : value :=
  match okind o with
  | Array n =>
      if String.eqb k "length" then VNum (Z.of_N n)
      else default VUndef (oprops o !! k)
  | Plain => default VUndef (oprops o !! k)
  end.

Inductive exn : Type := TypeError.

(** What reading a property gives: a value of the model; a built-in
    function or prototype object, inherited from a built-in prototype; an
    exception; or a result that the model leaves open. *)
Inductive read : Type :=
| Val (v : value)
| Builtin
| Fails (e : exn)
| Unknown.

(** [o[k]] on an object.  A key that the object does not own is looked up
    in its prototype: a member of [Object.prototype] is found there (or in
    [Array.prototype] before it); on a plain object nothing else is.  The
    members of [Array.prototype] vary with the edition of the language:
    the other named keys of an array are left open. *)
Definition obj_read (o : object) (k : string) : read :=
  if owns o k || (is_array o && String.eqb k "length") then Val (obj_get o k)
  else if is_member k object_prototype_members then Builtin
  else match okind o with
       | Plain => Val VUndef
       | Array _ =>
           match index_of_key k with
           | Some _ => Val VUndef
           | None => Unknown
           end
       end.

(** [s[k]] on a primitive string: its length and its code units; the
    other keys that [String.prototype] does not answer are left open. *)
Definition str_read (s : string) (k : string) : read :=
  if String.eqb k "length" then Val (VNum (Z.of_nat (String.length s)))
  else match index_of_key k with
       | Some i =>
           match String.get (N.to_nat i) s with
           | Some c => Val (VStr (String c ""))
           | None => Val VUndef
           end
       | None =>
           if is_member k object_prototype_members then Builtin else Unknown
       end.

(** [v[k]]: a TypeError on [undefined] and [null]. *)
Definition get_prop (h : heap) (v : value) (k : string) : read :=
  match v with
  | VUndef | VNull => Fails TypeError
  | VBool _ =>
      if is_member k object_prototype_members then Builtin else Val VUndef
  | VNum _ | VNaN =>
      if is_member k (object_prototype_members ++ number_prototype_members)
      then Builtin else Val VUndef
  | VStr s => str_read s k
  | VRef l => obj_read (deref h l) k
  end.

(** [Object.prototype.hasOwnProperty.call(o, k)] *)
Definition hasOwnProperty (o : object) (k : string) : bool :=
  owns o k || (is_array o && String.eqb k "length").

(** [o.hasOwnProperty(k)]: an own property called [hasOwnProperty] shadows
    the inherited method, and no value of this model is callable: the call
    is then a TypeError ([None]). *)
Definition call_hasOwnProperty (o : object) (k : string) : option bool :=
  match oprops o !! "hasOwnProperty" with
  | Some _ => None
  | None => Some (hasOwnProperty o k)
  end.

(** The object after [o[k] = x] has stored [x] as an own property: writing
    an index at or beyond the length of an array extends it. *)
Definition obj_set (o : object) (k : string) (x : value) : object :=
  Obj (match okind o with
       | Plain => Plain
       | Array n =>
           match index_of_key k with
           | Some i => Array (N.max n (i + 1))
           | None => Array n
           end
       end)
      (<[k := x]> (oprops o)).

(** What [o[k] = x] does to the object [o]. *)
Inductive written : Type :=
| Stored (o : object)
| Ignored
| NotModelled.

(** A key that the object does not own and that is [__proto__] reaches the
    accessor of [Object.prototype]: it ignores a primitive, and makes an
    object or [null] the prototype, which the model does not represent.
    Assigning the [length] of an array (which coerces [x] to a number and
    truncates the array) is outside the model too.  Every other key is
    stored as an own property: the methods of the built-in prototypes are
    writable, so that a key of their name is shadowed. *)
Definition obj_write (o : object) (k : string) (x : value) : written :=
  if is_array o && String.eqb k "length" then NotModelled
  else if String.eqb k "__proto__" && negb (owns o k) then
    match x with
    | VRef _ | VNull => NotModelled
    | _ => Ignored
    end
  else Stored (obj_set o k x).

(** Why a run of the model yields no result: the recursion budget is
    spent, or the program leaves the modelled fragment of the language. *)
Inductive halt : Type := OutOfFuel | OutOfModel.

Inductive outcome (A : Type) : Type :=
| Ret (h : heap) (a : A)
| Throw (h : heap) (e : exn)
| Halt (r : halt).
Arguments Ret {A} h a.
Arguments Throw {A} h e.
Arguments Halt {A} r.

(** [o[k] = x] on the object at location [l]. *)
Definition store (h : heap) (l : loc) (k : string) (x : value) : outcome unit :=
  match obj_write (deref h l) k x with
  | Stored o => Ret (<[l := o]> h) tt
  | Ignored => Ret h tt
  | NotModelled => Halt OutOfModel
  end.

(** [v[k] = x] in strict mode: on a primitive, a TypeError, except for
    [__proto__], whose accessor returns without doing anything. *)
Definition set_prop (h : heap) (v : value) (k : string) (x : value) : outcome unit :=
  match v with
  | VRef l => store h l k x
  | VUndef | VNull => Throw h TypeError
  | _ => if String.eqb k "__proto__" then Ret h tt else Throw h TypeError
  end.

(** [s.split(sep)] for a one-character separator. *)
Fixpoint split_on (sep : ascii) (s : string) : list string :=
  match s with
  | EmptyString => [""]
  | String c s' =>
      if Ascii.eqb c sep then "" :: split_on sep s'
      else match split_on sep s' with
           | w :: ws => String c w :: ws
           | [] => [String c ""]
           end
  end.

End JS.

(** ** src/utils/object/index.ts *)

Module ObjectUtils.
Import JS.

(** *** deepMerge *)

Section merge_keys.
(** The recursive call, and the three objects of one activation. *)
Variable rec : heap → loc → loc → outcome loc.
Variables target source output : loc.

(** Both branches of the conditional assign to [output[key]]: the value
    they assign.  The condition is evaluated from left to right and
    stops at the first falsy operand. *)
Definition merge_value (h : heap) (key : string) : outcome value :=
  let sv := obj_get (deref h source) key in
  match sv with
  | VRef ls =>
      (* source[key] && typeof source[key] === 'object' *)
      match call_hasOwnProperty (deref h target) key with
      | None => Throw h TypeError
      | Some false => Ret h sv
      | Some true =>
          match obj_get (deref h target) key with
          | VRef lt =>
              (* target[key] && typeof target[key] === 'object' *)
              match rec h lt ls with
              | Ret h' r => Ret h' (VRef r)
              | Throw h' e => Throw h' e
              | Halt r => Halt r
              end
          | _ => Ret h sv
          end
      end
  | _ => Ret h sv
  end.

(** [for (const key in source)], on the keys that remain. *)
Fixpoint merge_keys (ks : list string) (h : heap) : outcome unit :=
  match ks with
  | [] => Ret h tt
  | key :: ks =>
      match merge_value h key with
      | Ret h' x =>
          (* output[key] = ... *)
          match store h' output key x with
          | Ret h'' _ => merge_keys ks h''
          | Throw h'' e => Throw h'' e
          | Halt r => Halt r
          end
      | Throw h' e => Throw h' e
      | Halt r => Halt r
      end
  end.
End merge_keys.

Fixpoint deepMerge (fuel : nat) (h : heap) (target source : loc) : outcome loc :=
  match fuel with
  | O => Halt OutOfFuel
  | S fuel =>
      (* const output = { ...target } *)
      let '(h0, output) := alloc h (Obj Plain (oprops (deref h target))) in
      match merge_keys (deepMerge fuel) target source output
                       (keys (deref h source)) h0 with
      | Ret h' _ => Ret h' output
      | Throw h' e => Throw h' e
      | Halt r => Halt r
      end
  end.

(** *** deepEqual *)

Section equal_keys.
Variable rec : value → value → option bool.
Variables o1 o2 : object.
Variable keys2 : list string.

(** The body of [for (let key of keys1)]. *)
Fixpoint equal_keys (keys1 : list string) : option bool :=
  match keys1 with
  | [] => Some true
  | key :: keys1 =>
      if negb (bool_decide (key ∈ keys2)) then Some false
      else match rec (obj_get o1 key) (obj_get o2 key) with
           | Some true => equal_keys keys1
           | Some false => Some false
           | None => None
           end
  end.
End equal_keys.

(** [None]: the recursion budget is spent. *)
Fixpoint deepEqual (fuel : nat) (h : heap) (obj1 obj2 : value) : option bool :=
  match fuel with
  | O => None
  | S fuel =>
      if strict_eq obj1 obj2 then Some true
      else match obj1, obj2 with
           | VRef l1, VRef l2 =>
               let o1 := deref h l1 in
               let o2 := deref h l2 in
               let keys1 := keys o1 in
               let keys2 := keys o2 in
               if negb (length keys1 =? length keys2)%nat then Some false
               else equal_keys (deepEqual fuel h) o1 o2 keys2 keys1
           | _, _ =>
               (* typeof obj !== 'object' || obj === null, on either side *)
               Some false
           end
  end.

(** *** getNestedValue *)

(** [acc && acc[part]]: a built-in value is truthy, and its properties
    are left open. *)
Definition get_step (h : heap) (acc : read) (part : string) : read :=
  match acc with
  | Val a => if truthy a then get_prop h a part else Val a
  | Builtin => Unknown
  | Fails e => Fails e
  | Unknown => Unknown
  end.

Definition get_path (h : heap) (obj : value) (parts : list string) : read :=
  foldl (get_step h) (Val obj) parts.

Definition getNestedValue (h : heap) (obj : value) (path : string) : read :=
  get_path h obj (split_on "." path).

(** *** setNestedValue *)

(** The loop [for (let i = 0; i < parts.length; i++)], on the parts that
    remain.  A built-in value read from a prototype is truthy and would be
    stored: the model does not represent it. *)
Fixpoint set_path (h : heap) (current : value) (parts : list string)
    (value : value) : outcome unit :=
  match parts with
  | [] => Ret h tt
  | part :: rest =>
      match rest with
      | [] => set_prop h current part value
      | _ :: _ =>
          (* current[parts[i]] = current[parts[i]] || {} *)
          match get_prop h current part with
          | Val old =>
              let '(h1, x) :=
                if truthy old then (h, old)
                else let '(h1, l) := alloc h empty_object in (h1, VRef l) in
              match set_prop h1 current part x with
              | Ret h2 _ =>
                  (* current = current[parts[i]] *)
                  match get_prop h2 current part with
                  | Val next => set_path h2 next rest value
                  | Fails e => Throw h2 e
                  | Builtin | Unknown => Halt OutOfModel
                  end
              | Throw h2 e => Throw h2 e
              | Halt r => Halt r
              end
          | Fails e => Throw h e
          | Builtin | Unknown => Halt OutOfModel
          end
      end
  end.

Definition setNestedValue (h : heap) (obj : value) (path : string)
    (value : value) : outcome unit :=
  set_path h obj (split_on "." path) value.

End ObjectUtils.


(** ** Regular expressions

    The fragment of JavaScript regular expressions the sources use, in
    non-unicode mode: a sequence of atoms, each a literal character or a
    character class with ranges and negation. *)

Module Regex.

Inductive class_item : Type :=
| Single (c : ascii)
| Range (lo hi : ascii).

Record char_class : Type := Class { negated : bool; items : list class_item }.

Inductive atom : Type :=
| Lit (c : ascii)
| Set_ (cls : char_class).

Abbreviation regex := (list atom).

Definition code (c : ascii) : N := N_of_ascii c.

Definition item_matches (i : class_item) (c : ascii) : bool :=
  match i with
  | Single d => Ascii.eqb c d
  | Range lo hi => (code lo <=? code c)%N && (code c <=? code hi)%N
  end.

Definition class_matches (cls : char_class) (c : ascii) : bool :=
  xorb (negated cls) (existsb (λ i, item_matches i c) (items cls)).

Definition atom_matches (a : atom) (c : ascii) : bool :=
  match a with
  | Lit d => Ascii.eqb c d
  | Set_ cls => class_matches cls c
  end.

(** A match that starts at the first character of [s]. *)
Fixpoint matches_here (r : regex) (s : string) : bool :=
  match r with
  | [] => true
  | a :: r' =>
      match s with
      | EmptyString => false
      | String c s' => atom_matches a c && matches_here r' s'
      end
  end.

(** [r.test(s)] on a regular expression whose [lastIndex] is 0: is there a
    match at some position of [s]. *)
Fixpoint test (r : regex) (s : string) : bool :=
  matches_here r s ||
  match s with
  | EmptyString => false
  | String _ s' => test r s'
  end.

(** *** [new RegExp(source)] *)

Inductive parsed (A : Type) : Type :=
| Parsed (a : A)
| SyntaxError
| Unsupported.
Arguments Parsed {A} a.
Arguments SyntaxError {A}.
Arguments Unsupported {A}.

Definition is_alnum (c : ascii) : bool :=
  let n := code c in
  ((48 <=? n) && (n <=? 57) || (65 <=? n) && (n <=? 90) ||
   (97 <=? n) && (n <=? 122))%N.

(** Characters with a meaning of their own outside a class. *)
Definition is_syntax (c : ascii) : bool :=
  existsb (Ascii.eqb c) (list_ascii_of_string "^$.*+?()|{}").

(** One class atom: a character, or the identity escape of a character
    that is neither a letter nor a digit. *)
Definition class_atom (s : string) : parsed (ascii * string) :=
  match s with
  | EmptyString => SyntaxError
  | String "\" EmptyString => SyntaxError
  | String "\" (String d rest) =>
      if is_alnum d then Unsupported else Parsed (d, rest)
  | String c rest => Parsed (c, rest)
  end.

Definition cons_item (i : class_item) (r : parsed (list class_item * string)) :
    parsed (list class_item * string) :=
  match r with
  | Parsed (l, rest) => Parsed (i :: l, rest)
  | SyntaxError => SyntaxError
  | Unsupported => Unsupported
  end.

(** The items of a class up to its closing bracket, and what follows the
    bracket.  [a-b] is a range when [b] is an atom; a dash right before the
    closing bracket stands for itself. *)
Fixpoint class_items (fuel : nat) (s : string) : parsed (list class_item * string) :=
  match fuel with
  | O => Unsupported
  | S fuel =>
      match s with
      | EmptyString => SyntaxError
      | String "]" rest => Parsed ([], rest)
      | _ =>
          match class_atom s with
          | Parsed (lo, s1) =>
              match s1 with
              | String "-" (String "]" _) => cons_item (Single lo) (class_items fuel s1)
              | String "-" EmptyString => SyntaxError
              | String "-" s2 =>
                  match class_atom s2 with
                  | Parsed (hi, s3) =>
                      if (code hi <? code lo)%N then SyntaxError
                      else cons_item (Range lo hi) (class_items fuel s3)
                  | SyntaxError => SyntaxError
                  | Unsupported => Unsupported
                  end
              | _ => cons_item (Single lo) (class_items fuel s1)
              end
          | SyntaxError => SyntaxError
          | Unsupported => Unsupported
          end
      end
  end.

Definition cons_atom (a : atom) (r : parsed regex) : parsed regex :=
  match r with
  | Parsed r => Parsed (a :: r)
  | SyntaxError => SyntaxError
  | Unsupported => Unsupported
  end.

Fixpoint atoms (fuel : nat) (s : string) : parsed regex :=
  match fuel with
  | O => match s with EmptyString => Parsed [] | _ => Unsupported end
  | S fuel =>
      match s with
      | EmptyString => Parsed []
      | String "[" body =>
          let '(neg, body) :=
            match body with
            | String "^" body' => (true, body')
            | _ => (false, body)
            end in
          match class_items (S (String.length body)) body with
          | Parsed (l, rest) => cons_atom (Set_ (Class neg l)) (atoms fuel rest)
          | SyntaxError => SyntaxError
          | Unsupported => Unsupported
          end
      | String "\" EmptyString => SyntaxError
      | String "\" (String d rest) =>
          if is_alnum d then Unsupported else cons_atom (Lit d) (atoms fuel rest)
      | String c rest =>
          (* a closing bracket on its own is a literal character *)
          if is_syntax c then Unsupported else cons_atom (Lit c) (atoms fuel rest)
      end
  end.

Definition parse (source : string) : parsed regex :=
  atoms (String.length source) source.

End Regex.

(** ** The password module: validatePassword *)

Module Password.
Import Regex.

(** [interface PasswordValidationConfig]: every field is optional. *)
Record PasswordValidationConfig : Type := Config {
  minLength : option Z;
  maxLength : option Z;
  requireLowercase : option bool;
  requireUppercase : option bool;
  requireNumeric : option bool;
  requireSymbol : option bool;
  symbols : option string;
  onlyLatin : option bool
}.

(** [{}], the default value of the parameter [config]. *)
Definition empty_config : PasswordValidationConfig :=
  Config None None None None None None None None.

(** [/[a-z]/], [/[A-Z]/], [/[0-9]/] *)
Definition re_lowercase : regex := [Set_ (Class false [Range "a" "z"])].
Definition re_uppercase : regex := [Set_ (Class false [Range "A" "Z"])].
Definition re_numeric : regex := [Set_ (Class false [Range "0" "9"])].

(** [/[^a-zA-Z0-9!@#$%^&*()\-\_+=<>?/\[\] ]/] *)
Definition re_not_latin : regex :=
  [Set_ (Class true
     ([Range "a" "z"; Range "A" "Z"; Range "0" "9"] ++
      map Single (list_ascii_of_string "!@#$%^&*()-_+=<>?/[] ")))].

Inductive result : Type :=
| Returns (b : bool)
| Throws           (* the SyntaxError of [new RegExp] *)
| NotModelled.     (* a symbol pattern outside the fragment of [Regex] *)

Definition validatePassword (password : string) (config : PasswordValidationConfig) : result :=
  let minLength := default 8%Z (minLength config) in
  let maxLength := default 64%Z (maxLength config) in
  let requireLowercase := default true (requireLowercase config) in
  let requireUppercase := default true (requireUppercase config) in
  let requireNumeric := default true (requireNumeric config) in
  let requireSymbol := default true (requireSymbol config) in
  let symbols := default "!@#$%^&*()-_+=<>?/[]" (symbols config) in
  let onlyLatin := default true (onlyLatin config) in
  let len := Z.of_nat (String.length password) in
  if (len <? minLength)%Z || (len >? maxLength)%Z then Returns false
  else if requireLowercase && negb (test re_lowercase password) then Returns false
  else if requireUppercase && negb (test re_uppercase password) then Returns false
  else if requireNumeric && negb (test re_numeric password) then Returns false
  else
    let latin :=
      if onlyLatin && test re_not_latin password then Returns false
      else Returns true in
    if requireSymbol then
      (* a regular expression object made by this call: its lastIndex is 0 *)
      match parse ("[" ++ symbols ++ "]") with
      | Parsed symbolPattern =>
          if negb (test symbolPattern password) then Returns false else latin
      | SyntaxError => Throws
      | Unsupported => NotModelled
      end
    else latin.

(** Does the string contain the character. *)
Fixpoint contains (c : ascii) (s : string) : bool :=
  match s with
  | EmptyString => false
  | String d s' => Ascii.eqb d c || contains c s'
  end.

End Password.

(** ** The identifier module: generateUUID *)

Module Uuid.
Import Regex.

(** ToInt32 of an integer, and the bitwise operators, which work on
    32-bit signed integers. *)
Definition to_int32 (z : Z) : Z := ((z + 2 ^ 31) mod 2 ^ 32 - 2 ^ 31)%Z.
Definition bit_or (a b : Z) : Z := to_int32 (Z.lor (to_int32 a) (to_int32 b)).
Definition bit_and (a b : Z) : Z := to_int32 (Z.land (to_int32 a) (to_int32 b)).

(** The integral part of a number, towards zero. *)
Definition truncate (q : Q) : Z :=
  if Qle_bool 0 q then Qfloor q else Qceiling q.

(** [v.toString(16)] on an integer. *)
Definition toString16 (v : Z) : string :=
  HexadecimalString.NilZero.string_of_int (Z.to_hex_int v).

(** The replacement function, given the outcome [random] of its call of
    [Math.random()]. *)
Definition replacement (c : ascii) (random : Q) : string :=
  let r := bit_or (truncate (random * 16)%Q) 0 in
  let v := if Ascii.eqb c "x" then r else bit_or (bit_and r 3) 8 in
  toString16 v.

(** [/[xy]/g] *)
Definition xy : char_class := Class false [Single "x"; Single "y"].

(** [template.replace(/[xy]/g, fn)]: the characters of the class are
    replaced from left to right; the [n]-th call of [Math.random()] of the
    run returns [random n], and the count of calls is threaded through. *)
Fixpoint replace_xy (random : nat → Q) (n : nat) (template : string) : string * nat :=
  match template with
  | EmptyString => (EmptyString, n)
  | String c rest =>
      if class_matches xy c then
        let piece := replacement c (random n) in
        let '(out, n') := replace_xy random (S n) rest in
        (piece ++ out, n')
      else
        let '(out, n') := replace_xy random n rest in
        (String c out, n')
  end.

Definition generateUUID (random : nat → Q) (n : nat) : string * nat :=
  replace_xy random n "xxxxxxxx-xxxx-4xxx-yxxx-xxxxxxxxxxxx".

(** [Math.random()] returns a number of the interval [0, 1). *)
Definition unit_interval (random : nat → Q) : Prop :=
  ∀ n, (0 <= random n)%Q ∧ (random n < 1)%Q.

(** The shape of a version 4 identifier. *)
Definition is_hex (c : ascii) : bool :=
  existsb (Ascii.eqb c) (list_ascii_of_string "0123456789abcdef").

Definition position_ok (i : nat) (c : ascii) : bool :=
  match i with
  | 8 | 13 | 18 | 23 => Ascii.eqb c "-"
  | 14 => Ascii.eqb c "4"
  | 19 => existsb (Ascii.eqb c) (list_ascii_of_string "89ab")
  | _ => is_hex c
  end.

Fixpoint positions_ok (i : nat) (s : string) : bool :=
  match s with
  | EmptyString => true
  | String c s' => position_ok i c && positions_ok (S i) s'
  end.

Definition is_uuid_v4 (s : string) : bool :=
  (String.length s =? 36)%nat && positions_ok 0 s.

(** Reading the template as a pattern: [x] stands for a hexadecimal digit,
    [y] for one of 8, 9, a, b, every other character for itself. *)
Fixpoint conforms (template s : string) : Prop :=
  match template, s with
  | EmptyString, EmptyString => True
  | String c template', String d s' =>
      (if Ascii.eqb c "x" then is_hex d = true
       else if Ascii.eqb c "y"
            then existsb (Ascii.eqb d) (list_ascii_of_string "89ab") = true
            else d = c) ∧
      conforms template' s'
  | _, _ => False
  end.

End Uuid.

(** ** src/utils/string/index.ts *)

Module StringCase.

(** [/[\s_-]/] on 8-bit code units: the white space and line terminator
    characters, the underscore and the hyphen. *)
Definition is_space (c : ascii) : bool :=
  existsb (N.eqb (N_of_ascii c)) [9; 10; 11; 12; 13; 32; 160]%N.

Definition is_separator (c : ascii) : bool :=
  is_space c || Ascii.eqb c "_" || Ascii.eqb c "-".

(** [str.split(/[\s_-]+/)]: [in_run] tells that the previous character
    belongs to a run of separators. *)
Fixpoint split_words (in_run : bool) (s : string) : list string :=
  match s with
  | EmptyString => [""]
  | String c s' =>
      if is_separator c then
        if in_run then split_words true s' else "" :: split_words true s'
      else
        match split_words false s' with
        | w :: ws => String c w :: ws
        | [] => [String c ""]
        end
  end.

Definition splitIntoWords (str : string) : list string := split_words false str.

(** [s.charAt(0)] and [s.slice(1)] *)
Definition charAt0 (s : string) : string :=
  match s with
  | EmptyString => ""
  | String c _ => String c ""
  end.

Definition slice1 (s : string) : string :=
  match s with
  | EmptyString => ""
  | String _ s' => s'
  end.

(** [words.join(sep)] *)
Fixpoint join (sep : string) (words : list string) : string :=
  match words with
  | [] => ""
  | [w] => w
  | w :: ws => w ++ sep ++ join sep ws
  end.

Section Casing.
(** [String.prototype.toUpperCase] and [toLowerCase], whose tables are
    those of the Unicode standard. *)
Variables toUpperCase toLowerCase : string → string.

(** [None]: the TypeError of [words[0].charAt] on an empty array. *)
Definition toSentenceCase (str : string) : option string :=
  let words := splitIntoWords str in
  match words with
  | [] => None
  | w0 :: rest =>
      Some (toUpperCase (charAt0 w0) ++ toLowerCase (slice1 w0) ++ " " ++
            toLowerCase (join " " rest))
  end.
End Casing.

(** The two conversions on the letters of ASCII. *)
Definition ascii_upper (c : ascii) : ascii :=
  let n := N_of_ascii c in
  if ((97 <=? n) && (n <=? 122))%N then ascii_of_N (n - 32) else c.

Definition ascii_lower (c : ascii) : ascii :=
  let n := N_of_ascii c in
  if ((65 <=? n) && (n <=? 90))%N then ascii_of_N (n + 32) else c.

Fixpoint map_string (f : ascii → ascii) (s : string) : string :=
  match s with
  | EmptyString => EmptyString
  | String c s' => String (f c) (map_string f s')
  end.

Definition has_separator (s : string) : bool :=
  existsb is_separator (list_ascii_of_string s).

End StringCase.

(** ** Shapes of heaps and paths

    The predicates of the statements below, as boolean checks. *)

Module Shape.
Import JS.

(** The references stored in an object satisfy [P]. *)
Definition refs_all (P : loc → bool) (o : object) : bool :=
  forallb (λ kv : string * value,
             match kv.2 with VRef l' => P l' | _ => true end)
          (map_to_list (oprops o)).

(** No cycle: [rank] decreases along every reference stored in the heap. *)
Definition acyclic (h : heap) (rank : loc → nat) : bool :=
  forallb (λ lo : loc * object, refs_all (λ l', Nat.ltb (rank l') (rank lo.1)) lo.2)
          (map_to_list h).

(** No dangling reference. *)
Definition closed (h : heap) : bool :=
  forallb (λ lo : loc * object,
             refs_all (λ l', bool_decide (is_Some (h !! l'))) lo.2)
          (map_to_list h).

(** No object has an own property called [hasOwnProperty] or
    [__proto__]. *)
Definition unshadowed (h : heap) : bool :=
  forallb (λ lo : loc * object,
             negb (owns lo.2 "hasOwnProperty") && negb (owns lo.2 "__proto__"))
          (map_to_list h).

(** The nesting depth of a value is at most [depth rank v]. *)
Definition depth (rank : loc → nat) (v : value) : nat :=
  match v with
  | VRef l => S (rank l)
  | _ => O
  end.

(** A reference to an allocated object that is not an array. *)
Definition is_mapping (h : heap) (v : value) : bool :=
  match v with
  | VRef l =>
      match h !! l with
      | Some o => negb (is_array o)
      | None => false
      end
  | _ => false
  end.

(** The segments before the last are absent from a new empty mapping:
    none is the name of a member of [Object.prototype]. *)
Definition absent_in_new (parts : list string) : bool :=
  forallb (λ k, negb (is_member k object_prototype_members)) (removelast parts).

(** Walking [parts] from [current], every segment but the last is absent
    or holds a mapping; an inherited built-in member is not absent. *)
Fixpoint no_collision (h : heap) (current : value) (parts : list string) : bool :=
  match parts with
  | [] => true
  | part :: rest =>
      is_mapping h current &&
      match rest with
      | [] => true
      | _ :: _ =>
          match get_prop h current part with
          | Val VUndef => absent_in_new rest
          | Val next => no_collision h next rest
          | _ => false
          end
      end
  end.

(** Walking [parts] from [current], every segment but the last holds a
    falsy value ([undefined], [null], [false], [0], [NaN], the empty
    string) or a mapping. *)
Fixpoint falsy_or_mapping (h : heap) (current : value) (parts : list string) : bool :=
  match parts with
  | [] => true
  | part :: rest =>
      is_mapping h current &&
      match rest with
      | [] => true
      | _ :: _ =>
          match get_prop h current part with
          | Val next =>
              if truthy next then falsy_or_mapping h next rest
              else absent_in_new rest
          | _ => false
          end
      end
  end.

(** Walking [parts] from [current], every segment but the last holds a
    mapping. *)
Fixpoint all_mappings (h : heap) (current : value) (parts : list string) : bool :=
  match parts with
  | [] => true
  | part :: rest =>
      is_mapping h current &&
      match rest with
      | [] => true
      | _ :: _ =>
          match get_prop h current part with
          | Val next => all_mappings h next rest
          | _ => false
          end
      end
  end.

(** Walking [parts] from [current], what the heap [h'] after a call holds
    under every segment but the last, against the heap [h] before it: an
    object, which is the value that [h] held there when that was truthy
    (it is kept), and an object that [h] did not have when it was falsy
    (it is new). *)
Fixpoint kept_or_replaced (h h' : heap) (current : value) (parts : list string) :
    bool :=
  match parts with
  | [] => true
  | part :: rest =>
      match rest with
      | [] => true
      | _ :: _ =>
          match get_prop h current part, get_prop h' current part with
          | Val old, Val (VRef l) =>
              (if truthy old then bool_decide (old = VRef l)
               else bool_decide (h !! l = None)) &&
              kept_or_replaced h h' (VRef l) rest
          | _, _ => false
          end
      end
  end.

(** Every object of [h] is still in [h'], and holds what it held under
    every key that is not one of [parts]. *)
Definition same_outside (parts : list string) (h h' : heap) : Prop :=
  ∀ l o, h !! l = Some o →
    ∃ o', h' !! l = Some o' ∧ ∀ k, k ∉ parts → oprops o' !! k = oprops o !! k.

(** What a call leaves of the heap [h] it started from: every object of
    [h] is still there, as it was; a returned location is new, and holds a
    mapping. *)
Definition preserves (h : heap) (r : outcome loc) : Prop :=
  match r with
  | Ret h' l => h ⊆ h' ∧ h !! l = None ∧ is_mapping h' (VRef l) = true
  | Throw h' _ => h ⊆ h'
  | Halt _ => True
  end.

(** The entry [x] of the merged object under a key of the source, in the
    final heap [h']: when the source and the target both hold an object
    there, a new mapping made by the recursive call [rec] in a heap that
    extends the initial heap [h]; the value of the source otherwise. *)
Definition merged_entry (rec : heap → loc → loc → outcome loc)
    (h h' : heap) (ot os : object) (key : string) (x : option value) : Prop :=
  match obj_get os key, obj_get ot key with
  | VRef ls, VRef lt =>
      ∃ h1 h2 r' o', h ⊆ h1 ∧ h1 !! r' = None ∧ rec h1 lt ls = Ret h2 r' ∧
                     h2 !! r' = Some o' ∧ okind o' = Plain ∧
                     h' !! r' = Some o' ∧ x = Some (VRef r')
  | sv, _ => x = Some sv
  end.

(** A call that ends within its budget, and neither throws nor leaves
    the model unless some object of the heap owns a property called
    [hasOwnProperty] or [__proto__]. *)
Definition total_on (h : heap) (r : outcome loc) : Prop :=
  match r with
  | Ret _ _ => True
  | Throw _ _ | Halt OutOfModel => unshadowed h = false
  | Halt OutOfFuel => False
  end.

(** No property of the object is [NaN]. *)
Definition no_NaN (o : object) : bool :=
  forallb (λ kv : string * value, negb (bool_decide (kv.2 = VNaN)))
          (map_to_list (oprops o)).

End Shape.

(** ** Sample heaps *)

Module Samples.
Import JS.

(** [{ a: 0 }] *)
Definition heap_zero : heap := {[ 1%positive := Obj Plain {[ "a" := VNum 0 ]} ]}.

(** [{ a: 5 }] *)
Definition heap_five : heap := {[ 1%positive := Obj Plain {[ "a" := VNum 5 ]} ]}.

(** [{ a: { b: 1 } }] at location 1 and [{}] at location 3 *)
Definition heap_nested : heap :=
  {[ 1%positive := Obj Plain {[ "a" := VRef 2%positive ]};
     2%positive := Obj Plain {[ "b" := VNum 1 ]};
     3%positive := Obj Plain ∅ ]}.

(** [{ a: [1, 2] }] at location 1 and [{ a: [3] }] at location 3 *)
Definition heap_arrays : heap :=
  {[ 1%positive := Obj Plain {[ "a" := VRef 2%positive ]};
     2%positive := Obj (Array 2) {[ "0" := VNum 1; "1" := VNum 2 ]};
     3%positive := Obj Plain {[ "a" := VRef 4%positive ]};
     4%positive := Obj (Array 1) {[ "0" := VNum 3 ]} ]}.

(** [{ a: NaN }] at location 1 and [{}] at location 2 *)
Definition heap_nan : heap :=
  {[ 1%positive := Obj Plain {[ "a" := VNaN ]};
     2%positive := Obj Plain ∅ ]}.

(** The objects of the examples in the comments of the source:
    [{ a: { b: 1 } }] at 1 and [{ a: { c: 2 } }] at 3 (deepMerge),
    [{}] at 5 (setNestedValue), [{ a: { b: { c: 1 } } }] at 6
    (getNestedValue), and [{ a: 1, b: { c: 2 } }] twice, at 9 and at 11
    (deepEqual). *)
Definition heap_docs : heap :=
  {[ 1%positive := Obj Plain {[ "a" := VRef 2%positive ]};
     2%positive := Obj Plain {[ "b" := VNum 1 ]};
     3%positive := Obj Plain {[ "a" := VRef 4%positive ]};
     4%positive := Obj Plain {[ "c" := VNum 2 ]};
     5%positive := Obj Plain ∅;
     6%positive := Obj Plain {[ "a" := VRef 7%positive ]};
     7%positive := Obj Plain {[ "b" := VRef 8%positive ]};
     8%positive := Obj Plain {[ "c" := VNum 1 ]};
     9%positive := Obj Plain {[ "a" := VNum 1; "b" := VRef 10%positive ]};
     10%positive := Obj Plain {[ "c" := VNum 2 ]};
     11%positive := Obj Plain {[ "a" := VNum 1; "b" := VRef 12%positive ]};
     12%positive := Obj Plain {[ "c" := VNum 2 ]} ]}.

(** [{ a: { b: 0 } }] *)
Definition heap_kept : heap :=
  {[ 1%positive := Obj Plain {[ "a" := VRef 2%positive ]};
     2%positive := Obj Plain {[ "b" := VNum 0 ]} ]}.

(** A rank for heaps whose references go from smaller to larger
    locations below 10. *)
Definition rank10 (l : loc) : nat := 10 - Pos.to_nat l.

End Samples.

(** ** More sample heaps *)

Module MoreSamples.
Import JS.

(** [{ a: 1, b: { c: 2 } }] three times, at 1, at 3 and at 5: six objects,
    no two of them the same. *)
Definition heap_triple : heap :=
  {[ 1%positive := Obj Plain {[ "a" := VNum 1; "b" := VRef 2%positive ]};
     2%positive := Obj Plain {[ "c" := VNum 2 ]};
     3%positive := Obj Plain {[ "a" := VNum 1; "b" := VRef 4%positive ]};
     4%positive := Obj Plain {[ "c" := VNum 2 ]};
     5%positive := Obj Plain {[ "a" := VNum 1; "b" := VRef 6%positive ]};
     6%positive := Obj Plain {[ "c" := VNum 2 ]} ]}.

End MoreSamples.

(** ** src/utils/object/index.ts: mergeObjects *)

Module ObjectAssign.
Import JS.

(** The own enumerable string keys of [ToObject(v)], as [for (key in v)]
    and [Object.assign] visit them: those of the object; the indices of a
    primitive string; none for the other primitives.  [for ... in] over
    [undefined] or [null] visits nothing, and [Object.assign] skips such a
    source. *)
Definition own_keys (h : heap) (v : value) : list string :=
  match v with
  | VRef l => keys (deref h l)
  | VStr s => map (λ i, key_of_index (N.of_nat i)) (seq 0 (String.length s))
  | _ => []
  end.

(** [v[key]] for one of these keys. *)
Definition own_get (h : heap) (v : value) (key : string) : value :=
  match v with
  | VRef l => obj_get (deref h l) key
  | VStr s => match str_read s key with Val x => x | _ => VUndef end
  | _ => VUndef
  end.

(** [Object.prototype.hasOwnProperty.call(v, key)] *)
Definition own_has (h : heap) (v : value) (key : string) : bool :=
  match v with
  | VRef l => hasOwnProperty (deref h l) key
  | VStr s => bool_decide (key ∈ own_keys h v) || String.eqb key "length"
  | _ => false
  end.

(** *** mergeObjects *)

(** [Object.assign]: [to[key] = from[key]] for the keys of one source. *)
Fixpoint assign_keys (to : loc) (from : value) (ks : list string) (h : heap) :
    outcome unit :=
  match ks with
  | [] => Ret h tt
  | key :: ks =>
      match store h to key (own_get h from key) with
      | Ret h' _ => assign_keys to from ks h'
      | Throw h' e => Throw h' e
      | Halt r => Halt r
      end
  end.

(** The sources, from left to right. *)
Fixpoint assign_sources (to : loc) (sources : list value) (h : heap) : outcome unit :=
  match sources with
  | [] => Ret h tt
  | from :: sources =>
      match assign_keys to from (own_keys h from) h with
      | Ret h' _ => assign_sources to sources h'
      | Throw h' e => Throw h' e
      | Halt r => Halt r
      end
  end.

(** [Object.assign({}, ...objects)] *)
Definition mergeObjects (h : heap) (objects : list value) : outcome loc :=
  let '(h0, to) := alloc h empty_object in
  match assign_sources to objects h0 with
  | Ret h' _ => Ret h' to
  | Throw h' e => Throw h' e
  | Halt r => Halt r
  end.

End ObjectAssign.

(** ** src/utils/object/index.ts: objectToPairs and pairsToObject *)

Module ObjectPairs.
Import JS ObjectAssign.

(** *** objectToPairs *)

(** [arr.push(x)] on an array: the element is stored at the index
    [length], which grows by one.  An array cannot grow beyond
    [2^32 - 1] elements: that case is left open. *)
Definition push (h : heap) (arr : loc) (x : value) : outcome unit :=
  let o := deref h arr in
  match okind o with
  | Array n =>
      if (n <? 2 ^ 32 - 1)%N
      then Ret (<[arr := Obj (Array (n + 1)) (<[key_of_index n := x]> (oprops o))]> h) tt
      else Halt OutOfModel
  | Plain => Throw h TypeError
  end.

(** [for (const key in obj)], on the keys that remain. *)
Fixpoint push_pairs (obj : value) (result : loc) (ks : list string) (h : heap) :
    outcome unit :=
  match ks with
  | [] => Ret h tt
  | key :: ks =>
      if own_has h obj key then
        (* result.push([key, obj[key]]) *)
        let '(h1, entry) :=
          alloc h (Obj (Array 2) {[ "0" := VStr key; "1" := own_get h obj key ]}) in
        match push h1 result (VRef entry) with
        | Ret h2 _ => push_pairs obj result ks h2
        | Throw h2 e => Throw h2 e
        | Halt r => Halt r
        end
      else push_pairs obj result ks h
  end.

(** The loop visits the own keys in the order in which the model
    enumerates them, not in that of the program: the statements about the
    result say which pairs it holds, not where. *)
Definition objectToPairs (h : heap) (obj : value) : outcome loc :=
  (* const result = [] *)
  let '(h0, result) := alloc h (Obj (Array 0) ∅) in
  match push_pairs obj result (own_keys h obj) h0 with
  | Ret h' _ => Ret h' result
  | Throw h' e => Throw h' e
  | Halt r => Halt r
  end.

(** *** pairsToObject *)

(** ToPropertyKey, on the values whose conversion the model covers.  A
    number of the program is a double: an integer up to [2^53] in absolute
    value is one exactly, and is written with all its decimal digits; the
    larger ones are left open. *)
Definition to_key (v : value) : option string :=
  match v with
  | VStr s => Some s
  | VNum z =>
      if (Z.abs z <=? 2 ^ 53)%Z
      then Some (DecimalString.NilZero.string_of_int (Z.to_int z))
      else None
  | VNaN => Some "NaN"
  | VUndef => Some "undefined"
  | VNull => Some "null"
  | VBool true => Some "true"
  | VBool false => Some "false"
  | VRef _ => None
  end.

(** The parameter pattern [[key, value]]: the first two values that the
    iterator of the element yields, [undefined] when it runs out.  An
    array and a string are iterable; [None] is the TypeError for an element
    that is not. *)
Definition pair_elements (h : heap) (el : value) : option (value * value) :=
  match el with
  | VRef l =>
      let o := deref h l in
      match okind o with
      | Array m =>
          Some (if (0 <? m)%N then obj_get o "0" else VUndef,
                if (1 <? m)%N then obj_get o "1" else VUndef)
      | Plain => None
      end
  | VStr s =>
      Some (match String.get 0 s with Some c => VStr (String c "") | None => VUndef end,
            match String.get 1 s with Some c => VStr (String c "") | None => VUndef end)
  | _ => None
  end.

(** The callback of [reduce], called for the indices that the array owns. *)
Fixpoint reduce_pairs (pairs acc : loc) (indices : list N) (h : heap) : outcome unit :=
  match indices with
  | [] => Ret h tt
  | i :: indices =>
      match oprops (deref h pairs) !! key_of_index i with
      | None => reduce_pairs pairs acc indices h
      | Some el =>
          match pair_elements h el with
          | None => Throw h TypeError
          | Some (key, value) =>
              match to_key key with
              | None => Halt OutOfModel
              | Some k =>
                  (* acc[key] = value *)
                  match store h acc k value with
                  | Ret h' _ => reduce_pairs pairs acc indices h'
                  | Throw h' e => Throw h' e
                  | Halt r => Halt r
                  end
              end
          end
      end
  end.

(** [pairs.reduce(..., {})]: on an object that is not an array there is no
    method [reduce] to call. *)
Definition pairsToObject (h : heap) (pairs : loc) : outcome loc :=
  let o := deref h pairs in
  match okind o with
  | Plain => Throw h TypeError
  | Array n =>
      if owns o "reduce" then Throw h TypeError
      else
        let '(h0, acc) := alloc h empty_object in
        match reduce_pairs pairs acc (N.of_nat <$> seq 0 (N.to_nat n)) h0 with
        | Ret h' _ => Ret h' acc
        | Throw h' e => Throw h' e
        | Halt r => Halt r
        end
  end.

(** The entries stored one after the other. *)
Definition stored (props : gmap string value) (es : list (string * value)) :
    gmap string value :=
  foldl (λ m kv, <[kv.1 := kv.2]> m) props es.

End ObjectPairs.

(** ** src/utils/object/index.ts: queryStringToObject *)

Module QueryString.
Import JS StringCase Password.

Inductive query_result : Type :=
| Object (h : heap) (l : loc)   (* the object returned, and the heap then *)
| URIError                      (* thrown by [decodeURIComponent] *)
| Failed (r : outcome unit).    (* an assignment that does not return *)

Section decode.
(** [decodeURIComponent]; [None] is its URIError. *)
Variable decodeURIComponent : string → option string.

(** The callback of [reduce], on the items that remain. *)
Fixpoint query_items (acc : loc) (items : list string) (h : heap) : query_result :=
  match items with
  | [] => Object h acc
  | item :: items =>
      (* const [key, value] = item.split('=') *)
      let parts := split_on "=" item in
      let key := match parts with key :: _ => key | [] => "undefined" end in
      let value := parts !! 1%nat in
      (* acc[decodeURIComponent(key)] = decodeURIComponent(value || '') *)
      match decodeURIComponent key with
      | None => URIError
      | Some k =>
          match decodeURIComponent (default "" value) with
          | None => URIError
          | Some x =>
              match store h acc k (VStr x) with
              | Ret h' _ => query_items acc items h'
              | r => Failed r
              end
          end
      end
  end.

Definition queryStringToObject (h : heap) (query : string) : query_result :=
  (* query.replace(/^\?/, '') *)
  let q := match query with String "?" q' => q' | _ => query end in
  let '(h0, acc) := alloc h empty_object in
  query_items acc (split_on "&" q) h0.
End decode.

(** One field of a query string: a key, and a value when there is an
    equals sign. *)
Definition field_item (f : string * option string) : string :=
  match f.2 with
  | Some v => f.1 ++ "=" ++ v
  | None => f.1
  end.

(** What the field gives to the object. *)
Definition field_entry (f : string * option string) : string * value :=
  (f.1, VStr (default "" f.2)).

(** Neither the key nor the value contains an ampersand, an equals sign or
    a percent sign, and the key is not [__proto__]. *)
Definition plain_text (s : string) : bool :=
  negb (contains "&" s) && negb (contains "=" s) && negb (contains "%" s).

Definition plain_field (f : string * option string) : bool :=
  plain_text f.1 && plain_text (default "" f.2) && negb (String.eqb f.1 "__proto__").

End QueryString.

(** ** src/utils/string/index.ts: the other conversions *)

Module StringConvert.
Import StringCase.

(** [str.split('')]: the code units, each as a string. *)
Definition chars (s : string) : list string :=
  (λ c, String c "") <$> list_ascii_of_string s.

Section Casing.
Variables toUpperCase toLowerCase : string → string.

Definition toUppercase (str : string) : string := toUpperCase str.

Definition toLowercase (str : string) : string := toLowerCase str.

(** [word.charAt(0).toUpperCase() + word.slice(1).toLowerCase()] *)
Definition capitalized (word : string) : string :=
  toUpperCase (charAt0 word) ++ toLowerCase (slice1 word).

Definition toTitleCase (str : string) : string :=
  join " " (capitalized <$> splitIntoWords str).

Definition toCamelCase (str : string) : string :=
  join "" (imap (λ index word,
                   if (index =? 0)%nat then toLowerCase word else capitalized word)
                (splitIntoWords str)).

Definition toSnakeCase (str : string) : string :=
  join "_" (toLowerCase <$> splitIntoWords str).

Definition toKebabCase (str : string) : string :=
  join "-" (toLowerCase <$> splitIntoWords str).

Definition toToggleCase (str : string) : string :=
  join "" ((λ char, if String.eqb char (toUpperCase char)
                    then toLowerCase char else toUpperCase char) <$> chars str).
End Casing.

(** The characters of ASCII. *)
Definition is_ascii (c : ascii) : bool := (N_of_ascii c <? 128)%N.

Definition all_ascii (s : string) : bool :=
  forallb is_ascii (list_ascii_of_string s).

(** What toToggleCase does to one character of ASCII. *)
Definition toggle (c : ascii) : ascii :=
  if Ascii.eqb c (ascii_upper c) then ascii_lower c else ascii_upper c.

(** The shape of the words that [split_words in_run] returns: none
    contains a separator, there is at least one, and only the first and
    the last can be empty (after a run of separators, only the last). *)
Fixpoint split_shape (in_run : bool) (ws : list string) : bool :=
  match ws with
  | [] => false
  | w :: ws' =>
      negb (has_separator w) &&
      match ws' with
      | [] => true
      | _ :: _ => negb (in_run && String.eqb w "") && split_shape true ws'
      end
  end.

End StringConvert.

(** ** What validatePassword requires, without regular expressions *)

Module PasswordRules.
Import Regex Password.

(** Some character of the string satisfies [p]. *)
Definition has_char (p : ascii → bool) (s : string) : bool :=
  existsb p (list_ascii_of_string s).

Definition is_lower (c : ascii) : bool := (97 <=? code c)%N && (code c <=? 122)%N.
Definition is_upper (c : ascii) : bool := (65 <=? code c)%N && (code c <=? 90)%N.
Definition is_digit (c : ascii) : bool := (48 <=? code c)%N && (code c <=? 57)%N.

(** The characters that [onlyLatin] lets through. *)
Definition latin_allowed (c : ascii) : bool :=
  is_lower c || is_upper c || is_digit c ||
  contains c "!@#$%^&*()-_+=<>?/[] ".

(** A character that stands for itself anywhere between the brackets of a
    character class. *)
Definition plain_symbol (c : ascii) : bool := negb (contains c "\]-^").

(** The symbol requirement is off, or the configured symbols are plain. *)
Definition symbols_plain (config : PasswordValidationConfig) : bool :=
  match requireSymbol config, symbols config with
  | Some false, _ => true
  | _, Some syms => forallb plain_symbol (list_ascii_of_string syms)
  | _, None => false
  end.

(** The requirements read as rules on the characters of the password. *)
Definition meets (config : PasswordValidationConfig) (password : string) : bool :=
  let len := Z.of_nat (String.length password) in
  (default 8 (minLength config) <=? len)%Z &&
  (len <=? default 64 (maxLength config))%Z &&
  implb (default true (requireLowercase config)) (has_char is_lower password) &&
  implb (default true (requireUppercase config)) (has_char is_upper password) &&
  implb (default true (requireNumeric config)) (has_char is_digit password) &&
  implb (default true (requireSymbol config))
        (has_char (λ c, contains c (default "" (symbols config))) password) &&
  implb (default true (onlyLatin config))
        (negb (has_char (λ c, negb (latin_allowed c)) password)).

(** The class that the default symbols make, before the bracket that
    closes it early: the characters listed one by one, and the range from
    the closing parenthesis to the underscore, which holds the digits and
    the capital letters. *)
Definition default_symbol (c : ascii) : bool :=
  contains c "!@#$%^&*(+=<>?/[" || (41 <=? code c)%N && (code c <=? 95)%N.

(** A character of that class comes right before a closing bracket. *)
Fixpoint symbol_then_bracket (s : string) : bool :=
  match s with
  | String c (String d _ as s') =>
      default_symbol c && Ascii.eqb d "]" || symbol_then_bracket s'
  | _ => false
  end.

(** The default configuration, read as rules. *)
Definition meets_default (password : string) : bool :=
  let len := Z.of_nat (String.length password) in
  (8 <=? len)%Z && (len <=? 64)%Z &&
  has_char is_lower password && has_char is_upper password &&
  has_char is_digit password && symbol_then_bracket password &&
  negb (has_char (λ c, negb (latin_allowed c)) password).

End PasswordRules.

(** ** Outcomes of Math.random() that make a given identifier *)

Module UuidDraws.
Import Regex Uuid.

(** The value of a hexadecimal digit in lower case. *)
Definition hex_value (d : ascii) : Z :=
  let n := Z.of_N (N_of_ascii d) in
  if (n <? 58)%Z then n - 48 else n - 87.

(** An outcome of [Math.random()] with which the replacement of the
    template character [c] is the digit [d]. *)
Definition draw_for (c d : ascii) : Q :=
  Qmake (if Ascii.eqb c "x" then hex_value d else hex_value d - 8) 16.

(** The outcomes for the characters of the template that are replaced,
    from left to right. *)
Fixpoint draws (template s : string) : list Q :=
  match template, s with
  | String c template', String d s' =>
      if class_matches xy c then draw_for c d :: draws template' s'
      else draws template' s'
  | _, _ => []
  end.

Definition random_for (s : string) (n : nat) : Q :=
  nth n (draws "xxxxxxxx-xxxx-4xxx-yxxx-xxxxxxxxxxxx" s) 0%Q.

End UuidDraws.

(** ** The timing module: debounce and throttle

    The function that [debounce] or [throttle] returns is a closure over
    one variable.  Its life is a sequence of events: the program calls it
    with some arguments, or the environment runs the callback of a timer
    that the closure has set and that has been neither run nor cleared.
    [setTimeout] returns a handle that no timer had before.  When the
    environment runs a timer is up to it: the delay is not part of the
    model.

    [throttle] calls [func] before it sets its flag, so that what happens
    while [func] runs matters: the beginning and the end of a call of
    [func] are two events, and [func] may call the throttled function in
    between.  A callback of a timer runs when no function is running. *)

Module Timing.

Section Timers.
(** The arguments of one call, [...args]. *)
Context {Args : Type}.

Inductive event : Type :=
| Call (args : Args)
| Fire (timer : nat).

(** *** debounce *)

(** [debounceTimer], [undefined] at first; the pending timers, each with
    the arguments that its callback [() => func(...args)] has captured; the
    next handle of [setTimeout]; the calls of [func] so far, oldest
    first. *)
Record debounce_state : Type := DebounceState {
  debounceTimer : option nat;
  debounce_timers : gmap nat Args;
  debounce_next : nat;
  debounce_calls : list Args
}.

(** [debounce(func, delay)]: the closure it returns, just made. *)
Definition debounce : debounce_state := DebounceState None ∅ 0 [].

(** [clearTimeout(t)]: nothing happens for [undefined] and for a timer
    that has run. *)
Definition clearTimeout {A} (t : option nat) (timers : gmap nat A) : gmap nat A :=
  match t with
  | Some id => delete id timers
  | None => timers
  end.

(** The function returned, called with [args]:
    [clearTimeout(debounceTimer);
     debounceTimer = setTimeout(() => func(...args), delay)]. *)
Definition debounced (st : debounce_state) (args : Args) : debounce_state :=
  let timers := clearTimeout (debounceTimer st) (debounce_timers st) in
  let id := debounce_next st in
  DebounceState (Some id) (<[id := args]> timers) (S id) (debounce_calls st).

(** The timer [id] runs, if it is pending: [() => func(...args)]. *)
Definition debounce_timeout (st : debounce_state) (id : nat) : debounce_state :=
  match debounce_timers st !! id with
  | Some args =>
      DebounceState (debounceTimer st) (delete id (debounce_timers st))
                    (debounce_next st) (debounce_calls st ++ [args])%list
  | None => st
  end.

Definition debounce_step (st : debounce_state) (e : event) : debounce_state :=
  match e with
  | Call args => debounced st args
  | Fire id => debounce_timeout st id
  end.

Definition debounce_run (events : list event) : debounce_state :=
  foldl debounce_step debounce events.

(** *** throttle *)

(** What happens to a throttled function: it is called, by the program or
    by [func] while it runs; the call of [func] under way returns, or
    throws; the environment runs a timer. *)
Inductive throttle_event : Type :=
| Called (args : Args)
| Returned
| Thrown
| Fired (timer : nat).

(** [inThrottle], [undefined] at first, which is falsy; the pending
    timers, whose callback is [() => (inThrottle = false)]; the next handle
    of [setTimeout]; the calls of [func] so far, oldest first; how many of
    them have begun and not ended, each one stopped at line 35; how many
    have returned. *)
Record throttle_state : Type := ThrottleState {
  inThrottle : bool;
  throttle_timers : gset nat;
  throttle_next : nat;
  throttle_calls : list Args;
  throttle_running : nat;
  throttle_returned : nat
}.

(** [throttle(func, limit)]: the closure it returns, just made. *)
Definition throttle : throttle_state := ThrottleState false ∅ 0 [] 0 0.

(** The function returned, called with [args]: [if (!inThrottle)], and
    [func(...args)] begins.  The flag is as it was while [func] runs. *)
Definition throttled (st : throttle_state) (args : Args) : throttle_state :=
  if inThrottle st then st
  else
    ThrottleState (inThrottle st) (throttle_timers st) (throttle_next st)
                  (throttle_calls st ++ [args])%list
                  (S (throttle_running st)) (throttle_returned st).

(** The call of [func] under way returns:
    [inThrottle = true; setTimeout(() => (inThrottle = false), limit)]. *)
Definition throttled_returns (st : throttle_state) : throttle_state :=
  match throttle_running st with
  | O => st
  | S running =>
      let id := throttle_next st in
      ThrottleState true ({[ id ]} ∪ throttle_timers st) (S id)
                    (throttle_calls st) running (S (throttle_returned st))
  end.

(** The call of [func] under way throws: the exception leaves the
    throttled function before the flag is set. *)
Definition throttled_throws (st : throttle_state) : throttle_state :=
  match throttle_running st with
  | O => st
  | S running =>
      ThrottleState (inThrottle st) (throttle_timers st) (throttle_next st)
                    (throttle_calls st) running (throttle_returned st)
  end.

(** The timer [id] runs, if it is pending and no call of [func] is under
    way: [() => (inThrottle = false)]. *)
Definition throttle_timeout (st : throttle_state) (id : nat) : throttle_state :=
  match throttle_running st with
  | O =>
      if decide (id ∈ throttle_timers st) then
        ThrottleState false (throttle_timers st ∖ {[ id ]})
                      (throttle_next st) (throttle_calls st)
                      O (throttle_returned st)
      else st
  | S _ => st
  end.

Definition throttle_step (st : throttle_state) (e : throttle_event) :
    throttle_state :=
  match e with
  | Called args => throttled st args
  | Returned => throttled_returns st
  | Thrown => throttled_throws st
  | Fired id => throttle_timeout st id
  end.

Definition throttle_run (events : list throttle_event) : throttle_state :=
  foldl throttle_step throttle events.

(** [func] does not call the throttled function: every call comes when no
    call of [func] is under way. *)
Fixpoint sequential_from (st : throttle_state) (events : list throttle_event) :
    bool :=
  match events with
  | [] => true
  | e :: events =>
      match e with
      | Called _ => Nat.eqb (throttle_running st) 0
      | _ => true
      end && sequential_from (throttle_step st e) events
  end.

Definition sequential (events : list throttle_event) : bool :=
  sequential_from throttle events.

(** The events that run a timer. *)
Fixpoint fired (events : list throttle_event) : nat :=
  match events with
  | [] => 0
  | Fired _ :: events => S (fired events)
  | _ :: events => fired events
  end.

(** Between two calls of [func], the throttle is engaged exactly while one
    timer is pending; while [func] runs, the throttle is not engaged and no
    timer is pending; and no two calls of [func] are under way. *)
Definition one_timer (st : throttle_state) : Prop :=
  match throttle_running st with
  | 0 =>
      if inThrottle st then ∃ id, throttle_timers st = {[ id ]}
      else throttle_timers st = ∅
  | 1 => inThrottle st = false ∧ throttle_timers st = ∅
  | _ => False
  end.

(** The arguments of the calls of a debounced function. *)
Definition call_args (events : list event) : list Args :=
  omap (λ e, match e with Call args => Some args | Fire _ => None end) events.

End Timers.

End Timing.

(** ** What a call keeps, and shapes of arguments *)

Module Frames.
Import JS ObjectAssign.

(** Every object of [h] is still allocated in [h'], and owns every key it
    owned in [h]. *)
Definition keeps_keys (h h' : heap) : Prop :=
  ∀ l o, h !! l = Some o →
    ∃ o', h' !! l = Some o' ∧ ∀ k, is_Some (oprops o !! k) → is_Some (oprops o' !! k).

(** A primitive number or boolean. *)
Definition is_number_or_boolean (v : value) : bool :=
  match v with
  | VNum _ | VBool _ => true
  | _ => false
  end.

(** Not a string. *)
Definition no_text (v : value) : bool :=
  match v with
  | VStr _ => false
  | _ => true
  end.

(** Every object of the heap is a plain object, not an array, and none of
    its properties is a string. *)
Definition plain_data (h : heap) : bool :=
  forallb (λ lo : loc * object,
             negb (is_array lo.2) &&
             forallb (λ kv : string * value, no_text kv.2)
                     (map_to_list (oprops lo.2)))
          (map_to_list h).

(** The same, object by object. *)
Definition plain_objects (h : heap) : Prop :=
  ∀ l o, h !! l = Some o →
    okind o = Plain ∧ ∀ k x, oprops o !! k = Some x → no_text x = true.

(** No segment is the name of a member of [Object.prototype] or of
    [Number.prototype]. *)
Definition own_names (parts : list string) : bool :=
  forallb (λ k, negb (is_member k (object_prototype_members ++
                                   number_prototype_members)))
          parts.

(** Some source owns a key [__proto__]. *)
Definition owns_proto (h : heap) (objects : list value) : bool :=
  existsb (λ v, bool_decide ("__proto__" ∈ own_keys h v)) objects.

(** Under no key do both objects hold an object. *)
Definition no_common_object (ot os : object) : bool :=
  forallb (λ kv : string * value,
             match kv.2, obj_get ot kv.1 with
             | VRef _, VRef _ => false
             | _, _ => true
             end)
          (map_to_list (oprops os)).

(** The value is not a reference to an object outside the heap. *)
Definition allocated (h : heap) (v : value) : bool :=
  match v with
  | VRef l => bool_decide (is_Some (h !! l))
  | _ => true
  end.

(** Some object of the list owns the key. *)
Definition owned_by (h : heap) (k : string) (objects : list value) : bool :=
  existsb (λ v, bool_decide (k ∈ own_keys h v)) objects.

End Frames.

(** * Properties *)

(** ** Heaps, objects and paths *)

Module ObjectFacts.
Import JS ObjectUtils Shape Samples.

(** The examples in the comments of the source. *)

Example deepMerge_example :
  ∃ h' r l, deepMerge 5 heap_docs 1 3 = Ret h' r ∧
            deref h' r = Obj Plain {[ "a" := VRef l ]} ∧
            deref h' l = Obj Plain {[ "b" := VNum 1; "c" := VNum 2 ]}.
Proof. eexists _, _, _. split_and!; by vm_compute. Qed.

Example deepEqual_example :
  deepEqual 5 heap_docs (VRef 9%positive) (VRef 11%positive) = Some true.
Proof. reflexivity. Qed.

Example getNestedValue_example :
  getNestedValue heap_docs (VRef 6%positive) "a.b.c" = Val (VNum 1).
Proof. reflexivity. Qed.

Example setNestedValue_example :
  ∃ h' la lb, setNestedValue heap_docs (VRef 5%positive) "a.b.c" (VNum 1) = Ret h' tt ∧
              deref h' 5 = Obj Plain {[ "a" := VRef la ]} ∧
              deref h' la = Obj Plain {[ "b" := VRef lb ]} ∧
              deref h' lb = Obj Plain {[ "c" := VNum 1 ]}.
Proof. eexists _, _, _. split_and!; by vm_compute. Qed.

(** Keys and inherited members. *)
Example read_inherited_member :
  getNestedValue heap_docs (VRef 5%positive) "toString" = Builtin ∧
  getNestedValue heap_docs (VRef 5%positive) "toString.name" = Unknown ∧
  getNestedValue heap_docs (VRef 5%positive) "x.y" = Val VUndef.
Proof. by vm_compute. Qed.

(** The guards of the source select the references: [v && typeof v ===
    'object'] in [deepMerge], [typeof v === 'object' && v !== null] in
    [deepEqual]. *)
Lemma truthy_object_is_ref v :
  truthy v && typeof_object v = true ↔ ∃ l, v = VRef l.
Proof.
  split; [|by intros [l ->]].
  destruct v as [| |b|z| |s|l]; simpl; try done;
    rewrite ?andb_false_r; try done. by exists l.
Qed.

Lemma object_not_null_is_ref v :
  typeof_object v && negb (strict_eq v VNull) = true ↔ ∃ l, v = VRef l.
Proof.
  split; [|by intros [l ->]].
  destruct v as [| |b|z| |s|l]; simpl; try done. by exists l.
Qed.

Lemma alloc_spec (h h' : heap) o l :
  alloc h o = (h', l) → h !! l = None ∧ h' = <[l := o]> h.
Proof.
  unfold alloc. intros [= <- <-]. split; [|done].
  apply not_elem_of_dom, is_fresh.
Qed.

Lemma split_on_nonempty sep s : split_on sep s ≠ [].
Proof.
  destruct s as [|c s]; simpl; [done|].
  destruct (Ascii.eqb c sep); [done|].
  by destruct (split_on sep s).
Qed.

Lemma refs_all_spec P o k l :
  refs_all P o = true → oprops o !! k = Some (VRef l) → P l = true.
Proof.
  unfold refs_all. rewrite forallb_forall. intros Hall Hk.
  apply (Hall (k, VRef l)), list_elem_of_In. by apply elem_of_map_to_list.
Qed.

Lemma acyclic_spec (h : heap) rank l o k l' :
  acyclic h rank = true → h !! l = Some o →
  oprops o !! k = Some (VRef l') → rank l' < rank l.
Proof.
  unfold acyclic. rewrite forallb_forall. intros Hall Hl Hk.
  assert (In (l, o) (map_to_list h)) as Hin
    by by apply list_elem_of_In, elem_of_map_to_list.
  apply Hall in Hin. simpl in Hin.
  apply (refs_all_spec _ _ _ _ Hin) in Hk. by apply Nat.ltb_lt in Hk.
Qed.

Lemma closed_spec (h : heap) l o k l' :
  closed h = true → h !! l = Some o →
  oprops o !! k = Some (VRef l') → is_Some (h !! l').
Proof.
  unfold closed. rewrite forallb_forall. intros Hall Hl Hk.
  assert (In (l, o) (map_to_list h)) as Hin
    by by apply list_elem_of_In, elem_of_map_to_list.
  apply Hall in Hin. simpl in Hin.
  apply (refs_all_spec _ _ _ _ Hin) in Hk. by apply bool_decide_eq_true in Hk.
Qed.

Lemma unshadowed_spec (h : heap) l o :
  unshadowed h = true → h !! l = Some o →
  oprops o !! "hasOwnProperty" = None ∧ oprops o !! "__proto__" = None.
Proof.
  unfold unshadowed. rewrite forallb_forall. intros Hall Hl.
  assert (In (l, o) (map_to_list h)) as Hin
    by by apply list_elem_of_In, elem_of_map_to_list.
  apply Hall in Hin. simpl in Hin. apply andb_true_iff in Hin as [H1 H2].
  unfold owns in *.
  apply negb_true_iff, bool_decide_eq_false in H1.
  apply negb_true_iff, bool_decide_eq_false in H2.
  split; by apply eq_None_not_Some.
Qed.

Lemma deref_Some (h : heap) l o : h !! l = Some o → deref h l = o.
Proof. unfold deref. by intros ->. Qed.

Lemma deref_None (h : heap) l : h !! l = None → deref h l = empty_object.
Proof. unfold deref. by intros ->. Qed.

Lemma obj_get_ref o k l :
  obj_get o k = VRef l → oprops o !! k = Some (VRef l).
Proof.
  unfold obj_get. destruct (okind o).
  - destruct (oprops o !! k); simpl; congruence.
  - destruct (String.eqb k "length"); [done|].
    destruct (oprops o !! k); simpl; congruence.
Qed.

Lemma obj_get_plain o k :
  okind o = Plain → obj_get o k = default VUndef (oprops o !! k).
Proof. unfold obj_get. by intros ->. Qed.

Lemma obj_set_kind_plain o k x :
  okind o = Plain → okind (obj_set o k x) = Plain.
Proof. unfold obj_set. by intros ->. Qed.

Lemma obj_set_same o k x :
  okind o = Plain → oprops o !! k = Some x → obj_set o k x = o.
Proof.
  destruct o as [kd props]. simpl. intros -> Hk. unfold obj_set. simpl.
  by rewrite insert_id.
Qed.

(** Reading a key of a mapping: its own value, or what it inherits. *)
Lemma obj_read_plain o k :
  okind o = Plain →
  obj_read o k =
  match oprops o !! k with
  | Some v => Val v
  | None => if is_member k object_prototype_members then Builtin else Val VUndef
  end.
Proof.
  intros Hk. unfold obj_read, owns, is_array, obj_get. rewrite Hk.
  destruct (oprops o !! k) eqn:Hlook; simpl; [done|].
  by destruct (is_member k object_prototype_members).
Qed.

Lemma obj_read_set_plain o k x :
  okind o = Plain → obj_read (obj_set o k x) k = Val x.
Proof.
  intros Hk. rewrite obj_read_plain by by apply obj_set_kind_plain.
  unfold obj_set. simpl. by rewrite lookup_insert_eq.
Qed.

Lemma obj_read_truthy o k v :
  okind o = Plain → obj_read o k = Val v → truthy v = true →
  oprops o !! k = Some v.
Proof.
  intros Hk. rewrite obj_read_plain by done.
  destruct (oprops o !! k); [congruence|].
  destruct (is_member k object_prototype_members); [done|].
  by intros [= <-].
Qed.

(** A key that reads as a value of the model is stored by an assignment:
    it is owned, or it is not [__proto__]. *)
Lemma obj_write_read o k old x :
  okind o = Plain → obj_read o k = Val old →
  obj_write o k x = Stored (obj_set o k x).
Proof.
  intros Hk Hread. unfold obj_write, is_array. rewrite Hk. simpl.
  destruct (String.eqb k "__proto__") eqn:Hproto; [|done].
  apply String.eqb_eq in Hproto as ->.
  rewrite obj_read_plain in Hread by done. unfold owns.
  by destruct (oprops o !! "__proto__").
Qed.

Lemma obj_write_plain o k x :
  okind o = Plain → k ≠ "__proto__" →
  obj_write o k x = Stored (obj_set o k x).
Proof.
  unfold obj_write, is_array. intros -> Hne. simpl.
  destruct (String.eqb k "__proto__") eqn:Hproto; [|done].
  by apply String.eqb_eq in Hproto.
Qed.

Lemma is_mapping_inv (h : heap) v :
  is_mapping h v = true → ∃ l o, v = VRef l ∧ h !! l = Some o ∧ okind o = Plain.
Proof.
  destruct v as [| | | | | |l]; simpl; try done.
  destruct (h !! l) as [o|] eqn:Hl; [|done].
  unfold is_array. destruct (okind o) eqn:Hk; [|done]. eauto.
Qed.

Lemma is_mapping_intro (h : heap) l o :
  h !! l = Some o → okind o = Plain → is_mapping h (VRef l) = true.
Proof. simpl. intros -> Hk. unfold is_array. by rewrite Hk. Qed.

Lemma set_prop_stored (h : heap) l o k x :
  h !! l = Some o → obj_write o k x = Stored (obj_set o k x) →
  set_prop h (VRef l) k x = Ret (<[l := obj_set o k x]> h) tt.
Proof.
  intros Hl Hw. unfold set_prop, store. by rewrite (deref_Some _ _ _ Hl), Hw.
Qed.

Lemma get_path_step (h : heap) l o part rest next :
  h !! l = Some o → obj_read o part = Val next →
  get_path h (VRef l) (part :: rest) = get_path h next rest.
Proof.
  intros Hl Hread. unfold get_path. simpl.
  by rewrite (deref_Some _ _ _ Hl), Hread.
Qed.

(** Falsy values are handed on by [acc && acc[part]]. *)
Lemma get_path_falsy (h : heap) v parts :
  truthy v = false → get_path h v parts = Val v.
Proof.
  intros Hv. unfold get_path. induction parts as [|part parts IH]; [done|].
  simpl. by rewrite Hv.
Qed.

Lemma set_path_unfold (h : heap) current part part' rest v :
  set_path h current (part :: part' :: rest) v =
  match get_prop h current part with
  | Val old =>
      let '(h1, x) :=
        if truthy old then (h, old)
        else let '(h1, l) := alloc h empty_object in (h1, VRef l) in
      match set_prop h1 current part x with
      | Ret h2 _ =>
          match get_prop h2 current part with
          | Val next => set_path h2 next (part' :: rest) v
          | Fails e => Throw h2 e
          | Builtin | Unknown => Halt OutOfModel
          end
      | Throw h2 e => Throw h2 e
      | Halt r => Halt r
      end
  | Fails e => Throw h e
  | Builtin | Unknown => Halt OutOfModel
  end.
Proof. done. Qed.

(** One turn of the loop on a mapping whose segment holds a truthy value:
    the assignment stores what is there already. *)
Lemma set_path_step_truthy (h : heap) c o part rest v next :
  rest ≠ [] → h !! c = Some o → okind o = Plain →
  obj_read o part = Val next → truthy next = true →
  set_path h (VRef c) (part :: rest) v = set_path h next rest v.
Proof.
  intros Hne Hc Hk Hread Ht. destruct rest as [|part' rest]; [done|].
  rewrite set_path_unfold. simpl get_prop.
  rewrite (deref_Some _ _ _ Hc), Hread, Ht.
  pose proof (obj_read_truthy _ _ _ Hk Hread Ht) as Hp.
  rewrite (set_prop_stored _ _ o) by (by try eapply obj_write_read).
  rewrite obj_set_same, insert_id by done.
  by rewrite (deref_Some _ _ _ Hc), Hread.
Qed.

(** One turn of the loop on a mapping whose segment holds a falsy value:
    a new empty mapping is stored and entered. *)
Lemma set_path_step_falsy (h : heap) c o part rest v old :
  rest ≠ [] → h !! c = Some o → okind o = Plain →
  obj_read o part = Val old → truthy old = false →
  set_path h (VRef c) (part :: rest) v =
  set_path (<[c := obj_set o part (VRef (fresh (dom h)))]>
              (<[fresh (dom h) := empty_object]> h))
           (VRef (fresh (dom h))) rest v.
Proof.
  intros Hne Hc Hk Hread Ht. destruct rest as [|part' rest]; [done|].
  rewrite set_path_unfold. simpl get_prop.
  rewrite (deref_Some _ _ _ Hc), Hread, Ht.
  unfold alloc. set (g := fresh (dom h)).
  assert (h !! g = None) as Hg by apply not_elem_of_dom, is_fresh.
  assert (c ≠ g) as Hcg by congruence.
  rewrite (set_prop_stored _ _ o);
    [|by rewrite lookup_insert_ne|by eapply obj_write_read].
  erewrite deref_Some by apply lookup_insert_eq.
  by rewrite obj_read_set_plain.
Qed.

Lemma absent_in_new_cons part part' rest :
  absent_in_new (part :: part' :: rest) =
  negb (is_member part object_prototype_members) &&
  absent_in_new (part' :: rest).
Proof. done. Qed.

Lemma last_cons_cons {A} (x y : A) l : last (x :: y :: l) = last (y :: l).
Proof. done. Qed.

Lemma all_mappings_unfold (h : heap) current part part' rest :
  all_mappings h current (part :: part' :: rest) =
  is_mapping h current &&
  match get_prop h current part with
  | Val next => all_mappings h next (part' :: rest)
  | _ => false
  end.
Proof. done. Qed.

(** Setting a path from an empty mapping creates the whole chain. *)
Lemma set_path_fresh parts : ∀ (h : heap) f v,
  parts ≠ [] → h !! f = Some empty_object →
  absent_in_new parts = true → last parts ≠ Some "__proto__" →
  ∃ h', set_path h (VRef f) parts v = Ret h' tt ∧
        get_path h' (VRef f) parts = Val v ∧
        all_mappings h' (VRef f) parts = true ∧
        ∀ l o, l ≠ f → h !! l = Some o → h' !! l = Some o.
Proof.
  induction parts as [|part rest IH]; [done|]. intros h f v _ Hf Habs Hlast.
  destruct rest as [|part' rest'].
  - assert (part ≠ "__proto__") as Hpart by (intros ->; by apply Hlast).
    exists (<[f := obj_set empty_object part v]> h). split_and!.
    + apply set_prop_stored; [done|]. by apply obj_write_plain.
    + erewrite get_path_step;
        [done|apply lookup_insert_eq|by apply obj_read_set_plain].
    + simpl. by rewrite lookup_insert_eq.
    + intros l o Hne Hl. by rewrite lookup_insert_ne.
  - rewrite absent_in_new_cons in Habs.
    apply andb_true_iff in Habs as [Hpart%negb_true_iff Habs].
    rewrite last_cons_cons in Hlast.
    remember (part' :: rest') as rest eqn:Hrest.
    assert (rest ≠ []) as Hne by (by subst).
    assert (obj_read empty_object part = Val VUndef) as Hread.
    { rewrite obj_read_plain by done. simpl. rewrite lookup_empty.
      by rewrite Hpart. }
    rewrite (set_path_step_falsy h f empty_object _ _ _ VUndef) by done.
    set (g := fresh (dom h)).
    assert (h !! g = None) as Hg by apply not_elem_of_dom, is_fresh.
    assert (f ≠ g) as Hfg by congruence.
    set (h2 := <[f := obj_set empty_object part (VRef g)]> (<[g := empty_object]> h)).
    destruct (IH h2 g v Hne) as (h' & Hset & Hget & Hall & Hframe); [|done..|].
    { unfold h2. rewrite lookup_insert_ne, lookup_insert_eq; done. }
    assert (h' !! f = Some (obj_set empty_object part (VRef g))) as Hf'.
    { apply Hframe; [done|]. unfold h2. by rewrite lookup_insert_eq. }
    exists h'. split_and!.
    + done.
    + erewrite get_path_step; [done..|by apply obj_read_set_plain].
    + rewrite Hrest in *. rewrite all_mappings_unfold.
      rewrite (is_mapping_intro _ _ _ Hf') by done. simpl.
      by rewrite (deref_Some _ _ _ Hf'), obj_read_set_plain.
    + intros l o Hl Hlo. apply Hframe.
      * intros ->. congruence.
      * unfold h2. rewrite !lookup_insert_ne; [done| |done].
        intros ->. congruence.
Qed.

Lemma falsy_or_mapping_unfold (h : heap) current part part' rest :
  falsy_or_mapping h current (part :: part' :: rest) =
  is_mapping h current &&
  match get_prop h current part with
  | Val next =>
      if truthy next then falsy_or_mapping h next (part' :: rest)
      else absent_in_new (part' :: rest)
  | _ => false
  end.
Proof. done. Qed.

Lemma falsy_or_mapping_head (h : heap) current part rest :
  falsy_or_mapping h current (part :: rest) = true → is_mapping h current = true.
Proof. simpl. by intros [? _]%andb_true_iff. Qed.

(** Setting then getting a path, in a heap without cycles, when every
    segment on the way is falsy or a mapping.  The objects above the one
    the walk starts from are left as they are. *)
Lemma set_path_get_path parts : ∀ (h : heap) current v rank,
  parts ≠ [] → acyclic h rank = true →
  falsy_or_mapping h current parts = true →
  last parts ≠ Some "__proto__" →
  ∃ h', set_path h current parts v = Ret h' tt ∧
        get_path h' current parts = Val v ∧
        all_mappings h' current parts = true ∧
        ∀ l o, h !! l = Some o → (depth rank current ≤ rank l)%nat → h' !! l = Some o.
Proof.
  induction parts as [|part rest IH]; [done|].
  intros h current v rank _ Hacy Hwalk Hlast.
  destruct (is_mapping_inv _ _ (falsy_or_mapping_head _ _ _ _ Hwalk))
    as (c & o & -> & Hc & Hk).
  destruct rest as [|part' rest'].
  - assert (part ≠ "__proto__") as Hpart by (intros ->; by apply Hlast).
    exists (<[c := obj_set o part v]> h). split_and!.
    + apply set_prop_stored; [done|]. by apply obj_write_plain.
    + erewrite get_path_step;
        [done|apply lookup_insert_eq|by apply obj_read_set_plain].
    + simpl. rewrite lookup_insert_eq. unfold is_array.
      by rewrite obj_set_kind_plain.
    + intros l o' Hl Hrank. simpl in Hrank.
      rewrite lookup_insert_ne; [done|]. intros ->. lia.
  - rewrite falsy_or_mapping_unfold in Hwalk.
    apply andb_true_iff in Hwalk as [_ Hwalk]. simpl get_prop in Hwalk.
    rewrite (deref_Some _ _ _ Hc) in Hwalk.
    rewrite last_cons_cons in Hlast.
    remember (part' :: rest') as rest eqn:Hrest.
    assert (rest ≠ []) as Hne by (by subst).
    destruct (obj_read o part) as [next| | |] eqn:Hread; [|done..].
    destruct (truthy next) eqn:Ht.
    + (* the segment holds a mapping *)
      rewrite (set_path_step_truthy h c o _ _ _ next) by done.
      assert (is_mapping h next = true) as Hm.
      { rewrite Hrest in Hwalk. by apply falsy_or_mapping_head in Hwalk. }
      destruct (is_mapping_inv _ _ Hm) as (c' & o' & Hnext & Hc' & Hk').
      assert (rank c' < rank c)%nat as Hlt.
      { eapply acyclic_spec; [done..|]. rewrite <- Hnext.
        by apply obj_read_truthy. }
      destruct (IH h next v rank Hne Hacy Hwalk Hlast)
        as (h' & Hset & Hget & Hall & Hframe).
      assert (h' !! c = Some o) as Hc''.
      { apply Hframe; [done|]. rewrite Hnext. simpl. lia. }
      exists h'. split_and!.
      * done.
      * by erewrite get_path_step.
      * rewrite Hrest in *. rewrite all_mappings_unfold.
        rewrite (is_mapping_intro _ _ _ Hc'' Hk). simpl.
        by rewrite (deref_Some _ _ _ Hc''), Hread.
      * intros l ol Hl Hrank. apply Hframe; [done|].
        rewrite Hnext. simpl in *. lia.
    + (* the segment holds a falsy value *)
      rewrite (set_path_step_falsy h c o _ _ _ next) by done.
      set (g := fresh (dom h)).
      assert (h !! g = None) as Hg by apply not_elem_of_dom, is_fresh.
      assert (c ≠ g) as Hcg by congruence.
      set (h2 := <[c := obj_set o part (VRef g)]> (<[g := empty_object]> h)).
      destruct (set_path_fresh rest h2 g v Hne)
        as (h' & Hset & Hget & Hall & Hframe); [|done..|].
      { unfold h2. rewrite lookup_insert_ne, lookup_insert_eq; done. }
      assert (h' !! c = Some (obj_set o part (VRef g))) as Hc''.
      { apply Hframe; [done|]. unfold h2. by rewrite lookup_insert_eq. }
      exists h'. split_and!.
      * done.
      * erewrite get_path_step; [done..|by apply obj_read_set_plain].
      * rewrite Hrest in *. rewrite all_mappings_unfold.
        rewrite (is_mapping_intro _ _ _ Hc'' (obj_set_kind_plain _ _ _ Hk)).
        simpl. by rewrite (deref_Some _ _ _ Hc''), obj_read_set_plain.
      * intros l ol Hl Hrank. simpl in Hrank. apply Hframe.
        -- intros ->. congruence.
        -- unfold h2. rewrite !lookup_insert_ne; [done| |].
           ++ intros ->. congruence.
           ++ intros ->. lia.
Qed.

Lemma no_collision_falsy_or_mapping parts : ∀ (h : heap) current,
  no_collision h current parts = true → falsy_or_mapping h current parts = true.
Proof.
  induction parts as [|part rest IH]; [done|]. intros h current.
  destruct rest as [|part' rest']; [done|].
  change (no_collision h current (part :: part' :: rest')) with
    (is_mapping h current &&
     match get_prop h current part with
     | Val VUndef => absent_in_new (part' :: rest')
     | Val next => no_collision h next (part' :: rest')
     | _ => false
     end).
  rewrite falsy_or_mapping_unfold.
  intros [-> H]%andb_true_iff. simpl andb.
  destruct (get_prop h current part) as [next| | |]; [|done..].
  destruct (truthy next) eqn:Ht.
  - apply IH. by destruct next.
  - destruct next; try done;
      by (change (no_collision h ?x (part' :: rest'))
            with (is_mapping h x && match rest' with
                                    | [] => true
                                    | _ :: _ =>
                                        match get_prop h x part' with
                                        | Val VUndef => absent_in_new rest'
                                        | Val next => no_collision h next rest'
                                        | _ => false
                                        end
                                    end) in H).
Qed.

(** C2 (the code departs from the claim): on [{ a: 0 }] and the path
    "a.b", the walk reaches the primitive [0] with a segment left, and
    [getNestedValue] returns that [0], not [undefined]. *)
Theorem getNestedValue_returns_falsy_intermediate :
  getNestedValue heap_zero (VRef 1%positive) "a.b" = Val (VNum 0) ∧
  getNestedValue heap_zero (VRef 1%positive) "a.b" ≠ Val VUndef.
Proof. split; [reflexivity | by vm_compute]. Qed.

Lemma kept_or_replaced_unfold (h h' : heap) current part part' rest :
  kept_or_replaced h h' current (part :: part' :: rest) =
  match get_prop h current part, get_prop h' current part with
  | Val old, Val (VRef l) =>
      (if truthy old then bool_decide (old = VRef l)
       else bool_decide (h !! l = None)) &&
      kept_or_replaced h h' (VRef l) (part' :: rest)
  | _, _ => false
  end.
Proof. done. Qed.

(** The chain that setting a path from an empty mapping creates is made
    of objects that no heap [hb] allocated before had. *)
Lemma set_path_fresh_new parts : ∀ (h hb : heap) f v h',
  parts ≠ [] → h !! f = Some empty_object → hb !! f = None →
  (∀ l, h !! l = None → hb !! l = None) →
  absent_in_new parts = true → last parts ≠ Some "__proto__" →
  set_path h (VRef f) parts v = Ret h' tt →
  kept_or_replaced hb h' (VRef f) parts = true.
Proof.
  induction parts as [|part rest IH]; [done|].
  intros h hb f v h' _ Hf Hbf Hdom Habs Hlast Hset.
  destruct rest as [|part' rest']; [done|].
  rewrite absent_in_new_cons in Habs.
  apply andb_true_iff in Habs as [Hpart%negb_true_iff Habs].
  rewrite last_cons_cons in Hlast.
  remember (part' :: rest') as rest eqn:Hrest.
  assert (rest ≠ []) as Hne by (by subst).
  assert (obj_read empty_object part = Val VUndef) as Hread.
  { rewrite obj_read_plain by done. simpl. rewrite lookup_empty.
    by rewrite Hpart. }
  rewrite (set_path_step_falsy h f empty_object _ _ _ VUndef) in Hset by done.
  set (g := fresh (dom h)) in *.
  assert (h !! g = None) as Hg by apply not_elem_of_dom, is_fresh.
  assert (f ≠ g) as Hfg by congruence.
  set (h2 := <[f := obj_set empty_object part (VRef g)]> (<[g := empty_object]> h))
    in *.
  assert (h2 !! g = Some empty_object) as Hg2.
  { unfold h2. rewrite lookup_insert_ne, lookup_insert_eq; done. }
  destruct (set_path_fresh rest h2 g v Hne Hg2 Habs Hlast)
    as (h'' & Hset' & _ & _ & Hframe).
  rewrite Hset in Hset'. injection Hset' as <-.
  assert (h' !! f = Some (obj_set empty_object part (VRef g))) as Hf'.
  { apply Hframe; [done|]. unfold h2. by rewrite lookup_insert_eq. }
  rewrite Hrest, kept_or_replaced_unfold, <- Hrest. simpl get_prop.
  rewrite (deref_None _ _ Hbf), Hread, (deref_Some _ _ _ Hf').
  rewrite obj_read_set_plain by done. simpl truthy. cbv iota.
  rewrite bool_decide_eq_true_2 by (by apply Hdom). simpl.
  apply (IH h2 hb g v h'); try done.
  - by apply Hdom.
  - intros l Hl. apply Hdom. unfold h2 in Hl.
    apply lookup_insert_None in Hl as [Hl _].
    by apply lookup_insert_None in Hl as [Hl _].
Qed.

(** Setting a path, in a heap without cycles, when every segment on the
    way is falsy or a mapping: the mappings on the way are kept, and a
    falsy value gives way to an object that the heap did not have. *)
Lemma set_path_kept parts : ∀ (h : heap) current v rank h',
  parts ≠ [] → acyclic h rank = true →
  falsy_or_mapping h current parts = true →
  last parts ≠ Some "__proto__" →
  set_path h current parts v = Ret h' tt →
  kept_or_replaced h h' current parts = true.
Proof.
  induction parts as [|part rest IH]; [done|].
  intros h current v rank h' _ Hacy Hwalk Hlast Hset.
  destruct (is_mapping_inv _ _ (falsy_or_mapping_head _ _ _ _ Hwalk))
    as (c & o & -> & Hc & Hk).
  destruct rest as [|part' rest']; [done|].
  rewrite falsy_or_mapping_unfold in Hwalk.
  apply andb_true_iff in Hwalk as [_ Hwalk]. simpl get_prop in Hwalk.
  rewrite (deref_Some _ _ _ Hc) in Hwalk.
  rewrite last_cons_cons in Hlast.
  remember (part' :: rest') as rest eqn:Hrest.
  assert (rest ≠ []) as Hne by (by subst).
  destruct (obj_read o part) as [next| | |] eqn:Hread; [|done..].
  rewrite Hrest, kept_or_replaced_unfold, <- Hrest. simpl get_prop.
  rewrite (deref_Some _ _ _ Hc), Hread.
  destruct (truthy next) eqn:Ht.
  - (* the segment holds a mapping *)
    rewrite (set_path_step_truthy h c o _ _ _ next) in Hset by done.
    assert (is_mapping h next = true) as Hm.
    { rewrite Hrest in Hwalk. by apply falsy_or_mapping_head in Hwalk. }
    destruct (is_mapping_inv _ _ Hm) as (c' & o' & Hnext & Hc' & Hk').
    assert (rank c' < rank c)%nat as Hlt.
    { eapply acyclic_spec; [done..|]. rewrite <- Hnext.
      by apply obj_read_truthy. }
    destruct (set_path_get_path rest h next v rank Hne Hacy Hwalk Hlast)
      as (h'' & Hset' & _ & _ & Hframe).
    rewrite Hset in Hset'. injection Hset' as <-.
    assert (h' !! c = Some o) as Hc''.
    { apply Hframe; [done|]. rewrite Hnext. simpl. lia. }
    rewrite (deref_Some _ _ _ Hc''), Hread. subst next.
    rewrite bool_decide_eq_true_2 by done. simpl.
    by apply (IH h (VRef c') v rank h').
  - (* the segment holds a falsy value *)
    rewrite (set_path_step_falsy h c o _ _ _ next) in Hset by done.
    set (g := fresh (dom h)) in *.
    assert (h !! g = None) as Hg by apply not_elem_of_dom, is_fresh.
    assert (c ≠ g) as Hcg by congruence.
    set (h2 := <[c := obj_set o part (VRef g)]> (<[g := empty_object]> h)) in *.
    assert (h2 !! g = Some empty_object) as Hg2.
    { unfold h2. rewrite lookup_insert_ne, lookup_insert_eq; done. }
    destruct (set_path_fresh rest h2 g v Hne Hg2 Hwalk Hlast)
      as (h'' & Hset' & _ & _ & Hframe).
    rewrite Hset in Hset'. injection Hset' as <-.
    assert (h' !! c = Some (obj_set o part (VRef g))) as Hc''.
    { apply Hframe; [done|]. unfold h2. by rewrite lookup_insert_eq. }
    rewrite (deref_Some _ _ _ Hc''), obj_read_set_plain by done.
    rewrite bool_decide_eq_true_2 by done. simpl.
    apply (set_path_fresh_new rest h2 h g v h'); try done.
    intros l Hl. unfold h2 in Hl.
    apply lookup_insert_None in Hl as [Hl _].
    by apply lookup_insert_None in Hl as [Hl _].
Qed.

(** *** What setNestedValue leaves as it is *)

Lemma same_outside_refl parts (h : heap) : same_outside parts h h.
Proof. intros l o Hl. by exists o. Qed.

Lemma same_outside_trans ps qs rs (h1 h2 h3 : heap) :
  (∀ k, k ∉ rs → (k ∉ ps) ∧ (k ∉ qs)) →
  same_outside ps h1 h2 → same_outside qs h2 h3 → same_outside rs h1 h3.
Proof.
  intros Hrs H12 H23 l o Hl.
  destruct (H12 l o Hl) as (o2 & Hl2 & Hk2).
  destruct (H23 l o2 Hl2) as (o3 & Hl3 & Hk3).
  exists o3. split; [done|]. intros k Hk. destruct (Hrs k Hk) as [Hp Hq].
  by rewrite Hk3, Hk2.
Qed.

Lemma set_prop_same_outside (h h' : heap) c k x :
  set_prop h c k x = Ret h' tt → same_outside [k] h h'.
Proof.
  assert (Ret h tt = Ret h' tt → same_outside [k] h h') as Hsame
    by (intros [= <-]; apply same_outside_refl).
  destruct c as [| |b|z| |s|l]; simpl; try done;
    try (by destruct (String.eqb k "__proto__")).
  unfold store. destruct (obj_write (deref h l) k x) as [o'| |] eqn:Hw; [|done..].
  intros [= <-]. unfold obj_write in Hw.
  destruct (_ && _); [done|].
  destruct (_ && _); [by destruct x|]. injection Hw as <-.
  intros l0 o Hl0. destruct (decide (l0 = l)) as [->|Hne].
  - exists (obj_set (deref h l) k x). rewrite lookup_insert_eq. split; [done|].
    rewrite (deref_Some _ _ _ Hl0). simpl. intros k0 Hk0.
    rewrite lookup_insert_ne; [done|]. intros <-. apply Hk0. by left.
  - exists o. by rewrite lookup_insert_ne.
Qed.

(** A call that returns has changed, in the objects there were, only
    properties under the segments of the path. *)
Lemma set_path_same_outside parts : ∀ (h : heap) current v h',
  set_path h current parts v = Ret h' tt → same_outside parts h h'.
Proof.
  induction parts as [|part rest IH]; intros h current v h'.
  { intros [= <-]. apply same_outside_refl. }
  destruct rest as [|part' rest]; [apply set_prop_same_outside|].
  rewrite set_path_unfold.
  destruct (get_prop h current part) as [old| | |]; [|done..].
  assert (∃ h1 x, (if truthy old then (h, old)
                   else let '(h1, l) := alloc h empty_object in (h1, VRef l))
                  = (h1, x) ∧ same_outside [] h h1) as (h1 & x & -> & H01).
  { destruct (truthy old); [eexists _, _; split; [done|apply same_outside_refl]|].
    unfold alloc. eexists _, _. split; [done|].
    intros l o Hl. exists o. split; [|done].
    rewrite lookup_insert_ne; [done|]. intros <-.
    pose proof (is_fresh (dom h)) as Hfresh.
    apply not_elem_of_dom in Hfresh. congruence. }
  destruct (set_prop h1 current part x) as [h2 []| |] eqn:Hset; [|done..].
  apply set_prop_same_outside in Hset.
  destruct (get_prop h2 current part) as [next| | |]; [|done..].
  intros Hrest%IH.
  assert (same_outside [part] h h2) as H02.
  { apply (same_outside_trans [] [part] [part] h h1 h2); [|done..].
    intros k Hk. split; [apply not_elem_of_nil|done]. }
  apply (same_outside_trans [part] (part' :: rest) (part :: part' :: rest) h h2 h');
    [|done..].
  intros k Hk. split; intros Hin; apply Hk.
  - apply list_elem_of_singleton in Hin as ->. by left.
  - by right.
Qed.

(** C3, as stated, fails: on [{ a: 5 }] and the path "a.b", the truthy
    number is not overwritten, the assignment to a property of the number
    throws, and [getNestedValue] does not return the value. *)
Lemma setNestedValue_keeps_truthy_intermediate :
  setNestedValue heap_five (VRef 1%positive) "a.b" (VNum 1)
    = Throw heap_five TypeError ∧
  getNestedValue heap_five (VRef 1%positive) "a" = Val (VNum 5) ∧
  getNestedValue heap_five (VRef 1%positive) "a.b" = Val VUndef.
Proof. by vm_compute. Qed.

(** C3, amended: in a heap without cycles, if every intermediate segment
    of the path holds a falsy value or a mapping, no intermediate segment
    that is missing is the name of a member of [Object.prototype], and the
    last segment is not [__proto__], then [setNestedValue] returns; the
    mappings that the intermediate segments held are kept, each falsy
    intermediate is replaced by a new object, and the objects there were
    hold what they held under every key that is no segment of the path;
    afterwards every intermediate segment holds a mapping, and
    [getNestedValue] returns the value. *)
Theorem setNestedValue_replaces_falsy_intermediates
    (h : heap) (rank : loc → nat) (obj : value) (path : string) (v : value) :
  acyclic h rank = true →
  falsy_or_mapping h obj (split_on "." path) = true →
  last (split_on "." path) ≠ Some "__proto__" →
  ∃ h', setNestedValue h obj path v = Ret h' tt ∧
        kept_or_replaced h h' obj (split_on "." path) = true ∧
        same_outside (split_on "." path) h h' ∧
        all_mappings h' obj (split_on "." path) = true ∧
        getNestedValue h' obj path = Val v.
Proof.
  intros Hacy Hwalk Hlast.
  destruct (set_path_get_path (split_on "." path) h obj v rank)
    as (h' & Hset & Hget & Hall & _); [apply split_on_nonempty|done..|].
  exists h'. split_and!; [done| | |done..].
  - by apply (set_path_kept (split_on "." path) h obj v rank h');
      [apply split_on_nonempty|..].
  - by apply (set_path_same_outside (split_on "." path) h obj v h').
Qed.

Lemma setNestedValue_replaces_falsy_intermediates_witness :
  ∃ h', setNestedValue heap_kept (VRef 1%positive) "a.b.c" (VNum 1) = Ret h' tt ∧
        kept_or_replaced heap_kept h' (VRef 1%positive) (split_on "." "a.b.c") = true ∧
        same_outside (split_on "." "a.b.c") heap_kept h' ∧
        all_mappings h' (VRef 1%positive) (split_on "." "a.b.c") = true ∧
        getNestedValue h' (VRef 1%positive) "a.b.c" = Val (VNum 1).
Proof.
  apply (setNestedValue_replaces_falsy_intermediates heap_kept rank10);
    [reflexivity | reflexivity | by vm_compute].
Defined.

(** The condition on the missing segments is needed: on [{}] and the path
    "a.toString.b", the new mapping under [a] inherits [toString], a
    built-in function, which is truthy: it is stored and entered, and the
    segment holds no mapping. *)
Lemma setNestedValue_inherited_intermediate :
  falsy_or_mapping heap_nested (VRef 3%positive) (split_on "." "a.toString.b")
    = false ∧
  setNestedValue heap_nested (VRef 3%positive) "a.toString.b" (VNum 1)
    = Halt OutOfModel.
Proof. by vm_compute. Qed.

(** C5, as stated, fails: on the empty mapping and the path "__proto__",
    no segment collides with anything, the assignment reaches the accessor
    of [Object.prototype], which ignores the number, the heap is as it was,
    and [getNestedValue] returns the built-in prototype object, not the
    number. *)
Lemma setNestedValue_proto_not_stored :
  no_collision heap_nested (VRef 3%positive) (split_on "." "__proto__") = true ∧
  setNestedValue heap_nested (VRef 3%positive) "__proto__" (VNum 5)
    = Ret heap_nested tt ∧
  getNestedValue heap_nested (VRef 3%positive) "__proto__" = Builtin.
Proof. by vm_compute. Qed.

(** C5, amended: in a heap without cycles, if no intermediate segment of
    the path collides with a value that is not a mapping, and the last
    segment is not [__proto__], [setNestedValue] returns and
    [getNestedValue] then returns the value. *)
Theorem setNestedValue_getNestedValue
    (h : heap) (rank : loc → nat) (m : value) (p : string) (v : value) :
  acyclic h rank = true →
  no_collision h m (split_on "." p) = true →
  last (split_on "." p) ≠ Some "__proto__" →
  ∃ h', setNestedValue h m p v = Ret h' tt ∧ getNestedValue h' m p = Val v.
Proof.
  intros Hacy Hwalk%no_collision_falsy_or_mapping Hlast.
  destruct (set_path_get_path (split_on "." p) h m v rank)
    as (h' & Hset & Hget & _); [apply split_on_nonempty|done..|].
  by exists h'.
Qed.

Lemma setNestedValue_getNestedValue_witness :
  ∃ h', setNestedValue heap_nested (VRef 1%positive) "a.c.d" (VStr "v") = Ret h' tt ∧
        getNestedValue h' (VRef 1%positive) "a.c.d" = Val (VStr "v").
Proof.
  apply (setNestedValue_getNestedValue heap_nested rank10);
    [reflexivity | reflexivity | by vm_compute].
Defined.

(** *** deepEqual *)

Lemma keys_NoDup o : NoDup (keys o).
Proof. apply NoDup_fst_map_to_list. Qed.

Lemma elem_of_keys o k : k ∈ keys o ↔ is_Some (oprops o !! k).
Proof.
  unfold keys. rewrite list_elem_of_fmap. split.
  - intros ([k' x] & -> & Hin). apply elem_of_map_to_list in Hin. by exists x.
  - intros [x Hx]. exists (k, x). split; [done|]. by apply elem_of_map_to_list.
Qed.

Lemma keys_deref_allocated (h : heap) l k :
  k ∈ keys (deref h l) → h !! l = Some (deref h l).
Proof.
  unfold deref. destruct (h !! l) as [o|]; [done|]. simpl.
  unfold keys. simpl. rewrite map_to_list_empty. by intros ?%elem_of_nil.
Qed.

Lemma strict_eq_sym a b : strict_eq a b = strict_eq b a.
Proof.
  destruct a, b; simpl; try done;
    apply bool_decide_ext; split; congruence.
Qed.

Lemma strict_eq_refl v : v ≠ VNaN → strict_eq v v = true.
Proof. destruct v; simpl; try done; intros _; by apply bool_decide_eq_true. Qed.

(** Lists without duplicates of the same length: inclusion goes both ways. *)
Lemma NoDup_subset_length {A} (l1 l2 : list A) :
  NoDup l1 → length l1 = length l2 →
  (∀ x, x ∈ l1 → x ∈ l2) → ∀ x, x ∈ l2 → x ∈ l1.
Proof.
  intros Hnd Hlen Hsub x Hx.
  assert (l1 ≡ₚ l2) as Hperm.
  { apply submseteq_length_Permutation; [by apply NoDup_submseteq | lia]. }
  by rewrite Hperm.
Qed.

Section equal_keys_facts.
Variable rec : value → value → option bool.
Variables o1 o2 : object.
Variable keys2 : list string.

Lemma equal_keys_true ks :
  equal_keys rec o1 o2 keys2 ks = Some true ↔
  ∀ k, k ∈ ks → k ∈ keys2 ∧ rec (obj_get o1 k) (obj_get o2 k) = Some true.
Proof.
  induction ks as [|key ks IH]; simpl.
  - split; [|done]. by intros _ k ?%elem_of_nil.
  - destruct (bool_decide (key ∈ keys2)) eqn:Hin; simpl.
    + apply bool_decide_eq_true in Hin.
      destruct (rec (obj_get o1 key) (obj_get o2 key)) as [[]|] eqn:Hrec.
      * rewrite IH. split.
        -- intros H k [->|Hk]%elem_of_cons; [done|]. by apply H.
        -- intros H k Hk. apply H. by right.
      * split; [done|]. intros H.
        destruct (H key) as [_ H']; [by left|]. congruence.
      * split; [done|]. intros H.
        destruct (H key) as [_ H']; [by left|]. congruence.
    + apply bool_decide_eq_false in Hin. split; [done|]. intros H.
      destruct (H key) as [H' _]; [by left|]. done.
Qed.

Lemma equal_keys_defined ks :
  (∀ k, k ∈ ks → k ∈ keys2 → is_Some (rec (obj_get o1 k) (obj_get o2 k))) →
  is_Some (equal_keys rec o1 o2 keys2 ks).
Proof.
  induction ks as [|key ks IH]; simpl; intros H; [by eexists|].
  destruct (bool_decide (key ∈ keys2)) eqn:Hin; simpl; [|by eexists].
  apply bool_decide_eq_true in Hin.
  destruct (H key) as [[] ->]; [by left|done| |by eexists].
  apply IH. intros k Hk. apply H. by right.
Qed.
End equal_keys_facts.

Lemma deepEqual_unfold fuel (h : heap) obj1 obj2 :
  deepEqual (S fuel) h obj1 obj2 =
  if strict_eq obj1 obj2 then Some true
  else match obj1, obj2 with
       | VRef l1, VRef l2 =>
           if negb (length (keys (deref h l1)) =? length (keys (deref h l2)))%nat
           then Some false
           else equal_keys (deepEqual fuel h) (deref h l1) (deref h l2)
                           (keys (deref h l2)) (keys (deref h l1))
       | _, _ => Some false
       end.
Proof. done. Qed.

(** The value under a key of an allocated object is less deep. *)
Lemma depth_child (h : heap) rank l k fuel :
  acyclic h rank = true → k ∈ keys (deref h l) → (rank l < fuel)%nat →
  (depth rank (obj_get (deref h l) k) < fuel)%nat.
Proof.
  intros Hacy Hk Hfuel. apply keys_deref_allocated in Hk.
  destruct (obj_get (deref h l) k) as [| | | | | |l'] eqn:Hget; simpl; try lia.
  apply obj_get_ref in Hget.
  pose proof (acyclic_spec _ _ _ _ _ _ Hacy Hk Hget). lia.
Qed.

Lemma deepEqual_both_orders fuel : ∀ (h : heap) rank a b,
  acyclic h rank = true → (depth rank a < fuel)%nat →
  ∃ r, deepEqual fuel h a b = Some r ∧ deepEqual fuel h b a = Some r.
Proof.
  induction fuel as [|fuel IH]; intros h rank a b Hacy Hdepth; [lia|].
  rewrite !deepEqual_unfold, (strict_eq_sym b a).
  destruct (strict_eq a b); [by exists true|].
  destruct a as [| | | | | |l1], b as [| | | | | |l2]; try by exists false.
  simpl in Hdepth.
  rewrite (Nat.eqb_sym (length (keys (deref h l2)))).
  destruct (length (keys (deref h l1)) =? length (keys (deref h l2)))%nat eqn:Hlen;
    simpl; [|by exists false].
  apply Nat.eqb_eq in Hlen.
  set (o1 := deref h l1) in *. set (o2 := deref h l2) in *.
  assert (∀ k, k ∈ keys o1 →
            ∃ r, deepEqual fuel h (obj_get o1 k) (obj_get o2 k) = Some r ∧
                 deepEqual fuel h (obj_get o2 k) (obj_get o1 k) = Some r) as Hrec.
  { intros k Hk. apply (IH h rank); [done|].
    apply depth_child; [done..|lia]. }
  destruct (equal_keys_defined (deepEqual fuel h) o1 o2 (keys o2) (keys o1))
    as [r1 Hr1].
  { intros k Hk _. destruct (Hrec k Hk) as (r & -> & _). by eexists. }
  destruct (equal_keys_defined (deepEqual fuel h) o2 o1 (keys o1) (keys o2))
    as [r2 Hr2].
  { intros k _ Hk. destruct (Hrec k Hk) as (r & _ & ->). by eexists. }
  assert (r1 = true ↔ r2 = true) as Hiff.
  { split; intros ->.
    - rewrite equal_keys_true in Hr1.
      assert (equal_keys (deepEqual fuel h) o2 o1 (keys o1) (keys o2) = Some true)
        as Ht; [|congruence].
      apply equal_keys_true. intros k Hk.
      assert (k ∈ keys o1) as Hk1.
      { apply (NoDup_subset_length (keys o1) (keys o2));
          [apply keys_NoDup|done| |done].
        intros x Hx. by apply Hr1. }
      split; [done|].
      destruct (Hrec k Hk1) as (r & Hab & Hba).
      destruct (Hr1 k Hk1) as [_ Hab']. congruence.
    - rewrite equal_keys_true in Hr2.
      assert (equal_keys (deepEqual fuel h) o1 o2 (keys o2) (keys o1) = Some true)
        as Ht; [|congruence].
      apply equal_keys_true. intros k Hk.
      assert (k ∈ keys o2) as Hk2.
      { apply (NoDup_subset_length (keys o2) (keys o1));
          [apply keys_NoDup|done| |done].
        intros x Hx. by apply Hr2. }
      split; [done|].
      destruct (Hrec k Hk) as (r & Hab & Hba).
      destruct (Hr2 k Hk2) as [_ Hba']. congruence. }
  exists r1. split; [done|]. rewrite Hr2. f_equal.
  destruct r1, r2; try done; [by destruct Hiff as [-> _] | by destruct Hiff as [_ ->]].
Qed.

(** A result does not depend on the budget that was enough for it. *)
Lemma equal_keys_mono (rec rec' : value → value → option bool) o1 o2 keys2 ks r :
  (∀ x y b, rec x y = Some b → rec' x y = Some b) →
  equal_keys rec o1 o2 keys2 ks = Some r →
  equal_keys rec' o1 o2 keys2 ks = Some r.
Proof.
  intros Hrec. induction ks as [|key ks IH]; simpl; [done|].
  destruct (negb (bool_decide (key ∈ keys2))); [done|].
  destruct (rec (obj_get o1 key) (obj_get o2 key)) as [b|] eqn:Hb; [|done].
  rewrite (Hrec _ _ _ Hb). by destruct b.
Qed.

Lemma deepEqual_fuel_mono fuel : ∀ (h : heap) a b r fuel',
  deepEqual fuel h a b = Some r → (fuel ≤ fuel')%nat →
  deepEqual fuel' h a b = Some r.
Proof.
  induction fuel as [|fuel IH]; intros h a b r fuel' Hrun Hle; [done|].
  destruct fuel' as [|fuel']; [lia|].
  rewrite deepEqual_unfold in *.
  destruct (strict_eq a b); [done|].
  destruct a as [| | | | | |l1], b as [| | | | | |l2]; try done.
  destruct (negb _); [done|].
  eapply equal_keys_mono; [|done].
  intros x y c Hc. apply (IH h x y c); [done|lia].
Qed.

(** C6: in a heap without cycles, and with a recursion budget above the
    nesting depth of the first argument, [deepEqual] returns a boolean on
    [(a, b)] and the same boolean on [(b, a)]. *)
Theorem deepEqual_symmetric
    (h : heap) (rank : loc → nat) (fuel : nat) (a b : value) :
  acyclic h rank = true → (depth rank a < fuel)%nat →
  ∃ r, deepEqual fuel h a b = Some r ∧ deepEqual fuel h b a = Some r.
Proof. apply deepEqual_both_orders. Qed.

Lemma deepEqual_symmetric_witness :
  ∃ r, deepEqual 12 heap_arrays (VRef 1%positive) (VRef 3%positive) = Some r ∧
       deepEqual 12 heap_arrays (VRef 3%positive) (VRef 1%positive) = Some r.
Proof.
  apply (deepEqual_symmetric heap_arrays rank10); [reflexivity | unfold depth, rank10; simpl; lia].
Defined.

(** *** deepMerge *)

(** Assigning to a key of the output object, a mapping. *)
Lemma store_plain (h : heap) l props k x :
  h !! l = Some (Obj Plain props) → k ≠ "__proto__" →
  store h l k x = Ret (<[l := Obj Plain (<[k := x]> props)]> h) tt.
Proof.
  intros Hl Hk. unfold store. rewrite (deref_Some _ _ _ Hl).
  by rewrite obj_write_plain.
Qed.

Lemma store_plain_cases (h : heap) l props k x :
  h !! l = Some (Obj Plain props) →
  store h l k x = Ret (<[l := Obj Plain (<[k := x]> props)]> h) tt ∨
  k = "__proto__" ∧ (store h l k x = Ret h tt ∨ store h l k x = Halt OutOfModel).
Proof.
  intros Hl. destruct (decide (k = "__proto__")) as [->|Hk].
  - unfold store, obj_write. rewrite (deref_Some _ _ _ Hl). simpl.
    destruct (negb _); [|by left]. right. split; [done|].
    destruct x; auto.
  - left. by apply store_plain.
Qed.

Lemma merge_keys_cons rec target source output key ks (h : heap) :
  merge_keys rec target source output (key :: ks) h =
  match merge_value rec target source h key with
  | Ret h' x =>
      match store h' output key x with
      | Ret h'' _ => merge_keys rec target source output ks h''
      | Throw h'' e => Throw h'' e
      | Halt r => Halt r
      end
  | Throw h' e => Throw h' e
  | Halt r => Halt r
  end.
Proof. reflexivity. Qed.

Section merge_keys_facts.
Variable rec : heap → loc → loc → outcome loc.
Hypothesis rec_preserves : ∀ h lt ls, preserves h (rec h lt ls).
Variables target source output : loc.

Lemma merge_value_frame (h : heap) key :
  match merge_value rec target source h key with
  | Ret h' _ | Throw h' _ => h ⊆ h'
  | Halt _ => True
  end.
Proof.
  unfold merge_value.
  destruct (obj_get (deref h source) key) as [| | | | | |ls]; try done.
  destruct (call_hasOwnProperty _ _) as [[]|]; try done.
  destruct (obj_get (deref h target) key) as [| | | | | |lt]; try done.
  pose proof (rec_preserves h lt ls) as H.
  destruct (rec h lt ls); simpl in *; [by destruct H|done|done].
Qed.

(** The loop writes to the output object only. *)
Lemma merge_keys_frame ks : ∀ (h : heap) props,
  h !! output = Some (Obj Plain props) →
  match merge_keys rec target source output ks h with
  | Ret h' _ =>
      (∀ l o, l ≠ output → h !! l = Some o → h' !! l = Some o) ∧
      ∃ props', h' !! output = Some (Obj Plain props')
  | Throw h' _ => ∀ l o, l ≠ output → h !! l = Some o → h' !! l = Some o
  | Halt _ => True
  end.
Proof.
  induction ks as [|key ks IH]; intros h props Hout; [simpl; by eauto|].
  rewrite merge_keys_cons.
  pose proof (merge_value_frame h key) as Hval.
  destruct (merge_value rec target source h key) as [h1 x|h1 e|]; [| |done].
  - assert (h1 !! output = Some (Obj Plain props)) as Hout1
      by by eapply lookup_weaken.
    destruct (store_plain_cases h1 output props key x Hout1)
      as [->|[_ [->| ->]]]; [| |done].
    + specialize (IH (<[output := Obj Plain (<[key := x]> props)]> h1)
                     (<[key := x]> props)).
      rewrite lookup_insert_eq in IH. specialize (IH eq_refl).
      destruct (merge_keys _ _ _ _ _ _) as [h' []|h' e|]; [| |done].
      * destruct IH as [IH Hout']. split; [|done].
        intros l o Hl Hlo. apply IH; [done|].
        rewrite lookup_insert_ne by done. by eapply lookup_weaken.
      * intros l o Hl Hlo. apply IH; [done|].
        rewrite lookup_insert_ne by done. by eapply lookup_weaken.
    + specialize (IH h1 props Hout1).
      destruct (merge_keys _ _ _ _ _ _) as [h' []|h' e|]; [| |done].
      * destruct IH as [IH Hout']. split; [|done].
        intros l o Hl Hlo. apply IH; [done|]. by eapply lookup_weaken.
      * intros l o Hl Hlo. apply IH; [done|]. by eapply lookup_weaken.
  - intros l o _ Hlo. by eapply lookup_weaken.
Qed.
End merge_keys_facts.

Lemma deepMerge_unfold fuel (h : heap) target source :
  deepMerge (S fuel) h target source =
  let output := fresh (dom h) in
  match merge_keys (deepMerge fuel) target source output
                   (keys (deref h source))
                   (<[output := Obj Plain (oprops (deref h target))]> h) with
  | Ret h' _ => Ret h' output
  | Throw h' e => Throw h' e
  | Halt r => Halt r
  end.
Proof. done. Qed.

(** [deepMerge] writes to the objects it creates only. *)
Lemma deepMerge_preserves fuel : ∀ (h : heap) target source,
  preserves h (deepMerge fuel h target source).
Proof.
  induction fuel as [|fuel IH]; intros h target source; [done|].
  rewrite deepMerge_unfold. simpl.
  set (output := fresh (dom h)).
  assert (h !! output = None) as Hout by apply not_elem_of_dom, is_fresh.
  set (h0 := <[output := Obj Plain (oprops (deref h target))]> h).
  pose proof (merge_keys_frame (deepMerge fuel) IH target source output
                (keys (deref h source)) h0 (oprops (deref h target))) as Hloop.
  unfold h0 in Hloop at 1. rewrite lookup_insert_eq in Hloop.
  specialize (Hloop eq_refl).
  assert (∀ h', (∀ l o, l ≠ output → h0 !! l = Some o → h' !! l = Some o) → h ⊆ h')
    as Hsub.
  { intros h' H. apply map_subseteq_spec. intros l o Hl. apply H.
    - intros ->. congruence.
    - unfold h0. rewrite lookup_insert_ne; [done|]. intros <-. congruence. }
  destruct (merge_keys _ _ _ _ _ _) as [h' []|h' e|]; simpl; [| |done].
  - destruct Hloop as [Hframe [props' Hout']]. split_and!; [by apply Hsub|done|].
    by rewrite Hout'.
  - by apply Hsub.
Qed.

(** A result does not depend on the budget that was enough for it. *)
Lemma merge_keys_mono (rec rec' : heap → loc → loc → outcome loc)
    target source output ks :
  (∀ h lt ls, rec h lt ls ≠ Halt OutOfFuel → rec' h lt ls = rec h lt ls) →
  ∀ h, merge_keys rec target source output ks h ≠ Halt OutOfFuel →
       merge_keys rec' target source output ks h =
       merge_keys rec target source output ks h.
Proof.
  intros Hrec. induction ks as [|key ks IH]; intros h Hrun; [done|].
  rewrite !merge_keys_cons in *.
  assert (merge_value rec target source h key ≠ Halt OutOfFuel →
          merge_value rec' target source h key =
          merge_value rec target source h key) as Hval.
  { unfold merge_value.
    destruct (obj_get (deref h source) key) as [| | | | | |ls]; try done.
    destruct (call_hasOwnProperty _ _) as [[]|]; try done.
    destruct (obj_get (deref h target) key) as [| | | | | |lt]; try done.
    intros Hne. rewrite Hrec; [done|]. intros Heq. by rewrite Heq in Hne. }
  rewrite Hval; [|intros Heq; by rewrite Heq in Hrun].
  destruct (merge_value rec target source h key) as [h1 x|h1 e|r]; [|done..].
  destruct (store h1 output key x) as [h2 []|h2 e|r]; [|done..].
  by apply IH.
Qed.

Lemma deepMerge_fuel_mono fuel : ∀ (h : heap) t s fuel',
  deepMerge fuel h t s ≠ Halt OutOfFuel → (fuel ≤ fuel')%nat →
  deepMerge fuel' h t s = deepMerge fuel h t s.
Proof.
  induction fuel as [|fuel IH]; intros h t s fuel' Hrun Hle; [done|].
  destruct fuel' as [|fuel']; [lia|].
  rewrite !deepMerge_unfold in *. simpl in *.
  rewrite (merge_keys_mono (deepMerge fuel) (deepMerge fuel')).
  - done.
  - intros h1 lt ls Hne. apply IH; [done|lia].
  - intros Heq. by rewrite Heq in Hrun.
Qed.

(** Termination: with a budget above the rank of the source, in a heap
    that extends a closed heap [hb] without cycles where the two arguments
    live.  A TypeError needs a shadowed [hasOwnProperty], and a change of
    prototype an own [__proto__]. *)
Section deepMerge_total.
Variable hb : heap.
Variable rank : loc → nat.
Hypothesis Hacyclic : acyclic hb rank = true.
Hypothesis Hclosed : closed hb = true.

Lemma merge_keys_total fuel target source output ot os :
  (∀ (h : heap) t s, hb ⊆ h → is_Some (hb !! t) → is_Some (hb !! s) →
     (rank s < fuel)%nat → total_on hb (deepMerge fuel h t s)) →
  hb !! target = Some ot → hb !! source = Some os → hb !! output = None →
  (rank source ≤ fuel)%nat →
  ∀ ks (h : heap) props,
    (∀ k, k ∈ ks → k ∈ keys os) →
    hb ⊆ h → h !! output = Some (Obj Plain props) →
    match merge_keys (deepMerge fuel) target source output ks h with
    | Ret _ _ => True
    | Throw _ _ | Halt OutOfModel => unshadowed hb = false
    | Halt OutOfFuel => False
    end.
Proof.
  intros IH Ht Hs Hout Hrank.
  induction ks as [|key ks IHks]; intros h props Hks Hsub Hho; [done|].
  rewrite merge_keys_cons.
  assert (match merge_value (deepMerge fuel) target source h key with
          | Ret h1 _ => h ⊆ h1
          | Throw _ _ | Halt OutOfModel => unshadowed hb = false
          | Halt OutOfFuel => False
          end) as Hval.
  { unfold merge_value.
    rewrite (deref_Some h source os), (deref_Some h target ot)
      by by eapply lookup_weaken.
    destruct (obj_get os key) as [| | | | | |ls] eqn:Hsv; try done.
    unfold call_hasOwnProperty.
    destruct (oprops ot !! "hasOwnProperty") eqn:Hshadow.
    { destruct (unshadowed hb) eqn:Hu; [|done].
      destruct (unshadowed_spec _ _ _ Hu Ht) as [Hnone _]. congruence. }
    destruct (hasOwnProperty ot key); [|done].
    destruct (obj_get ot key) as [| | | | | |lt] eqn:Htv; try done.
    apply obj_get_ref in Hsv, Htv.
    pose proof (deepMerge_preserves fuel h lt ls) as Hpres.
    assert (total_on hb (deepMerge fuel h lt ls)) as Htot.
    { apply IH; [done| | |].
      - exact (closed_spec _ _ _ _ _ Hclosed Ht Htv).
      - exact (closed_spec _ _ _ _ _ Hclosed Hs Hsv).
      - pose proof (acyclic_spec _ _ _ _ _ _ Hacyclic Hs Hsv). lia. }
    destruct (deepMerge fuel h lt ls) as [? ?|? ?|[]]; simpl in *;
      [by destruct Hpres|done..]. }
  destruct (merge_value _ _ _ _ _) as [h1 x|h1 e|[]]; [|done..].
  assert (h1 !! output = Some (Obj Plain props)) as Hho1
    by by eapply lookup_weaken.
  assert (∀ k, k ∈ ks → k ∈ keys os) as Hks' by (intros k Hk; apply Hks; by right).
  destruct (store_plain_cases h1 output props key x Hho1)
    as [->|[-> [->| ->]]].
  - apply (IHks _ (<[key := x]> props)); [done| |].
    + apply insert_subseteq_r; [done|]. by transitivity h.
    + by rewrite lookup_insert_eq.
  - apply (IHks _ props); [done| |done]. by transitivity h.
  - destruct (unshadowed hb) eqn:Hu; [|done].
    destruct (unshadowed_spec _ _ _ Hu Hs) as [_ Hnone].
    assert ("__proto__" ∈ keys os) as Hin by (apply Hks; by left).
    apply elem_of_keys in Hin as [? Hin]. congruence.
Qed.

Lemma deepMerge_total fuel : ∀ (h : heap) t s,
  hb ⊆ h → is_Some (hb !! t) → is_Some (hb !! s) → (rank s < fuel)%nat →
  total_on hb (deepMerge fuel h t s).
Proof.
  induction fuel as [|fuel IH]; intros h t s Hsub [ot Ht] [os Hs] Hrank; [lia|].
  rewrite deepMerge_unfold. simpl.
  set (output := fresh (dom h)).
  assert (h !! output = None) as Hout by apply not_elem_of_dom, is_fresh.
  assert (hb !! output = None) as Houtb by by eapply lookup_weaken_None.
  pose proof (merge_keys_total fuel t s output ot os IH Ht Hs Houtb
                ltac:(lia) (keys (deref h s))
                (<[output := Obj Plain (oprops (deref h t))]> h)
                (oprops (deref h t))) as Hloop.
  rewrite lookup_insert_eq in Hloop.
  rewrite (deref_Some h s os) in Hloop by by eapply lookup_weaken.
  specialize (Hloop ltac:(done) ltac:(by apply insert_subseteq_r) eq_refl).
  rewrite (deref_Some h s os) by by eapply lookup_weaken.
  by destruct (merge_keys _ _ _ _ _ _) as [? ?|? ?|[]].
Qed.
End deepMerge_total.

(** What the loop has stored in the output object when it returns. *)
Section merge_keys_content.
Variable rec : heap → loc → loc → outcome loc.
Hypothesis rec_preserves : ∀ h lt ls, preserves h (rec h lt ls).
Variables target source output : loc.
Variable hb : heap.
Variables ot os : object.
Hypothesis Ht : hb !! target = Some ot.
Hypothesis Hs : hb !! source = Some os.
Hypothesis Hout : hb !! output = None.

Lemma merge_value_content (h h1 : heap) key x props :
  hb ⊆ h → h !! output = Some (Obj Plain props) →
  merge_value rec target source h key = Ret h1 x →
  h ⊆ h1 ∧
  match obj_get os key, obj_get ot key with
  | VRef ls, VRef lt =>
      ∃ r' o', h !! r' = None ∧ rec h lt ls = Ret h1 r' ∧
               h1 !! r' = Some o' ∧ okind o' = Plain ∧ r' ≠ output ∧
               x = VRef r'
  | sv, _ => x = sv
  end.
Proof.
  intros Hsub Hho Hval.
  pose proof (merge_value_frame rec rec_preserves target source h key) as Hfr.
  rewrite Hval in Hfr. split; [done|].
  unfold merge_value in Hval.
  rewrite (deref_Some h source os), (deref_Some h target ot) in Hval
    by by eapply lookup_weaken.
  destruct (obj_get os key) as [| | | | | |ls] eqn:Hsv;
    try by (injection Hval as _ <-).
  unfold call_hasOwnProperty in Hval.
  destruct (oprops ot !! "hasOwnProperty"); [done|].
  destruct (obj_get ot key) as [| | | | | |lt] eqn:Htv;
    try by (destruct (hasOwnProperty ot key); injection Hval as _ <-).
  assert (hasOwnProperty ot key = true) as Hown.
  { unfold hasOwnProperty, owns. apply obj_get_ref in Htv. rewrite Htv.
    by rewrite bool_decide_eq_true_2. }
  rewrite Hown in Hval.
  pose proof (rec_preserves h lt ls) as Hpres.
  destruct (rec h lt ls) as [h2 r'|h2 e|] eqn:Hrec; [|done..].
  injection Hval as -> <-. destruct Hpres as (_ & Hfresh & Hmap).
  apply is_mapping_inv in Hmap as (l & o' & [= <-] & Hr' & Hk).
  exists r', o'. split_and!; try done. intros ->. congruence.
Qed.

Lemma merge_keys_content ks : ∀ (h h' : heap) props,
  NoDup ks → "__proto__" ∉ ks →
  hb ⊆ h → h !! output = Some (Obj Plain props) →
  merge_keys rec target source output ks h = Ret h' tt →
  ∃ props', h' !! output = Some (Obj Plain props') ∧
    (∀ key, key ∉ ks → props' !! key = props !! key) ∧
    (∀ key, key ∈ ks → merged_entry rec hb h' ot os key (props' !! key)).
Proof.
  induction ks as [|key0 ks IH]; intros h h' props Hnd Hproto Hsub Hho Hrun.
  - injection Hrun as <-. exists props. split_and!; [done..|].
    by intros key ?%elem_of_nil.
  - apply NoDup_cons in Hnd as [Hnotin Hnd].
    apply not_elem_of_cons in Hproto as [Hkey0 Hproto].
    rewrite merge_keys_cons in Hrun.
    destruct (merge_value rec target source h key0) as [h1 x|h1 e|] eqn:Hval;
      [|done..].
    destruct (merge_value_content _ _ _ _ _ Hsub Hho Hval) as [Hsub1 Hx].
    assert (h1 !! output = Some (Obj Plain props)) as Hho1
      by by eapply lookup_weaken.
    rewrite (store_plain _ _ _ _ _ Hho1) in Hrun by done.
    set (h2 := <[output := Obj Plain (<[key0 := x]> props)]> h1) in *.
    assert (h2 !! output = Some (Obj Plain (<[key0 := x]> props))) as Hho2
      by apply lookup_insert_eq.
    destruct (IH h2 h' (<[key0 := x]> props) Hnd Hproto)
      as (props' & Hho' & Hold & Hnew);
      [apply insert_subseteq_r; [done|by transitivity h]|done..|].
    pose proof (merge_keys_frame rec rec_preserves target source output
                  ks h2 _ Hho2) as Hframe.
    rewrite Hrun in Hframe. destruct Hframe as [Hframe _].
    exists props'. split_and!; [done| |].
    + intros key [Hne Hks]%not_elem_of_cons.
      by rewrite Hold, lookup_insert_ne.
    + intros key [->|Hks]%elem_of_cons; [|by apply Hnew].
      rewrite Hold, lookup_insert_eq by done. unfold merged_entry.
      destruct (obj_get os key0) as [| | | | | |ls];
        try by (simpl in *; subst).
      destruct (obj_get ot key0) as [| | | | | |lt];
        try by (simpl in *; subst).
      destruct Hx as (r' & o' & Hfresh & Hrec & Hr' & Hk & Hne & ->).
      exists h, h1, r', o'. split_and!; try done.
      apply Hframe; [done|]. unfold h2. by rewrite lookup_insert_ne.
Qed.
End merge_keys_content.

(** The entries of the object [deepMerge] returns, for a source that does
    not own [__proto__]. *)
Lemma deepMerge_content fuel (h h' : heap) target source r ot os :
  h !! target = Some ot → h !! source = Some os →
  oprops os !! "__proto__" = None →
  deepMerge (S fuel) h target source = Ret h' r →
  ∃ props', h' !! r = Some (Obj Plain props') ∧
    (∀ key, key ∉ keys os → props' !! key = oprops ot !! key) ∧
    (∀ key, key ∈ keys os →
       merged_entry (deepMerge fuel) h h' ot os key (props' !! key)).
Proof.
  intros Ht Hs Hproto. rewrite deepMerge_unfold. simpl.
  rewrite (deref_Some _ _ _ Ht), (deref_Some _ _ _ Hs).
  set (output := fresh (dom h)).
  assert (h !! output = None) as Hout by apply not_elem_of_dom, is_fresh.
  destruct (merge_keys _ _ _ _ _ _) as [h1 []|h1 e|] eqn:Hrun; [|done..].
  intros [= -> <-].
  eapply (merge_keys_content (deepMerge fuel) (deepMerge_preserves fuel)
            target source output h ot os Ht Hs Hout) in Hrun;
    [done|apply keys_NoDup| |by apply insert_subseteq_r|apply lookup_insert_eq].
  intros [? Hin]%elem_of_keys. congruence.
Qed.

(** C4: in a closed heap without cycles, with a budget above the rank of
    the source, [deepMerge] ends; every object allocated before the call is
    unchanged after it, also when the call throws; and the location
    returned is new and holds a mapping.  The call throws, or changes the
    prototype of the new object, which the model does not follow, only in a
    heap where some object owns [hasOwnProperty] or [__proto__]. *)
Theorem deepMerge_does_not_mutate
    (h : heap) (rank : loc → nat) (fuel : nat) (t s : loc) :
  acyclic h rank = true → closed h = true →
  is_Some (h !! t) → is_Some (h !! s) → (rank s < fuel)%nat →
  match deepMerge fuel h t s with
  | Ret h' r => h ⊆ h' ∧ h !! r = None ∧ is_mapping h' (VRef r) = true
  | Throw h' _ => h ⊆ h' ∧ unshadowed h = false
  | Halt OutOfModel => unshadowed h = false
  | Halt OutOfFuel => False
  end.
Proof.
  intros Hacy Hclosed Ht Hs Hrank.
  pose proof (deepMerge_preserves fuel h t s) as Hpres.
  pose proof (deepMerge_total h rank Hacy Hclosed fuel h t s
                ltac:(done) Ht Hs Hrank) as Htot.
  by destruct (deepMerge fuel h t s) as [? ?|? ?|[]].
Qed.

Lemma deepMerge_does_not_mutate_witness :
  match deepMerge 10 heap_arrays 1 3 with
  | Ret h' r =>
      heap_arrays ⊆ h' ∧ heap_arrays !! r = None ∧ is_mapping h' (VRef r) = true
  | Throw h' _ => heap_arrays ⊆ h' ∧ unshadowed heap_arrays = false
  | Halt OutOfModel => unshadowed heap_arrays = false
  | Halt OutOfFuel => False
  end.
Proof.
  apply (deepMerge_does_not_mutate heap_arrays rank10);
    [reflexivity | reflexivity | by eexists | by eexists |
     unfold rank10; simpl; lia].
Defined.

(** C1, as stated, fails: merging [{ a: [1, 2] }] with [{ a: [3] }], the
    entry "a" of the result is not the array of the source but a new plain
    object that merges the two arrays key by key. *)
Lemma deepMerge_merges_arrays_by_key :
  is_array (deref heap_arrays 2) = true ∧
  is_array (deref heap_arrays 4) = true ∧
  obj_get (deref heap_arrays 1) "a" = VRef 2%positive ∧
  obj_get (deref heap_arrays 3) "a" = VRef 4%positive ∧
  ∃ h' r l, deepMerge 10 heap_arrays 1 3 = Ret h' r ∧
            obj_get (deref h' r) "a" = VRef l ∧ l ≠ 4%positive ∧
            deref h' l = Obj Plain {[ "0" := VNum 3; "1" := VNum 2 ]}.
Proof.
  split_and!; [reflexivity..|].
  eexists _, _, _. split_and!; [vm_compute; reflexivity|reflexivity|done|].
  by vm_compute.
Qed.

(** C1, amended: in a closed heap without cycles where no object owns
    [hasOwnProperty] or [__proto__], with a budget above the rank of the
    source, [deepMerge] returns a new object; under a key of the source,
    when the source and the target both hold an object (a mapping or an
    array), it holds a new plain mapping, the recursive merge of the two;
    in every other case it holds the value of the source. *)
Theorem deepMerge_entry_of_source
    (h : heap) (rank : loc → nat) (fuel : nat) (t s : loc)
    (ot os : object) (key : string) :
  acyclic h rank = true → closed h = true → unshadowed h = true →
  h !! t = Some ot → h !! s = Some os → (rank s < fuel)%nat →
  key ∈ keys os →
  ∃ h' r out, deepMerge fuel h t s = Ret h' r ∧ h' !! r = Some out ∧
    match obj_get os key, obj_get ot key with
    | VRef ls, VRef lt =>
        ∃ h1 h2 r' o', h ⊆ h1 ∧ h1 !! r' = None ∧
                       deepMerge (pred fuel) h1 lt ls = Ret h2 r' ∧
                       h2 !! r' = Some o' ∧ okind o' = Plain ∧
                       h' !! r' = Some o' ∧ obj_get out key = VRef r'
    | sv, _ => obj_get out key = sv
    end.
Proof.
  intros Hacy Hclosed Hun Ht Hs Hrank Hkey.
  pose proof (deepMerge_total h rank Hacy Hclosed fuel h t s
                ltac:(done) ltac:(by eexists) ltac:(by eexists) Hrank) as Htot.
  destruct (deepMerge fuel h t s) as [h' r|h' e|[]] eqn:Hrun; simpl in Htot;
    [|congruence|done|congruence].
  destruct fuel as [|fuel]; [lia|].
  destruct (unshadowed_spec _ _ _ Hun Hs) as [_ Hproto].
  destruct (deepMerge_content _ _ _ _ _ _ _ _ Ht Hs Hproto Hrun)
    as (props' & Hr & _ & Hentry).
  exists h', r, (Obj Plain props'). split_and!; [done..|].
  specialize (Hentry key Hkey). unfold merged_entry in Hentry. simpl pred.
  assert (∀ x, props' !! key = Some x → obj_get (Obj Plain props') key = x)
    as Hget by (intros x Hx; unfold obj_get; simpl; by rewrite Hx).
  destruct (obj_get os key) as [| | | | | |ls]; try by apply Hget.
  destruct (obj_get ot key) as [| | | | | |lt]; try by apply Hget.
  destruct Hentry as (h1 & h2 & r' & o' & ? & ? & ? & ? & ? & ? & ?).
  exists h1, h2, r', o'. split_and!; try done. by apply Hget.
Qed.

Lemma deepMerge_entry_of_source_witness :
  ∃ h' r out, deepMerge 10 heap_arrays 1 3 = Ret h' r ∧ h' !! r = Some out ∧
    match obj_get (Obj Plain {[ "a" := VRef 4%positive ]}) "a",
          obj_get (Obj Plain {[ "a" := VRef 2%positive ]}) "a" with
    | VRef ls, VRef lt =>
        ∃ h1 h2 r' o', heap_arrays ⊆ h1 ∧ h1 !! r' = None ∧
                       deepMerge (pred 10) h1 lt ls = Ret h2 r' ∧
                       h2 !! r' = Some o' ∧ okind o' = Plain ∧
                       h' !! r' = Some o' ∧ obj_get out "a" = VRef r'
    | sv, _ => obj_get out "a" = sv
    end.
Proof.
  apply (deepMerge_entry_of_source heap_arrays rank10 10 1 3
           (Obj Plain {[ "a" := VRef 2%positive ]})
           (Obj Plain {[ "a" := VRef 4%positive ]}) "a");
    [reflexivity | reflexivity | reflexivity | reflexivity | reflexivity |
     unfold rank10; simpl; lia | by vm_compute; left].
Defined.

(** *** The empty mapping and deepMerge *)

Lemma no_NaN_spec o k v : no_NaN o = true → oprops o !! k = Some v → v ≠ VNaN.
Proof.
  unfold no_NaN. rewrite forallb_forall. intros Hall Hk.
  assert (In (k, v) (map_to_list (oprops o))) as Hin
    by by apply list_elem_of_In, elem_of_map_to_list.
  apply Hall in Hin. simpl in Hin.
  by apply negb_true_iff, bool_decide_eq_false in Hin.
Qed.

(** An empty source: the loop has nothing to visit. *)
Lemma deepMerge_empty_source fuel (h : heap) m e :
  h !! e = Some empty_object →
  deepMerge (S fuel) h m e =
  Ret (<[fresh (dom h) := Obj Plain (oprops (deref h m))]> h) (fresh (dom h)).
Proof.
  intros He. rewrite deepMerge_unfold. simpl.
  rewrite (deref_Some _ _ _ He). unfold keys. simpl.
  by rewrite map_to_list_empty.
Qed.

(** An empty target owns no key: the loop never calls [deepMerge]. *)
Lemma merge_keys_empty_target rec e m output ks : ∀ (h : heap) props,
  "__proto__" ∉ ks → e ≠ output →
  h !! e = Some empty_object → h !! output = Some (Obj Plain props) →
  ∃ h', merge_keys rec e m output ks h = Ret h' tt.
Proof.
  induction ks as [|key ks IH]; intros h props Hproto Hne He Hout;
    [by eexists|].
  rewrite merge_keys_cons.
  apply not_elem_of_cons in Hproto as [Hkey Hproto].
  assert (merge_value rec e m h key = Ret h (obj_get (deref h m) key)) as ->.
  { unfold merge_value. rewrite (deref_Some _ _ _ He).
    by destruct (obj_get (deref h m) key). }
  rewrite (store_plain _ _ _ _ _ Hout) by done.
  apply (IH _ (<[key := obj_get (deref h m) key]> props)); [done..| |].
  - by rewrite lookup_insert_ne.
  - by rewrite lookup_insert_eq.
Qed.

(** Two distinct objects with the same properties, none of them [NaN],
    are deeply equal: the values under each key are identical. *)
Lemma deepEqual_same_props fuel (h : heap) r m props om :
  r ≠ m → h !! r = Some (Obj Plain props) → h !! m = Some om →
  okind om = Plain → oprops om = props → no_NaN om = true →
  deepEqual (S (S fuel)) h (VRef r) (VRef m) = Some true.
Proof.
  intros Hne Hr Hm Hk Hprops Hnan. rewrite deepEqual_unfold.
  assert (strict_eq (VRef r) (VRef m) = false) as ->.
  { simpl. apply bool_decide_eq_false. congruence. }
  rewrite (deref_Some _ _ _ Hr), (deref_Some _ _ _ Hm).
  assert (keys (Obj Plain props) = keys om) as Hkeys
    by (unfold keys; simpl; by rewrite Hprops).
  rewrite Hkeys, Nat.eqb_refl. simpl.
  apply equal_keys_true. intros k Hk'. split; [done|].
  apply elem_of_keys in Hk' as [v Hv].
  rewrite (obj_get_plain om), Hv by done. unfold obj_get. simpl.
  rewrite <- Hprops, Hv. simpl.
  by rewrite (strict_eq_refl v (no_NaN_spec _ _ _ Hnan Hv)).
Qed.

(** C7, as stated, fails: merging [{ a: NaN }] with [{}], on either side,
    gives an object that [deepEqual] tells apart from [{ a: NaN }]. *)
Lemma deepMerge_empty_not_identity_with_NaN :
  (∃ h' r, deepMerge 5 heap_nan 1 2 = Ret h' r ∧
           deepEqual 5 h' (VRef r) (VRef 1%positive) = Some false) ∧
  (∃ h' r, deepMerge 5 heap_nan 2 1 = Ret h' r ∧
           deepEqual 5 h' (VRef r) (VRef 1%positive) = Some false).
Proof.
  split; eexists _, _; (split; [vm_compute; reflexivity | by vm_compute]).
Qed.

(** C7, amended: for a mapping [m] none of whose own values is [NaN] and
    that does not own [__proto__], and an empty mapping [e],
    [deepMerge(m, e)] and [deepMerge(e, m)] return an object that
    [deepEqual] finds equal to [m]. *)
Theorem deepMerge_empty_identity
    (h : heap) (m e : loc) (om : object) (f g : nat) :
  h !! m = Some om → okind om = Plain → no_NaN om = true →
  oprops om !! "__proto__" = None →
  h !! e = Some empty_object →
  (∃ h' r, deepMerge (S f) h m e = Ret h' r ∧
           deepEqual (S (S g)) h' (VRef r) (VRef m) = Some true) ∧
  (∃ h' r, deepMerge (S f) h e m = Ret h' r ∧
           deepEqual (S (S g)) h' (VRef r) (VRef m) = Some true).
Proof.
  intros Hm Hk Hnan Hproto He.
  assert (h !! fresh (dom h) = None) as Hout by apply not_elem_of_dom, is_fresh.
  split.
  - rewrite (deepMerge_empty_source f h m e He), (deref_Some _ _ _ Hm).
    eexists _, _. split; [done|].
    apply (deepEqual_same_props g _ _ _ (oprops om) om); try done.
    + intros Heq. congruence.
    + by rewrite lookup_insert_eq.
    + rewrite lookup_insert_ne; [done|]. intros Heq. congruence.
  - assert (∃ h' r, deepMerge (S f) h e m = Ret h' r) as (h' & r & Hrun).
    { rewrite deepMerge_unfold. simpl.
      destruct (merge_keys_empty_target (deepMerge f) e m (fresh (dom h))
                  (keys (deref h m))
                  (<[fresh (dom h) := Obj Plain (oprops (deref h e))]> h)
                  (oprops (deref h e)))
        as [h1 ->]; [| | |apply lookup_insert_eq|by eauto].
      - rewrite (deref_Some _ _ _ Hm). intros [? Hin]%elem_of_keys. congruence.
      - intros ->. congruence.
      - rewrite lookup_insert_ne; [done|]. intros <-. congruence. }
    pose proof (deepMerge_preserves (S f) h e m) as Hpres.
    rewrite Hrun in Hpres. destruct Hpres as (Hsub & Hfresh & _).
    destruct (deepMerge_content _ _ _ _ _ _ _ _ He Hm Hproto Hrun)
      as (props' & Hr & Hold & Hnew).
    exists h', r. split; [done|].
    apply (deepEqual_same_props g _ _ _ props' om); try done.
    + intros ->. congruence.
    + by eapply lookup_weaken.
    + apply map_eq. intros key. symmetry.
      destruct (decide (key ∈ keys om)) as [Hin|Hin].
      * specialize (Hnew key Hin). unfold merged_entry in Hnew.
        apply elem_of_keys in Hin as [v Hv].
        rewrite (obj_get_plain om) in Hnew by done.
        rewrite Hv in *. simpl in Hnew.
        by destruct v.
      * rewrite (Hold key Hin). simpl. rewrite lookup_empty. symmetry.
        apply eq_None_not_Some. intros Hsome. apply Hin.
        by apply elem_of_keys.
Qed.

Lemma deepMerge_empty_identity_witness :
  (∃ h' r, deepMerge 1 heap_nested 1 3 = Ret h' r ∧
           deepEqual 2 h' (VRef r) (VRef 1%positive) = Some true) ∧
  (∃ h' r, deepMerge 1 heap_nested 3 1 = Ret h' r ∧
           deepEqual 2 h' (VRef r) (VRef 1%positive) = Some true).
Proof.
  apply (deepMerge_empty_identity heap_nested 1 3
           (Obj Plain {[ "a" := VRef 2%positive ]}) 0 0); reflexivity.
Defined.

End ObjectFacts.

(** ** validatePassword *)

Module PasswordFacts.
Import Regex Password.

(** The regular expression literals of the source, parsed. *)
Example parse_lowercase : parse "[a-z]" = Parsed re_lowercase.
Proof. reflexivity. Qed.

Example parse_uppercase : parse "[A-Z]" = Parsed re_uppercase.
Proof. reflexivity. Qed.

Example parse_numeric : parse "[0-9]" = Parsed re_numeric.
Proof. reflexivity. Qed.

Example parse_not_latin :
  parse "[^a-zA-Z0-9!@#$%^&*()\-\_+=<>?/\[\] ]" = Parsed re_not_latin.
Proof. reflexivity. Qed.

(** The pattern built from the default symbols: the class ends at the
    bracket inside the symbols, [)-_] is a range, and the bracket appended
    by the code is a literal that must follow. *)
Lemma parse_default_symbols :
  parse ("[" ++ "!@#$%^&*()-_+=<>?/[]" ++ "]") =
  Parsed [Set_ (Class false
            [Single "!"; Single "@"; Single "#"; Single "$"; Single "%";
             Single "^"; Single "&"; Single "*"; Single "("; Range ")" "_";
             Single "+"; Single "="; Single "<"; Single ">"; Single "?";
             Single "/"; Single "["]);
          Lit "]"].
Proof. reflexivity. Qed.

Example validatePassword_with_bracket :
  validatePassword "Passw0rd!]" empty_config = Returns true ∧
  validatePassword "Passw0rd]]" empty_config = Returns true ∧
  validatePassword "Passw0rd]!" empty_config = Returns false ∧
  validatePassword "]Passw0rd" empty_config = Returns false.
Proof. by vm_compute. Qed.

(** A pattern that ends with a literal matches only strings that contain
    that character. *)
Lemma test_then_literal a c s :
  test [a; Lit c] s = true → contains c s = true.
Proof.
  induction s as [|d s IH]; [done|].
  change (test [a; Lit c] (String d s))
    with (matches_here [a; Lit c] (String d s) || test [a; Lit c] s).
  intros [Hhere|Hlater]%orb_true_iff.
  - simpl in Hhere. apply andb_true_iff in Hhere as [_ Hhere].
    destruct s as [|d' s']; [done|].
    apply andb_true_iff in Hhere as [Hc _].
    simpl. rewrite Hc. by rewrite orb_true_r.
  - simpl. rewrite (IH Hlater). by rewrite orb_true_r.
Qed.

(** C9: with the default configuration, a password without a closing
    bracket is rejected. *)
Theorem validatePassword_default_needs_bracket (password : string) :
  contains "]" password = false →
  validatePassword password empty_config = Returns false.
Proof.
  intros Hno. unfold validatePassword, empty_config. cbn [default minLength
    maxLength requireLowercase requireUppercase requireNumeric requireSymbol
    symbols onlyLatin].
  rewrite parse_default_symbols.
  destruct (_ || _); [done|].
  destruct (true && negb (test re_lowercase password)); [done|].
  destruct (true && negb (test re_uppercase password)); [done|].
  destruct (true && negb (test re_numeric password)); [done|].
  destruct (test _ password) eqn:Htest; [|done].
  apply test_then_literal in Htest. congruence.
Qed.

Lemma validatePassword_default_needs_bracket_witness :
  validatePassword "Passw0rd!" empty_config = Returns false.
Proof.
  apply validatePassword_default_needs_bracket. reflexivity.
Defined.

End PasswordFacts.

(** ** generateUUID *)

Module UuidFacts.
Import Regex Uuid.

(** [Math.random() * 16 | 0] is one of 0, ..., 15. *)
Lemma truncate_sixteenths (q : Q) :
  (0 <= q)%Q → (q < 1)%Q → (0 ≤ truncate (q * 16)%Q ≤ 15)%Z.
Proof.
  intros H0 H1. unfold truncate.
  assert (0 <= q * 16)%Q as Hpos by (apply Qmult_le_0_compat; [done|easy]).
  assert (q * 16 < inject_Z 16)%Q as Hlt.
  { change (inject_Z 16) with (1 * 16)%Q.
    apply Qmult_lt_compat_r; [reflexivity|done]. }
  apply Qle_bool_iff in Hpos as Hb. rewrite Hb. split.
  - change 0%Z with (Qfloor 0). by apply Qfloor_resp_le.
  - assert (inject_Z (Qfloor (q * 16)) < inject_Z 16)%Q as Hfl.
    { eapply Qle_lt_trans; [apply Qfloor_le|done]. }
    rewrite <- Zlt_Qlt in Hfl. lia.
Qed.

Lemma sixteen_cases (r : Z) :
  (0 ≤ r ≤ 15)%Z →
  (r = 0 ∨ r = 1 ∨ r = 2 ∨ r = 3 ∨ r = 4 ∨ r = 5 ∨ r = 6 ∨ r = 7 ∨
   r = 8 ∨ r = 9 ∨ r = 10 ∨ r = 11 ∨ r = 12 ∨ r = 13 ∨ r = 14 ∨ r = 15 ∨
   False)%Z.
Proof. lia. Qed.

Lemma replacement_x (q : Q) :
  (0 <= q)%Q → (q < 1)%Q →
  ∃ d, is_hex d = true ∧ replacement "x" q = String d "".
Proof.
  intros H0 H1. unfold replacement.
  pose proof (sixteen_cases _ (truncate_sixteenths q H0 H1)) as Hr.
  set (r := truncate (q * 16)%Q) in *. clearbody r.
  repeat (destruct Hr as [->|Hr];
          [eexists; split; [|vm_compute; reflexivity]; reflexivity|]).
  done.
Qed.

Lemma replacement_y (q : Q) :
  (0 <= q)%Q → (q < 1)%Q →
  ∃ d, existsb (Ascii.eqb d) (list_ascii_of_string "89ab") = true ∧
       replacement "y" q = String d "".
Proof.
  intros H0 H1. unfold replacement.
  pose proof (sixteen_cases _ (truncate_sixteenths q H0 H1)) as Hr.
  set (r := truncate (q * 16)%Q) in *. clearbody r.
  repeat (destruct Hr as [->|Hr];
          [eexists; split; [|vm_compute; reflexivity]; reflexivity|]).
  done.
Qed.

(** The replacement keeps the shape of the template, whatever it is. *)
Lemma replace_xy_conforms (random : nat → Q) :
  unit_interval random →
  ∀ template n, conforms template (replace_xy random n template).1.
Proof.
  intros Hunit. induction template as [|c template IH]; intros n; [done|].
  simpl. unfold class_matches. simpl.
  destruct (Ascii.eqb c "x") eqn:Hx; simpl.
  - apply Ascii.eqb_eq in Hx as ->. destruct (Hunit n) as [H0 H1].
    destruct (replacement_x _ H0 H1) as (d & Hd & ->).
    specialize (IH (S n)). destruct (replace_xy random (S n) template).
    simpl. by rewrite Hd.
  - destruct (Ascii.eqb c "y") eqn:Hy; simpl.
    + apply Ascii.eqb_eq in Hy as ->. destruct (Hunit n) as [H0 H1].
      destruct (replacement_y _ H0 H1) as (d & Hd & ->).
      specialize (IH (S n)). destruct (replace_xy random (S n) template).
      simpl in *. by rewrite Hd.
    + specialize (IH n). destruct (replace_xy random n template).
      simpl in *. by split.
Qed.

Example generateUUID_example :
  generateUUID (λ n, Qmake (Z.of_nat (n mod 16)) 16) 0 =
  ("01234567-89ab-4cde-b012-3456789abcde", 31%nat).
Proof. by vm_compute. Qed.

(** C8: whatever the outcomes of [Math.random()], each in the interval
    [0, 1), the string [generateUUID] returns has 36 characters, hyphens
    at positions 8, 13, 18 and 23, a 4 at position 14, one of 8, 9, a, b
    at position 19, and hexadecimal digits everywhere else. *)
Theorem generateUUID_is_v4 (random : nat → Q) (n : nat) :
  unit_interval random → is_uuid_v4 (generateUUID random n).1 = true.
Proof.
  intros Hunit. unfold generateUUID.
  pose proof (replace_xy_conforms random Hunit
                "xxxxxxxx-xxxx-4xxx-yxxx-xxxxxxxxxxxx" n) as H.
  destruct (replace_xy random n _) as [s n']. simpl fst in *.
  do 36 (destruct s as [|? s]; [done|]; destruct H as [? H]).
  destruct s; [|done]. simpl in *. subst. unfold is_uuid_v4. simpl.
  repeat match goal with
         | Hd : _ = true |- _ => rewrite Hd; clear Hd
         end.
  done.
Qed.

Lemma generateUUID_is_v4_witness :
  is_uuid_v4 (generateUUID (λ n, Qmake (Z.of_nat (n mod 16)) 16) 0).1 = true.
Proof.
  apply generateUUID_is_v4. intros n.
  pose proof (Nat.mod_upper_bound n 16 ltac:(done)) as Hlt.
  split.
  - unfold Qle. simpl. lia.
  - unfold Qlt. simpl. lia.
Defined.

End UuidFacts.

(** ** toSentenceCase *)

Module StringCaseFacts.
Import StringCase.

Lemma split_words_single s : ∀ in_run,
  has_separator s = false → split_words in_run s = [s].
Proof.
  induction s as [|c s IH]; intros in_run; [done|].
  unfold has_separator. simpl.
  intros [Hc Hs]%orb_false_iff. rewrite Hc.
  by rewrite (IH false Hs).
Qed.

(** The examples in the comments of the source. *)
Example splitIntoWords_example :
  splitIntoWords "hello-world_here" = ["hello"; "world"; "here"].
Proof. reflexivity. Qed.

Example toSentenceCase_examples :
  toSentenceCase (map_string ascii_upper) (map_string ascii_lower) "hello world"
    = Some "Hello world" ∧
  toSentenceCase (map_string ascii_upper) (map_string ascii_lower) "HELLO_WORLD"
    = Some "Hello world".
Proof. by vm_compute. Qed.

(** C10: on a single word, [toSentenceCase] returns the first character
    in upper case, then the rest in lower case, then one space; the lower
    case of the empty string is the empty string. *)
Theorem toSentenceCase_single_word
    (toUpperCase toLowerCase : string → string) (c : ascii) (rest : string) :
  toLowerCase "" = "" →
  has_separator (String c rest) = false →
  toSentenceCase toUpperCase toLowerCase (String c rest) =
  Some (toUpperCase (String c "") ++ toLowerCase rest ++ " ").
Proof.
  intros Hlower Hword. unfold toSentenceCase, splitIntoWords.
  rewrite (split_words_single _ false Hword). simpl.
  by rewrite Hlower.
Qed.

Lemma toSentenceCase_single_word_witness :
  toSentenceCase (map_string ascii_upper) (map_string ascii_lower) "hELLO" =
  Some (map_string ascii_upper "h" ++ map_string ascii_lower "ELLO" ++ " ").
Proof.
  apply toSentenceCase_single_word; reflexivity.
Defined.

End StringCaseFacts.

(** ** getNestedValue and setNestedValue: more properties *)

Module NestedFacts.
Import JS ObjectUtils Shape Frames Samples ObjectFacts.

(** *** Paths *)

Lemma split_on_app sep p q :
  split_on sep (p ++ String sep q) = (split_on sep p ++ split_on sep q)%list.
Proof.
  induction p as [|c p IH]; simpl.
  - by rewrite Ascii.eqb_refl.
  - destruct (Ascii.eqb c sep); [by rewrite IH|].
    rewrite IH. destruct (split_on sep p) as [|w ws] eqn:E; [|done].
    by destruct (split_on_nonempty sep p).
Qed.

Lemma get_path_app (h : heap) obj p q :
  get_path h obj (p ++ q)%list = foldl (get_step h) (get_path h obj p) q.
Proof. apply foldl_app. Qed.

Lemma is_member_app k l1 l2 :
  is_member k (l1 ++ l2) = is_member k l1 || is_member k l2.
Proof. unfold is_member. apply existsb_app. Qed.

Lemma not_member_proto k :
  is_member k object_prototype_members = false → String.eqb k "__proto__" = false.
Proof.
  intros Hk. destruct (String.eqb_spec k "__proto__") as [->|]; [|done].
  by vm_compute in Hk.
Qed.

(** *** Plain data *)

Lemma own_names_cons part rest :
  own_names (part :: rest) =
  negb (is_member part (object_prototype_members ++ number_prototype_members)) &&
  own_names rest.
Proof. done. Qed.

Lemma plain_data_spec (h : heap) : plain_data h = true → plain_objects h.
Proof.
  intros Hall l o Hl. unfold plain_data in Hall. rewrite forallb_forall in Hall.
  assert (In (l, o) (map_to_list h)) as Hin
    by (by apply list_elem_of_In, elem_of_map_to_list).
  apply Hall in Hin. simpl in Hin. apply andb_true_iff in Hin as [Hk Hv].
  split.
  - unfold is_array in Hk. by destruct (okind o).
  - intros k x Hx. rewrite forallb_forall in Hv.
    apply (Hv (k, x)). by apply list_elem_of_In, elem_of_map_to_list.
Qed.

Lemma plain_objects_deref (h : heap) l :
  plain_objects h →
  okind (deref h l) = Plain ∧
  ∀ k x, oprops (deref h l) !! k = Some x → no_text x = true.
Proof.
  intros Hp. unfold deref. destruct (h !! l) as [o|] eqn:Hl; simpl.
  - by apply (Hp l).
  - split; [done|]. intros k x. by rewrite lookup_empty.
Qed.

Lemma plain_objects_alloc (h : heap) g :
  plain_objects h → plain_objects (<[g := empty_object]> h).
Proof.
  intros Hp l o. destruct (decide (l = g)) as [->|Hne].
  - rewrite lookup_insert_eq. intros [= <-]. split; [done|].
    intros k x. simpl. by rewrite lookup_empty.
  - rewrite lookup_insert_ne by done. apply Hp.
Qed.

Lemma plain_objects_store (h : heap) l k x :
  plain_objects h → no_text x = true →
  plain_objects (<[l := obj_set (deref h l) k x]> h).
Proof.
  intros Hp Hx l' o. destruct (decide (l' = l)) as [->|Hne].
  - rewrite lookup_insert_eq. intros [= <-].
    destruct (plain_objects_deref h l Hp) as [Hk Hv].
    split; [by apply obj_set_kind_plain|].
    intros k' x'. simpl. destruct (decide (k' = k)) as [->|Hkk].
    + rewrite lookup_insert_eq. by intros [= <-].
    + rewrite lookup_insert_ne by done. apply Hv.
  - rewrite lookup_insert_ne by done. apply Hp.
Qed.

(** Reading a key that is no inherited name from a value of plain data
    other than [undefined] and [null] gives a value of plain data. *)
Lemma get_prop_plain_data (h : heap) a part :
  plain_objects h → no_text a = true → a ≠ VUndef → a ≠ VNull →
  is_member part (object_prototype_members ++ number_prototype_members) = false →
  ∃ x, get_prop h a part = Val x ∧ no_text x = true.
Proof.
  intros Hp Ha Hu Hn Hpart. pose proof Hpart as Hpart'.
  rewrite is_member_app in Hpart'. apply orb_false_iff in Hpart' as [Hobj _].
  destruct a as [| |b|z| |s|l]; try done; unfold get_prop.
  - rewrite Hobj. by exists VUndef.
  - rewrite Hpart. by exists VUndef.
  - rewrite Hpart. by exists VUndef.
  - destruct (plain_objects_deref h l Hp) as [Hk Hv].
    rewrite obj_read_plain by done.
    destruct (oprops (deref h l) !! part) as [x|] eqn:Hx.
    + exists x. split; [done|]. by eapply Hv.
    + rewrite Hobj. by exists VUndef.
Qed.

Lemma get_path_plain_data (h : heap) parts : ∀ a,
  plain_objects h → no_text a = true → own_names parts = true →
  ∃ v, get_path h a parts = Val v.
Proof.
  unfold get_path.
  induction parts as [|part parts IH]; intros a Hp Ha Hparts; [by exists a|].
  rewrite own_names_cons in Hparts.
  apply andb_true_iff in Hparts as [Hpart%negb_true_iff Hparts].
  simpl. destruct (truthy a) eqn:Ht.
  - destruct (get_prop_plain_data h a part) as (x & -> & Hx);
      [done|done|by intros ->|by intros ->|done|].
    by apply IH.
  - by apply IH.
Qed.

(** On plain data (plain objects that hold numbers, booleans, [null],
    [undefined] and other such objects, and no strings), with a path none
    of whose segments is the name of a member of [Object.prototype] or
    [Number.prototype], getNestedValue returns a value and does not throw:
    the guard [acc &&] stops the walk at [undefined] and [null], the only
    values whose properties cannot be read, and a key that is missing reads
    as [undefined]. *)
Theorem getNestedValue_returns_on_plain_data
    (h : heap) (obj : value) (path : string) :
  plain_data h = true → no_text obj = true →
  own_names (split_on "." path) = true →
  ∃ v, getNestedValue h obj path = Val v.
Proof.
  intros Hp%plain_data_spec Hobj Hpath. by apply get_path_plain_data.
Qed.

Lemma getNestedValue_returns_on_plain_data_witness :
  ∃ v, getNestedValue heap_docs (VRef 6%positive) "a.x.c" = Val v.
Proof.
  apply (getNestedValue_returns_on_plain_data heap_docs (VRef 6%positive) "a.x.c");
    reflexivity.
Defined.

Lemma foldl_get_step_Val (h : heap) v parts :
  foldl (get_step h) (Val v) parts = get_path h v parts.
Proof. done. Qed.

(** Looking up [p.q] is looking up [q] in what the lookup of [p] gives. *)
Theorem getNestedValue_compose (h : heap) (obj v : value) (p q : string) :
  getNestedValue h obj p = Val v →
  getNestedValue h obj (p ++ "." ++ q) = getNestedValue h v q.
Proof.
  unfold getNestedValue. intros Hp.
  change (p ++ "." ++ q) with (p ++ String "." q).
  by rewrite split_on_app, get_path_app, Hp.
Qed.

Lemma getNestedValue_compose_witness :
  getNestedValue heap_docs (VRef 6%positive) "a.b" = Val (VRef 8%positive) ∧
  getNestedValue heap_docs (VRef 6%positive) ("a.b" ++ "." ++ "c") =
  getNestedValue heap_docs (VRef 8%positive) "c".
Proof.
  split; [reflexivity|].
  apply (getNestedValue_compose heap_docs (VRef 6%positive) (VRef 8%positive) "a.b" "c").
  reflexivity.
Defined.

(** When the lookup of a path gives a falsy value, the lookup of every
    longer path gives that same value, not [undefined]. *)
Theorem getNestedValue_falsy_prefix (h : heap) (obj v : value) (p q : string) :
  getNestedValue h obj p = Val v → truthy v = false →
  getNestedValue h obj (p ++ "." ++ q) = Val v.
Proof.
  unfold getNestedValue. intros Hp Hv.
  change (p ++ "." ++ q) with (p ++ String "." q).
  rewrite split_on_app, get_path_app, Hp.
  by apply get_path_falsy.
Qed.

Lemma getNestedValue_falsy_prefix_witness :
  getNestedValue heap_zero (VRef 1%positive) ("a" ++ "." ++ "b.c") = Val (VNum 0).
Proof.
  apply (getNestedValue_falsy_prefix heap_zero (VRef 1%positive) (VNum 0) "a" "b.c");
    reflexivity.
Defined.

(** *** What setNestedValue leaves in place *)

Lemma keeps_keys_refl (h : heap) : keeps_keys h h.
Proof. intros l o Hl. by exists o. Qed.

Lemma keeps_keys_trans (h1 h2 h3 : heap) :
  keeps_keys h1 h2 → keeps_keys h2 h3 → keeps_keys h1 h3.
Proof.
  intros H12 H23 l o Hl.
  destruct (H12 l o Hl) as (o2 & Hl2 & Hk2).
  destruct (H23 l o2 Hl2) as (o3 & Hl3 & Hk3).
  exists o3. split; [done|]. intros k Hk. by apply Hk3, Hk2.
Qed.

Lemma keeps_keys_subseteq (h h' : heap) : h ⊆ h' → keeps_keys h h'.
Proof. intros Hsub l o Hl. exists o. split; [by eapply lookup_weaken|done]. Qed.

Lemma alloc_subseteq (h h' : heap) o l : alloc h o = (h', l) → h ⊆ h'.
Proof. intros [Hl ->]%alloc_spec. by apply insert_subseteq. Qed.

Lemma store_keeps_keys (h h' : heap) l k x :
  store h l k x = Ret h' tt → keeps_keys h h'.
Proof.
  unfold store. destruct (obj_write (deref h l) k x) as [o'| |] eqn:Hw; [| |done].
  - intros [= <-]. unfold obj_write in Hw.
    destruct (_ && _); [done|].
    destruct (_ && _); [by destruct x|]. injection Hw as <-.
    intros l0 o Hl0. destruct (decide (l0 = l)) as [->|Hne].
    + exists (obj_set (deref h l) k x). rewrite lookup_insert_eq. split; [done|].
      rewrite (deref_Some _ _ _ Hl0). simpl. intros k0 Hk0.
      destruct (decide (k0 = k)) as [->|Hk]; [by rewrite lookup_insert_eq|].
      by rewrite lookup_insert_ne.
    + exists o. by rewrite lookup_insert_ne.
  - intros [= <-]. apply keeps_keys_refl.
Qed.

Lemma set_prop_keeps_keys (h : heap) c k x :
  match set_prop h c k x with
  | Ret h' _ | Throw h' _ => keeps_keys h h'
  | Halt _ => True
  end.
Proof.
  destruct c as [| |b|z| |s|l]; simpl; try apply keeps_keys_refl;
    try (destruct (String.eqb k "__proto__"); apply keeps_keys_refl).
  destruct (store h l k x) as [h' []|h' e|] eqn:Hst; [| |done].
  - by eapply store_keeps_keys.
  - unfold store in Hst. by destruct (obj_write _ _ _).
Qed.

Lemma set_path_keeps_keys parts : ∀ (h : heap) current v,
  match set_path h current parts v with
  | Ret h' _ | Throw h' _ => keeps_keys h h'
  | Halt _ => True
  end.
Proof.
  induction parts as [|part rest IH]; intros h current v;
    [apply keeps_keys_refl|].
  destruct rest as [|part' rest]; [apply set_prop_keeps_keys|].
  rewrite set_path_unfold.
  destruct (get_prop h current part) as [old| |e|]; [|done|apply keeps_keys_refl|done].
  assert (∃ h1 x, (if truthy old then (h, old)
                   else let '(h1, l) := alloc h empty_object in (h1, VRef l))
                  = (h1, x) ∧ keeps_keys h h1) as (h1 & x & -> & H01).
  { destruct (truthy old); [eexists _, _; split; [done|apply keeps_keys_refl]|].
    destruct (alloc h empty_object) as [h1 l] eqn:Ha. eexists _, _. split; [done|].
    by eapply keeps_keys_subseteq, alloc_subseteq. }
  pose proof (set_prop_keeps_keys h1 current part x) as H12.
  destruct (set_prop h1 current part x) as [h2 []|h2 e|]; [| |done].
  - destruct (get_prop h2 current part) as [next| |e|]; [|done| |done].
    + specialize (IH h2 next v).
      destruct (set_path h2 next (part' :: rest) v) as [h3 []|h3 e|]; [| |done];
        eapply keeps_keys_trans; [|done| |done]; by eapply keeps_keys_trans.
    + by eapply keeps_keys_trans.
  - by eapply keeps_keys_trans.
Qed.

(** On plain data, a path of names that are not inherited is set or the
    call throws: the run does not leave the model. *)
Lemma set_path_plain_data parts : ∀ (h : heap) current v,
  plain_objects h → no_text current = true → own_names parts = true →
  (∃ h', set_path h current parts v = Ret h' tt) ∨
  (∃ h', set_path h current parts v = Throw h' TypeError).
Proof.
  induction parts as [|part rest IH]; intros h current v Hp Hc Hparts;
    [left; by exists h|].
  rewrite own_names_cons in Hparts.
  apply andb_true_iff in Hparts as [Hpart%negb_true_iff Hrest].
  pose proof Hpart as Hpart'.
  rewrite is_member_app in Hpart'. apply orb_false_iff in Hpart' as [Hobj _].
  pose proof (not_member_proto part Hobj) as Hproto.
  assert (∀ (h0 : heap) l x, plain_objects h0 →
            set_prop h0 (VRef l) part x
            = Ret (<[l := obj_set (deref h0 l) part x]> h0) tt) as Hstore.
  { intros h0 l x Hp0. simpl. unfold store, obj_write.
    destruct (plain_objects_deref h0 l Hp0) as [Hk _].
    unfold is_array. by rewrite Hk, Hproto. }
  assert (∀ (h0 : heap) x, current ≠ VUndef → current ≠ VNull →
            (∀ l, current ≠ VRef l) →
            set_prop h0 current part x = Throw h0 TypeError) as Hprim.
  { intros h0 x Hu Hn Hr. destruct current as [| |b|z| |s|l]; try done; simpl;
      try by rewrite Hproto. by destruct (Hr l). }
  destruct rest as [|part' rest].
  - destruct current as [| |b|z| |s|l]; try done;
      try (right; exists h; by apply Hprim);
      try (right; by exists h).
    left. eexists. by apply Hstore.
  - rewrite set_path_unfold.
    destruct (decide (current = VUndef)) as [->|Hu]; [right; by exists h|].
    destruct (decide (current = VNull)) as [->|Hn]; [right; by exists h|].
    destruct (get_prop_plain_data h current part) as (old & -> & Hold); [done..|].
    destruct current as [| |b|z| |s|l]; try done;
      try (destruct (truthy old); [|destruct (alloc h empty_object) as [h1 g]];
           right; eexists; by rewrite Hprim).
    destruct (truthy old).
    + rewrite Hstore by done. simpl get_prop.
      erewrite deref_Some by apply lookup_insert_eq.
      rewrite obj_read_set_plain by apply plain_objects_deref, Hp.
      apply IH; [by apply plain_objects_store|done..].
    + unfold alloc. set (g := fresh (dom h)).
      pose proof (plain_objects_alloc h g Hp) as Hp1.
      rewrite Hstore by done. simpl get_prop.
      erewrite deref_Some by apply lookup_insert_eq.
      rewrite obj_read_set_plain by apply plain_objects_deref, Hp1.
      apply IH; [by apply plain_objects_store|done..].
Qed.

(** On plain data (plain objects that hold numbers, booleans, [null],
    [undefined] and other such objects: no arrays, no strings), with a path
    none of whose segments is the name of a member of [Object.prototype] or
    [Number.prototype], setNestedValue returns or throws a TypeError, and
    either way removes nothing: every object allocated before the call is
    still there and owns every key it owned. *)
Theorem setNestedValue_keeps_keys (h : heap) (obj : value) (path : string) (v : value) :
  plain_data h = true → no_text obj = true →
  own_names (split_on "." path) = true →
  (∃ h', setNestedValue h obj path v = Ret h' tt ∧ keeps_keys h h') ∨
  (∃ h', setNestedValue h obj path v = Throw h' TypeError ∧ keeps_keys h h').
Proof.
  intros Hp%plain_data_spec Hobj Hpath. unfold setNestedValue.
  pose proof (set_path_keeps_keys (split_on "." path) h obj v) as Hkeeps.
  destruct (set_path_plain_data (split_on "." path) h obj v Hp Hobj Hpath)
    as [[h' Hset]|[h' Hset]]; rewrite Hset in *; [left|right]; by exists h'.
Qed.

Lemma setNestedValue_keeps_keys_witness :
  (∃ h', setNestedValue heap_docs (VRef 6%positive) "a.x.c" (VNum 2)
           = Ret h' tt ∧ keeps_keys heap_docs h') ∨
  (∃ h', setNestedValue heap_docs (VRef 6%positive) "a.x.c" (VNum 2)
           = Throw h' TypeError ∧ keeps_keys heap_docs h').
Proof.
  apply (setNestedValue_keeps_keys heap_docs (VRef 6%positive) "a.x.c" (VNum 2));
    reflexivity.
Defined.

(** On [undefined] and [null], setNestedValue throws a TypeError and
    changes nothing, whatever the path. *)
Theorem setNestedValue_nullish_root (h : heap) (obj : value) (path : string) (v : value) :
  obj = VUndef ∨ obj = VNull →
  setNestedValue h obj path v = Throw h TypeError.
Proof.
  intros Hobj. unfold setNestedValue.
  pose proof (split_on_nonempty "." path) as Hne.
  destruct (split_on "." path) as [|part [|part' rest]]; [done| |];
    by destruct Hobj as [-> | ->].
Qed.

Lemma setNestedValue_nullish_root_witness :
  setNestedValue heap_zero VNull "a.b" (VNum 1) = Throw heap_zero TypeError.
Proof. apply setNestedValue_nullish_root. by right. Defined.

(** A truthy number or boolean on the way is kept, and the walk goes
    through it: the assignment to a property of the primitive, in strict
    mode, is a TypeError.  No object allocated before the call has
    changed. *)
Theorem setNestedValue_through_primitive
    (h : heap) (l : loc) (o : object) (x v : value) (path a k : string)
    (rest : list string) :
  h !! l = Some o → okind o = Plain → oprops o !! a = Some x →
  is_number_or_boolean x = true → truthy x = true →
  split_on "." path = a :: k :: rest →
  is_member k (object_prototype_members ++ number_prototype_members) = false →
  ∃ h', setNestedValue h (VRef l) path v = Throw h' TypeError ∧ h ⊆ h'.
Proof.
  intros Hl Hkind Ha Hprim Htruthy Hsplit Hk.
  unfold setNestedValue. rewrite Hsplit.
  assert (obj_read o a = Val x) as Hread by (by rewrite obj_read_plain, Ha).
  rewrite (set_path_step_truthy h l o a (k :: rest) v x) by done.
  pose proof Hk as Hk'.
  rewrite is_member_app in Hk'. apply orb_false_iff in Hk' as [Hk1 Hk2].
  pose proof (not_member_proto k Hk1) as Hproto.
  destruct rest as [|k' rest].
  - exists h. split; [|done]. simpl.
    destruct x as [| |b|z| |s|l']; try done; simpl; by rewrite Hproto.
  - rewrite set_path_unfold.
    assert (get_prop h x k = Val VUndef) as ->.
    { destruct x as [| |b|z| |s|l']; try done; unfold get_prop.
      - by rewrite Hk1.
      - by rewrite Hk. }
    simpl truthy. cbv iota.
    destruct (alloc h empty_object) as [h1 g] eqn:Halloc.
    exists h1. split; [|by eapply alloc_subseteq].
    destruct x as [| |b|z| |s|l']; try done; simpl; by rewrite Hproto.
Qed.

Lemma setNestedValue_through_primitive_witness :
  ∃ h', setNestedValue heap_five (VRef 1%positive) "a.b.c" (VNum 1)
          = Throw h' TypeError ∧ heap_five ⊆ h'.
Proof.
  apply (setNestedValue_through_primitive heap_five 1
           (Obj Plain {[ "a" := VNum 5 ]}) (VNum 5) (VNum 1) "a.b.c" "a" "b" ["c"]);
    reflexivity.
Defined.

End NestedFacts.

(** ** deepEqual and deepMerge: more properties *)

Module EqualMergeFacts.
Import JS ObjectUtils Shape Samples MoreSamples ObjectFacts.

(** *** deepEqual as a relation *)

Lemma strict_eq_true a b : strict_eq a b = true → a = b.
Proof. destruct a; simpl; try done; by intros ?%bool_decide_eq_true. Qed.

Lemma deepEqual_true_refs fuel (h : heap) a b :
  deepEqual (S fuel) h a b = Some true → strict_eq a b = false →
  ∃ l1 l2, a = VRef l1 ∧ b = VRef l2 ∧
    length (keys (deref h l1)) = length (keys (deref h l2)) ∧
    ∀ k, k ∈ keys (deref h l1) →
         k ∈ keys (deref h l2) ∧
         deepEqual fuel h (obj_get (deref h l1) k) (obj_get (deref h l2) k) = Some true.
Proof.
  rewrite deepEqual_unfold. intros Heq Hs. rewrite Hs in Heq.
  destruct a as [| | | | | |l1]; try done.
  destruct b as [| | | | | |l2]; try done.
  destruct (length (keys (deref h l1)) =? length (keys (deref h l2)))%nat eqn:Hlen;
    [|done].
  simpl in Heq. exists l1, l2. split_and!; [done..|by apply Nat.eqb_eq|].
  by apply equal_keys_true.
Qed.

(** When deepEqual answers [true] for two different objects, they own the
    same keys, and under each key they hold values that deepEqual finds
    equal. *)
Theorem deepEqual_true_same_keys
    (h : heap) (fuel : nat) (l1 l2 : loc) (k : string) :
  deepEqual (S fuel) h (VRef l1) (VRef l2) = Some true → l1 ≠ l2 →
  (k ∈ keys (deref h l1) ↔ k ∈ keys (deref h l2)) ∧
  (k ∈ keys (deref h l1) →
   deepEqual fuel h (obj_get (deref h l1) k) (obj_get (deref h l2) k) = Some true).
Proof.
  intros Heq Hne.
  destruct (deepEqual_true_refs fuel h _ _ Heq)
    as (l1' & l2' & [= <-] & [= <-] & Hlen & Hkeys).
  { simpl. apply bool_decide_eq_false. congruence. }
  split; [split|]; intros Hk.
  - by apply Hkeys.
  - by apply (NoDup_subset_length (keys (deref h l1)) (keys (deref h l2)));
      [apply keys_NoDup| |intros x Hx; apply Hkeys|].
  - by apply Hkeys.
Qed.

Lemma deepEqual_true_same_keys_witness :
  ("b" ∈ keys (deref heap_docs 9) ↔ "b" ∈ keys (deref heap_docs 11)) ∧
  ("b" ∈ keys (deref heap_docs 9) →
   deepEqual 4 heap_docs (obj_get (deref heap_docs 9) "b")
             (obj_get (deref heap_docs 11) "b") = Some true).
Proof.
  apply (deepEqual_true_same_keys heap_docs 4 9 11 "b"); [reflexivity|done].
Defined.

(** deepEqual is transitive: in a heap without cycles, with a budget above
    the depth of the first value. *)
Theorem deepEqual_transitive
    (h : heap) (rank : loc → nat) (fuel : nat) (a b c : value) :
  acyclic h rank = true → (depth rank a < fuel)%nat →
  deepEqual fuel h a b = Some true → deepEqual fuel h b c = Some true →
  deepEqual fuel h a c = Some true.
Proof.
  intros Hacy. revert a b c.
  induction fuel as [|fuel IH]; intros a b c Hdepth Hab Hbc; [done|].
  destruct (strict_eq a b) eqn:Eab; [by apply strict_eq_true in Eab as ->|].
  destruct (strict_eq b c) eqn:Ebc; [by apply strict_eq_true in Ebc as <-|].
  destruct (deepEqual_true_refs fuel h _ _ Hab Eab)
    as (l1 & l2 & -> & -> & Hlen12 & Hk12).
  destruct (deepEqual_true_refs fuel h _ _ Hbc Ebc)
    as (l2' & l3 & [= <-] & -> & Hlen23 & Hk23).
  rewrite deepEqual_unfold.
  destruct (strict_eq (VRef l1) (VRef l3)); [done|].
  rewrite Hlen12, Hlen23, Nat.eqb_refl. simpl.
  apply equal_keys_true. intros k Hk.
  destruct (Hk12 k Hk) as [Hk2 He12].
  destruct (Hk23 k Hk2) as [Hk3 He23].
  split; [done|].
  apply (IH _ (obj_get (deref h l2) k)); [|done..].
  apply (depth_child h rank l1 k fuel Hacy Hk). simpl in Hdepth. lia.
Qed.

Lemma deepEqual_transitive_witness :
  deepEqual 11 heap_triple (VRef 1%positive) (VRef 5%positive) = Some true.
Proof.
  apply (deepEqual_transitive heap_triple rank10 11
           (VRef 1%positive) (VRef 3%positive) (VRef 5%positive));
    [reflexivity | vm_compute; lia | reflexivity | reflexivity].
Defined.

(** deepEqual does not look at what kind of object it compares: an array
    and a plain object with the same own properties, none of them [NaN],
    are equal for it. *)
Theorem deepEqual_array_and_mapping
    (h : heap) (fuel : nat) (a m : loc) (n : N) (props : gmap string value) :
  h !! a = Some (Obj (Array n) props) → h !! m = Some (Obj Plain props) →
  props !! "length" = None → no_NaN (Obj Plain props) = true →
  deepEqual (S (S fuel)) h (VRef a) (VRef m) = Some true.
Proof.
  intros Ha Hm Hlen Hnan. rewrite deepEqual_unfold.
  destruct (strict_eq (VRef a) (VRef m)); [done|].
  rewrite (deref_Some _ _ _ Ha), (deref_Some _ _ _ Hm).
  change (keys (Obj (Array n) props)) with (keys (Obj Plain props)).
  rewrite Nat.eqb_refl. simpl.
  apply equal_keys_true. intros k Hk. split; [done|].
  apply elem_of_keys in Hk as [v Hv]. simpl in Hv.
  unfold obj_get. simpl.
  destruct (String.eqb_spec k "length") as [->|_]; [congruence|].
  rewrite Hv. simpl.
  by rewrite (strict_eq_refl v (no_NaN_spec (Obj Plain props) _ _ Hnan Hv)).
Qed.

Lemma deepEqual_array_and_mapping_witness :
  deepEqual 2 {[ 1%positive := Obj (Array 1) {[ "0" := VNum 3 ]};
                 2%positive := Obj Plain {[ "0" := VNum 3 ]} ]}
            (VRef 1%positive) (VRef 2%positive) = Some true.
Proof.
  apply (deepEqual_array_and_mapping _ 0 1 2 1 {[ "0" := VNum 3 ]}); reflexivity.
Defined.

(** *** The object deepMerge returns *)

(** The result of deepMerge owns the keys of the target and those of the
    source, and no other; under a key that the source does not own it
    holds the very value of the target: a nested object there is shared
    with the target, not copied. *)
Theorem deepMerge_keys_union
    (h : heap) (rank : loc → nat) (fuel : nat) (t s : loc) (ot os : object) :
  acyclic h rank = true → closed h = true → unshadowed h = true →
  h !! t = Some ot → h !! s = Some os → (rank s < fuel)%nat →
  ∃ h' r out, deepMerge fuel h t s = Ret h' r ∧ h' !! r = Some out ∧
    (∀ k, is_Some (oprops out !! k) ↔
          is_Some (oprops ot !! k) ∨ is_Some (oprops os !! k)) ∧
    (∀ k, oprops os !! k = None → oprops out !! k = oprops ot !! k).
Proof.
  intros Hacy Hclosed Hun Ht Hs Hrank.
  pose proof (deepMerge_total h rank Hacy Hclosed fuel h t s
                ltac:(done) ltac:(by eexists) ltac:(by eexists) Hrank) as Htot.
  destruct (deepMerge fuel h t s) as [h' r|h' e|[]] eqn:Hrun; simpl in Htot;
    [|congruence|done|congruence].
  destruct fuel as [|fuel]; [lia|].
  destruct (unshadowed_spec _ _ _ Hun Hs) as [_ Hproto].
  destruct (deepMerge_content _ _ _ _ _ _ _ _ Ht Hs Hproto Hrun)
    as (props' & Hr & Hold & Hnew).
  exists h', r, (Obj Plain props'). split_and!; [done..| |]; simpl.
  - intros k. destruct (decide (k ∈ keys os)) as [Hin|Hin].
    + split; [intros _; right; by apply elem_of_keys|intros _].
      specialize (Hnew k Hin). unfold merged_entry in Hnew.
      destruct (obj_get os k) as [| | | | | |ls]; try by rewrite Hnew.
      destruct (obj_get ot k) as [| | | | | |lt]; try by rewrite Hnew.
      destruct Hnew as (? & ? & ? & ? & ? & ? & ? & ? & ? & ? & ->). done.
    + rewrite (Hold k Hin). split; [by left|].
      intros [Hk|Hk]; [done|]. by apply elem_of_keys in Hk.
  - intros k Hk. apply Hold. intros [? Hin]%elem_of_keys. congruence.
Qed.

Lemma deepMerge_keys_union_witness :
  ∃ h' r out, deepMerge 20 heap_docs 9 3 = Ret h' r ∧ h' !! r = Some out ∧
    (∀ k, is_Some (oprops out !! k) ↔
          is_Some (oprops (Obj Plain {[ "a" := VNum 1; "b" := VRef 10%positive ]}) !! k) ∨
          is_Some (oprops (Obj Plain {[ "a" := VRef 4%positive ]}) !! k)) ∧
    (∀ k, oprops (Obj Plain {[ "a" := VRef 4%positive ]}) !! k = None →
          oprops out !! k =
          oprops (Obj Plain {[ "a" := VNum 1; "b" := VRef 10%positive ]}) !! k).
Proof.
  apply (deepMerge_keys_union heap_docs (λ l, 20 - Pos.to_nat l)%nat 20 9 3);
    [reflexivity | reflexivity | reflexivity | reflexivity | reflexivity |
     simpl; lia].
Defined.

(** *** A target that shadows hasOwnProperty *)

Lemma merge_keys_shadowed rec t s output ot os ks : ∀ (h : heap) props,
  "__proto__" ∉ ks → t ≠ output → s ≠ output →
  h !! t = Some ot → h !! s = Some os →
  h !! output = Some (Obj Plain props) →
  is_Some (oprops ot !! "hasOwnProperty") →
  (∃ k ls, k ∈ ks ∧ obj_get os k = VRef ls) →
  ∃ h', merge_keys rec t s output ks h = Throw h' TypeError ∧
        ∀ l o, l ≠ output → h !! l = Some o → h' !! l = Some o.
Proof.
  induction ks as [|key ks IH];
    intros h props Hproto Hto Hso Ht Hs Hout [x Hx] (k & ls & Hk & Hget).
  { by apply elem_of_nil in Hk. }
  rewrite merge_keys_cons. unfold merge_value.
  rewrite (deref_Some _ _ _ Ht), (deref_Some _ _ _ Hs).
  apply not_elem_of_cons in Hproto as [Hkey Hproto].
  assert (call_hasOwnProperty ot key = None) as Hcall
    by (unfold call_hasOwnProperty; by rewrite Hx).
  destruct (obj_get os key) as [| |b|z| |str|l'] eqn:Hsv;
    [| | | | | |rewrite Hcall; by exists h];
    (rewrite (store_plain _ _ _ _ _ Hout) by done;
     apply elem_of_cons in Hk as [->|Hk]; [congruence|];
     destruct (IH (<[output := Obj Plain (<[key := obj_get os key]> props)]> h)
                  (<[key := obj_get os key]> props))
       as (h' & Hrun & Hframe);
     [done|done|done|by rewrite lookup_insert_ne|by rewrite lookup_insert_ne|
      by rewrite Hsv, lookup_insert_eq|by exists x|by exists k, ls|];
     rewrite Hsv in Hrun; exists h'; split; [done|];
     intros l o Hl Hlo; apply Hframe; [done|by rewrite lookup_insert_ne]).
Qed.

(** deepMerge calls [target.hasOwnProperty(key)] on the target itself: when
    the target owns a property of that name and the source holds an object
    under some key, the call ends in a TypeError; the objects allocated
    before it are unchanged. *)
Theorem deepMerge_shadowed_hasOwnProperty
    (h : heap) (fuel : nat) (t s : loc) (ot os : object) (k : string) (ls : loc) :
  h !! t = Some ot → h !! s = Some os →
  is_Some (oprops ot !! "hasOwnProperty") →
  oprops os !! "__proto__" = None →
  k ∈ keys os → obj_get os k = VRef ls →
  ∃ h', deepMerge (S fuel) h t s = Throw h' TypeError ∧ h ⊆ h'.
Proof.
  intros Ht Hs Hshadow Hproto Hk Hget.
  rewrite deepMerge_unfold. simpl.
  rewrite (deref_Some _ _ _ Ht), (deref_Some _ _ _ Hs).
  set (output := fresh (dom h)).
  assert (h !! output = None) as Hout by apply not_elem_of_dom, is_fresh.
  destruct (merge_keys_shadowed (deepMerge fuel) t s output ot os (keys os)
              (<[output := Obj Plain (oprops ot)]> h) (oprops ot))
    as (h' & -> & Hframe).
  - intros [? Hin]%elem_of_keys. congruence.
  - intros ->. congruence.
  - intros ->. congruence.
  - rewrite lookup_insert_ne; [done|]. intros <-. congruence.
  - rewrite lookup_insert_ne; [done|]. intros <-. congruence.
  - apply lookup_insert_eq.
  - done.
  - by exists k, ls.
  - exists h'. split; [done|]. apply map_subseteq_spec. intros l o Hl.
    apply Hframe; [intros ->; congruence|].
    rewrite lookup_insert_ne; [done|]. intros <-. congruence.
Qed.

Lemma deepMerge_shadowed_hasOwnProperty_witness :
  ∃ h', deepMerge 1 {[ 1%positive := Obj Plain {[ "hasOwnProperty" := VNum 1 ]};
                       2%positive := Obj Plain {[ "a" := VRef 3%positive ]};
                       3%positive := Obj Plain ∅ ]} 1 2 = Throw h' TypeError ∧
        ({[ 1%positive := Obj Plain {[ "hasOwnProperty" := VNum 1 ]};
            2%positive := Obj Plain {[ "a" := VRef 3%positive ]};
            3%positive := Obj Plain ∅ ]} : heap) ⊆ h'.
Proof.
  apply (deepMerge_shadowed_hasOwnProperty _ 0 1 2
           (Obj Plain {[ "hasOwnProperty" := VNum 1 ]})
           (Obj Plain {[ "a" := VRef 3%positive ]}) "a" 3);
    [reflexivity | reflexivity | by eexists | reflexivity |
     by vm_compute; left | reflexivity].
Defined.

End EqualMergeFacts.

(** ** mergeObjects *)

Module MergeObjectsFacts.
Import JS ObjectUtils ObjectAssign Shape Frames Samples ObjectFacts.

Lemma assign_keys_cons to from key ks (h : heap) :
  assign_keys to from (key :: ks) h =
  match store h to key (own_get h from key) with
  | Ret h' _ => assign_keys to from ks h'
  | Throw h' e => Throw h' e
  | Halt r => Halt r
  end.
Proof. reflexivity. Qed.

(** The value that [own_get] reads does not depend on the object at
    another location. *)
Lemma own_get_insert (h : heap) to o from key :
  from ≠ VRef to → own_get (<[to := o]> h) from key = own_get h from key.
Proof.
  intros Hne. destruct from as [| | | | | |l]; try done. simpl.
  unfold deref. rewrite lookup_insert_ne; [done|]. intros ->. done.
Qed.

Lemma own_keys_insert (h : heap) to o from :
  from ≠ VRef to → own_keys (<[to := o]> h) from = own_keys h from.
Proof.
  intros Hne. destruct from as [| | | | | |l]; try done. simpl.
  unfold deref. rewrite lookup_insert_ne; [done|]. intros ->. done.
Qed.

(** One source: the keys are stored one by one in the new object. *)
Lemma assign_keys_spec to from ks : ∀ (h : heap) props,
  "__proto__" ∉ ks → from ≠ VRef to →
  h !! to = Some (Obj Plain props) →
  ∃ props', assign_keys to from ks h = Ret (<[to := Obj Plain props']> h) tt ∧
    ∀ k, props' !! k = if decide (k ∈ ks) then Some (own_get h from k)
                       else (props !! k).
Proof.
  induction ks as [|key ks IH]; intros h props Hproto Hne Hto.
  { exists props. split; [by rewrite insert_id|].
    intros k. destruct (decide (k ∈ [])) as [Hin|]; [|done].
    by apply elem_of_nil in Hin. }
  apply not_elem_of_cons in Hproto as [Hkey Hproto].
  rewrite assign_keys_cons, (store_plain _ _ _ _ _ Hto) by done.
  destruct (IH (<[to := Obj Plain (<[key := own_get h from key]> props)]> h)
               (<[key := own_get h from key]> props))
    as (props' & -> & Hprops'); [done|done|apply lookup_insert_eq|].
  exists props'. split; [by rewrite insert_insert_eq|].
  intros k. rewrite Hprops', own_get_insert by done.
  destruct (decide (k ∈ ks)) as [Hin|Hin].
  - rewrite decide_True; [done|]. by apply elem_of_cons; right.
  - destruct (decide (k = key)) as [->|Hk].
    + rewrite lookup_insert_eq, decide_True; [done|]. by apply elem_of_cons; left.
    + rewrite lookup_insert_ne, decide_False; [done| |done].
      intros [?|?]%elem_of_cons; done.
Qed.

(** The property that the sources give to a key: the last source that
    owns the key decides. *)
Lemma assign_sources_spec to sources : ∀ (h : heap) props,
  (∀ v, v ∈ sources → ("__proto__" ∉ own_keys h v) ∧ v ≠ VRef to) →
  h !! to = Some (Obj Plain props) →
  ∃ props', assign_sources to sources h = Ret (<[to := Obj Plain props']> h) tt ∧
    (∀ k, (∀ v, v ∈ sources → k ∉ own_keys h v) → props' !! k = props !! k) ∧
    (∀ k before v after, sources = (before ++ v :: after)%list →
       k ∈ own_keys h v → (∀ w, w ∈ after → k ∉ own_keys h w) →
       props' !! k = Some (own_get h v k)).
Proof.
  induction sources as [|from sources IH]; intros h props Hsrc Hto.
  { exists props. split_and!; [by rewrite insert_id|done|].
    intros k [|??] ?? Heq; discriminate Heq. }
  destruct (Hsrc from) as [Hproto Hne]; [by apply elem_of_cons; left|].
  simpl.
  destruct (assign_keys_spec to from (own_keys h from) h props Hproto Hne Hto)
    as (props1 & -> & Hprops1).
  destruct (IH (<[to := Obj Plain props1]> h) props1)
    as (props' & -> & Hold & Hnew); [|apply lookup_insert_eq|].
  { intros v Hv. destruct (Hsrc v) as [? ?]; [by apply elem_of_cons; right|].
    by rewrite own_keys_insert. }
  exists props'. split_and!; [by rewrite insert_insert_eq| |].
  - intros k Hk. rewrite Hold.
    + rewrite Hprops1, decide_False; [done|]. apply Hk. by apply elem_of_cons; left.
    + intros v Hv. destruct (Hsrc v) as [? ?]; [by apply elem_of_cons; right|].
      rewrite own_keys_insert by done. apply Hk. by apply elem_of_cons; right.
  - intros k before v after Heq Hk Hafter.
    destruct before as [|b before]; simpl in Heq; injection Heq as -> ->.
    + rewrite Hold.
      * by rewrite Hprops1, decide_True.
      * intros w Hw. destruct (Hsrc w) as [? ?]; [by apply elem_of_cons; right|].
        rewrite own_keys_insert by done. by apply Hafter.
    + assert (v ≠ VRef to) as Hv.
      { apply Hsrc, elem_of_cons. right. apply elem_of_app. right.
        by apply elem_of_cons; left. }
      rewrite (Hnew k before v after eq_refl).
      * by rewrite own_get_insert.
      * by rewrite own_keys_insert.
      * intros w Hw. destruct (Hsrc w) as [? ?].
        { apply elem_of_cons. right. apply elem_of_app. right.
          by apply elem_of_cons; right. }
        rewrite own_keys_insert by done. by apply Hafter.
Qed.

Lemma owns_proto_false (h : heap) objects v :
  owns_proto h objects = false → v ∈ objects → "__proto__" ∉ own_keys h v.
Proof.
  unfold owns_proto. intros Hall Hv Hin.
  assert (existsb (λ v, bool_decide ("__proto__" ∈ own_keys h v)) objects = true)
    as Hex; [|congruence].
  apply existsb_exists. exists v. split; [by apply list_elem_of_In|].
  by apply bool_decide_eq_true.
Qed.

Lemma mergeObjects_spec (h : heap) objects :
  owns_proto h objects = false →
  (∀ v, v ∈ objects → v ≠ VRef (fresh (dom h))) →
  ∃ props', mergeObjects h objects
            = Ret (<[fresh (dom h) := Obj Plain props']> h) (fresh (dom h)) ∧
    (∀ k, (∀ v, v ∈ objects → k ∉ own_keys h v) → props' !! k = None) ∧
    (∀ k before v after, objects = (before ++ v :: after)%list →
       k ∈ own_keys h v → (∀ w, w ∈ after → k ∉ own_keys h w) →
       props' !! k = Some (own_get h v k)).
Proof.
  intros Hproto Hfresh. unfold mergeObjects. simpl.
  set (to := fresh (dom h)) in *.
  destruct (assign_sources_spec to objects (<[to := empty_object]> h) ∅)
    as (props' & -> & Hold & Hnew); [|apply lookup_insert_eq|].
  { intros v Hv. split; [|by apply Hfresh].
    rewrite own_keys_insert by by apply Hfresh. by eapply owns_proto_false. }
  exists props'. split_and!; [by rewrite insert_insert_eq| |].
  - intros k Hk. rewrite Hold; [done|]. intros v Hv.
    rewrite own_keys_insert by by apply Hfresh. by apply Hk.
  - intros k before v after Heq Hk Hafter.
    assert (v ≠ VRef to) as Hv.
    { apply Hfresh. rewrite Heq. apply elem_of_app. right. by apply elem_of_cons; left. }
    rewrite (Hnew k before v after Heq).
    + by rewrite own_get_insert.
    + by rewrite own_keys_insert.
    + intros w Hw. rewrite own_keys_insert; [by apply Hafter|].
      apply Hfresh. rewrite Heq. apply elem_of_app. right. by apply elem_of_cons; right.
Qed.

Lemma allocated_not_fresh (h : heap) objects v :
  forallb (allocated h) objects = true → v ∈ objects → v ≠ VRef (fresh (dom h)).
Proof.
  rewrite forallb_forall. intros Hall Hv ->.
  apply list_elem_of_In, Hall in Hv. simpl in Hv.
  apply bool_decide_eq_true in Hv as [o Ho].
  assert (h !! fresh (dom h) = None) by apply not_elem_of_dom, is_fresh.
  congruence.
Qed.

Lemma owned_by_false (h : heap) k objects v :
  owned_by h k objects = false → v ∈ objects → k ∉ own_keys h v.
Proof.
  unfold owned_by. intros Hall Hv Hin.
  assert (existsb (λ v, bool_decide (k ∈ own_keys h v)) objects = true)
    as Hex; [|congruence].
  apply existsb_exists. exists v. split; [by apply list_elem_of_In|].
  by apply bool_decide_eq_true.
Qed.

(** mergeObjects returns a new plain object and changes no other; under
    every key it holds what the last of the objects that own the key
    holds. *)
Theorem mergeObjects_last_wins
    (h : heap) (before after : list value) (v : value) (k : string) :
  forallb (allocated h) (before ++ v :: after) = true →
  owns_proto h (before ++ v :: after) = false →
  k ∈ own_keys h v → owned_by h k after = false →
  ∃ h' r out, mergeObjects h (before ++ v :: after) = Ret h' r ∧
    h ⊆ h' ∧ h !! r = None ∧ h' !! r = Some out ∧ okind out = Plain ∧
    oprops out !! k = Some (own_get h v k).
Proof.
  intros Halloc Hproto Hk Hafter.
  destruct (mergeObjects_spec h (before ++ v :: after) Hproto)
    as (props' & Hrun & _ & Hnew).
  { intros w Hw. by eapply allocated_not_fresh. }
  assert (h !! fresh (dom h) = None) as Hfresh by apply not_elem_of_dom, is_fresh.
  eexists _, _, (Obj Plain props').
  split_and!; [done|by apply insert_subseteq|done|apply lookup_insert_eq|done|].
  apply (Hnew k before v after eq_refl Hk). intros w Hw.
  by eapply owned_by_false.
Qed.

Lemma mergeObjects_last_wins_witness :
  ∃ h' r out, mergeObjects heap_docs ([VRef 9%positive] ++ VRef 3%positive :: [VRef 2%positive])
                = Ret h' r ∧
    heap_docs ⊆ h' ∧ heap_docs !! r = None ∧ h' !! r = Some out ∧ okind out = Plain ∧
    oprops out !! "a" = Some (own_get heap_docs (VRef 3%positive) "a").
Proof.
  apply (mergeObjects_last_wins heap_docs [VRef 9%positive] [VRef 2%positive]
           (VRef 3%positive) "a");
    [reflexivity | reflexivity | by vm_compute; left | reflexivity].
Defined.

(** mergeObjects invents no key: a key that none of the objects owns is
    absent from the result. *)
Theorem mergeObjects_only_given_keys
    (h : heap) (objects : list value) (k : string) :
  forallb (allocated h) objects = true → owns_proto h objects = false →
  owned_by h k objects = false →
  ∃ h' r out, mergeObjects h objects = Ret h' r ∧ h' !! r = Some out ∧
              oprops out !! k = None.
Proof.
  intros Halloc Hproto Hk.
  destruct (mergeObjects_spec h objects Hproto) as (props' & Hrun & Hold & _).
  { intros w Hw. by eapply allocated_not_fresh. }
  eexists _, _, (Obj Plain props').
  split_and!; [done|apply lookup_insert_eq|].
  apply Hold. intros w Hw. by eapply owned_by_false.
Qed.

Lemma mergeObjects_only_given_keys_witness :
  ∃ h' r out, mergeObjects heap_docs [VRef 9%positive; VRef 3%positive] = Ret h' r ∧
              h' !! r = Some out ∧ oprops out !! "c" = None.
Proof.
  apply (mergeObjects_only_given_keys heap_docs [VRef 9%positive; VRef 3%positive] "c");
    reflexivity.
Defined.

(** *** deepMerge on flat objects *)

Lemma no_common_object_spec ot os k ls lt :
  no_common_object ot os = true → oprops os !! k = Some (VRef ls) →
  obj_get ot k ≠ VRef lt.
Proof.
  unfold no_common_object. rewrite forallb_forall. intros Hall Hk Hget.
  assert (In (k, VRef ls) (map_to_list (oprops os))) as Hin
    by by apply list_elem_of_In, elem_of_map_to_list.
  apply Hall in Hin. simpl in Hin. by rewrite Hget in Hin.
Qed.

Lemma merge_keys_flat rec t s output ot os ks : ∀ (h : heap),
  t ≠ output → s ≠ output →
  h !! t = Some ot → h !! s = Some os →
  oprops ot !! "hasOwnProperty" = None → no_common_object ot os = true →
  merge_keys rec t s output ks h = assign_keys output (VRef s) ks h.
Proof.
  induction ks as [|key ks IH]; intros h Hto Hso Ht Hs Hown Hflat; [done|].
  rewrite merge_keys_cons, assign_keys_cons.
  assert (merge_value rec t s h key = Ret h (own_get h (VRef s) key)) as ->.
  { unfold merge_value. simpl.
    rewrite (deref_Some _ _ _ Ht), (deref_Some _ _ _ Hs).
    destruct (obj_get os key) as [| | | | | |ls] eqn:Hsv; try done.
    unfold call_hasOwnProperty. rewrite Hown.
    destruct (hasOwnProperty ot key); [|done].
    destruct (obj_get ot key) as [| | | | | |lt] eqn:Htv; try done.
    by destruct (no_common_object_spec ot os key ls lt Hflat (obj_get_ref _ _ _ Hsv)). }
  unfold store.
  destruct (obj_write (deref h output) key (own_get h (VRef s) key)); [|by apply IH|done].
  apply IH; try done; by rewrite lookup_insert_ne.
Qed.

(** When under no key both objects hold an object, deepMerge has nothing
    to merge recursively, and does what mergeObjects does with the two
    objects: same heap and same new object at the end. *)
Theorem deepMerge_flat_is_mergeObjects
    (h : heap) (fuel : nat) (t s : loc) (ot os : object) :
  h !! t = Some ot → h !! s = Some os → okind ot = Plain →
  oprops ot !! "hasOwnProperty" = None → oprops ot !! "__proto__" = None →
  no_common_object ot os = true →
  deepMerge (S fuel) h t s = mergeObjects h [VRef t; VRef s].
Proof.
  intros Ht Hs Hkind Hown Hproto Hflat.
  rewrite deepMerge_unfold. unfold mergeObjects. simpl.
  set (output := fresh (dom h)).
  assert (h !! output = None) as Hout by apply not_elem_of_dom, is_fresh.
  assert (t ≠ output) as Hto by (intros ->; congruence).
  assert (s ≠ output) as Hso by (intros ->; congruence).
  rewrite (deref_Some _ _ _ Ht), (deref_Some _ _ _ Hs).
  unfold deref at 1. rewrite lookup_insert_ne, Ht by done. simpl.
  destruct (assign_keys_spec output (VRef t) (keys ot)
              (<[output := empty_object]> h) ∅)
    as (props' & -> & Hprops'); [| |apply lookup_insert_eq|].
  { intros [? Hin]%elem_of_keys. congruence. }
  { intros [= ->]. congruence. }
  assert (props' = oprops ot) as ->.
  { apply map_eq. intros k. rewrite Hprops'.
    destruct (decide (k ∈ keys ot)) as [Hin|Hin].
    - simpl. unfold deref. rewrite lookup_insert_ne, Ht by done. simpl.
      apply elem_of_keys in Hin as [x Hx].
      by rewrite obj_get_plain, Hx.
    - rewrite lookup_empty. symmetry. apply eq_None_not_Some.
      intros Hsome. by apply Hin, elem_of_keys. }
  rewrite insert_insert_eq.
  replace (Obj Plain (oprops ot)) with ot by (by destruct ot; simpl in *; subst).
  rewrite (merge_keys_flat (deepMerge fuel) t s output ot os);
    [|done|done|by rewrite lookup_insert_ne|by rewrite lookup_insert_ne|done|done].
  unfold deref. rewrite lookup_insert_ne, Hs by done. simpl.
  by destruct (assign_keys _ _ _ _) as [? []|? ?|?].
Qed.

Lemma deepMerge_flat_is_mergeObjects_witness :
  deepMerge 1 heap_docs 9 2 = mergeObjects heap_docs [VRef 9%positive; VRef 2%positive].
Proof.
  apply (deepMerge_flat_is_mergeObjects heap_docs 0 9 2
           (Obj Plain {[ "a" := VNum 1; "b" := VRef 10%positive ]})
           (Obj Plain {[ "b" := VNum 1 ]})); reflexivity.
Defined.

End MergeObjectsFacts.

(** ** objectToPairs and pairsToObject *)

Module PairsFacts.
Import JS ObjectUtils ObjectAssign ObjectPairs Shape Samples ObjectFacts.

(** *** Index keys *)

Lemma to_uint_not_Nil n : N.to_uint n ≠ Decimal.Nil.
Proof.
  destruct n as [|p]; [done|]. simpl.
  intros Hnil. pose proof (DecimalPos.Unsigned.of_to p) as Hp.
  rewrite Hnil in Hp. done.
Qed.

Lemma uint_of_key_of_index n :
  DecimalString.NilZero.uint_of_string (key_of_index n) = Some (N.to_uint n).
Proof. apply DecimalString.NilZero.usu, to_uint_not_Nil. Qed.

Lemma key_of_index_inj n m : key_of_index n = key_of_index m → n = m.
Proof.
  intros Heq. apply DecimalN.Unsigned.to_uint_inj.
  pose proof (uint_of_key_of_index n) as Hn.
  rewrite Heq, uint_of_key_of_index in Hn. congruence.
Qed.

Lemma key_of_index_not_reduce n : key_of_index n ≠ "reduce".
Proof.
  intros Heq. pose proof (uint_of_key_of_index n) as Hn.
  rewrite Heq in Hn. done.
Qed.

(** *** objectToPairs *)

Lemma push_pairs_cons obj result key ks (h : heap) :
  push_pairs obj result (key :: ks) h =
  if own_has h obj key then
    let '(h1, entry) :=
      alloc h (Obj (Array 2) {[ "0" := VStr key; "1" := own_get h obj key ]}) in
    match push h1 result (VRef entry) with
    | Ret h2 _ => push_pairs obj result ks h2
    | Throw h2 e => Throw h2 e
    | Halt r => Halt r
    end
  else push_pairs obj result ks h.
Proof. reflexivity. Qed.

(** The loop of objectToPairs over the keys [ks] of the object [o] at [l],
    started with [n] pairs in the array [result]. *)
Lemma push_pairs_spec l o result ks : ∀ (h : heap) n P,
  l ≠ result → h !! l = Some o → (∀ k, k ∈ ks → k ∈ keys o) →
  h !! result = Some (Obj (Array n) P) →
  (n + N.of_nat (length ks) < 2 ^ 32)%N →
  ∃ h' P', push_pairs (VRef l) result ks h = Ret h' tt ∧
    (∀ l' o', l' ≠ result → h !! l' = Some o' → h' !! l' = Some o') ∧
    h' !! result = Some (Obj (Array (n + N.of_nat (length ks))) P') ∧
    (∀ k, is_Some (P' !! k) → is_Some (P !! k) ∨ ∃ i, k = key_of_index i) ∧
    (∀ i, (i < n)%N → P' !! key_of_index i = P !! key_of_index i) ∧
    (∀ j k, ks !! j = Some k →
       ∃ p, P' !! key_of_index (n + N.of_nat j) = Some (VRef p) ∧
            h !! p = None ∧
            h' !! p = Some (Obj (Array 2) {[ "0" := VStr k; "1" := obj_get o k ]})).
Proof.
  induction ks as [|key ks IH]; intros h n P Hne Hl Hks Hres Hlen.
  { exists h, P. split_and!; [done|done| |by left|done|done].
    simpl. by rewrite N.add_0_r. }
  rewrite push_pairs_cons. simpl own_has. simpl own_get.
  rewrite (deref_Some _ _ _ Hl).
  assert (hasOwnProperty o key = true) as ->.
  { unfold hasOwnProperty, owns. apply orb_true_iff. left.
    apply bool_decide_eq_true, elem_of_keys, Hks. by left. }
  set (p := fresh (dom h)).
  set (e := Obj (Array 2) {[ "0" := VStr key; "1" := obj_get o key ]}).
  change (alloc h e) with (<[p := e]> h, p). cbv iota beta.
  assert (h !! p = None) as Hp by apply not_elem_of_dom, is_fresh.
  assert (p ≠ result) as Hpr by (intros ->; congruence).
  assert (p ≠ l) as Hpl by (intros ->; congruence).
  unfold push, deref. rewrite lookup_insert_ne, Hres by done. simpl.
  assert ((n <? 2 ^ 32 - 1)%N = true) as ->.
  { apply N.ltb_lt. simpl length in Hlen. lia. }
  set (P1 := <[key_of_index n := VRef p]> P).
  destruct (IH (<[result := Obj (Array (n + 1)) P1]> (<[p := e]> h)) (n + 1)%N P1)
    as (h' & P' & Hrun & Hframe & Hres' & Hdom & Hlow & Hpairs).
  - done.
  - by rewrite !lookup_insert_ne.
  - intros k Hk. apply Hks. by right.
  - apply lookup_insert_eq.
  - simpl length in Hlen. lia.
  - exists h', P'. split_and!.
    + done.
    + intros l' o' Hl' Hlo'. apply Hframe; [done|].
      rewrite lookup_insert_ne by done.
      rewrite lookup_insert_ne; [done|]. intros <-. congruence.
    + rewrite Hres'. simpl length.
      by replace (n + 1 + N.of_nat (length ks))%N
        with (n + N.of_nat (S (length ks)))%N by lia.
    + intros k Hk. destruct (Hdom k Hk) as [HP1|?]; [|by right].
      unfold P1 in HP1. destruct (decide (k = key_of_index n)) as [->|Hkn].
      * right. by eexists.
      * left. by rewrite lookup_insert_ne in HP1.
    + intros i Hi. rewrite Hlow by lia. unfold P1.
      rewrite lookup_insert_ne; [done|]. intros Heq%key_of_index_inj. lia.
    + intros j k Hj. destruct j as [|j]; simpl in Hj.
      * injection Hj as ->. exists p. split_and!; [|done|].
        -- rewrite N.add_0_r, Hlow by lia. apply lookup_insert_eq.
        -- apply Hframe; [done|]. rewrite lookup_insert_ne by done.
           apply lookup_insert_eq.
      * destruct (Hpairs j k Hj) as (q & HPq & Hq & Hhq).
        exists q. split_and!; [|..|done].
        -- rewrite <- HPq. f_equal. f_equal. lia.
        -- destruct (decide (q = result)) as [->|Hqr];
             [by rewrite lookup_insert_eq in Hq|].
           rewrite lookup_insert_ne in Hq by done.
           destruct (decide (q = p)) as [->|Hqp];
             [by rewrite lookup_insert_eq in Hq|].
           by rewrite lookup_insert_ne in Hq.
Qed.

(** objectToPairs returns a new array with as many elements as the object
    has own keys: every own key has an element, a new array of the key and
    its value, and every element is one of these.  Which index a key gets
    is not stated.  The objects allocated before the call are unchanged. *)
Theorem objectToPairs_entries (h : heap) (l : loc) (o : object) :
  h !! l = Some o → (N.of_nat (length (keys o)) < 2 ^ 32)%N →
  ∃ h' r P, objectToPairs h (VRef l) = Ret h' r ∧
    h ⊆ h' ∧ h !! r = None ∧
    h' !! r = Some (Obj (Array (N.of_nat (length (keys o)))) P) ∧
    (∀ k, k ∈ keys o →
       ∃ j p, (j < length (keys o))%nat ∧
              P !! key_of_index (N.of_nat j) = Some (VRef p) ∧ h !! p = None ∧
              h' !! p = Some (Obj (Array 2) {[ "0" := VStr k; "1" := obj_get o k ]})) ∧
    (∀ j, (j < length (keys o))%nat →
       ∃ k p, k ∈ keys o ∧
              P !! key_of_index (N.of_nat j) = Some (VRef p) ∧ h !! p = None ∧
              h' !! p = Some (Obj (Array 2) {[ "0" := VStr k; "1" := obj_get o k ]})).
Proof.
  intros Hl Hlen. unfold objectToPairs.
  set (r := fresh (dom h)).
  change (alloc h (Obj (Array 0) ∅)) with (<[r := Obj (Array 0) ∅]> h, r).
  cbv iota beta. simpl own_keys. rewrite (deref_Some _ _ _ Hl).
  assert (h !! r = None) as Hr by apply not_elem_of_dom, is_fresh.
  assert (l ≠ r) as Hlr by (intros ->; congruence).
  destruct (push_pairs_spec l o r (keys o) (<[r := Obj (Array 0) ∅]> h) 0 ∅)
    as (h' & P' & -> & Hframe & Hres & _ & _ & Hpairs);
    [done|by rewrite lookup_insert_ne|done|apply lookup_insert_eq|lia|].
  assert (∀ j k, keys o !! j = Some k →
            ∃ p, P' !! key_of_index (N.of_nat j) = Some (VRef p) ∧ h !! p = None ∧
                 h' !! p = Some (Obj (Array 2)
                                   {[ "0" := VStr k; "1" := obj_get o k ]}))
    as Hentry.
  { intros j k Hj. destruct (Hpairs j k Hj) as (p & HP & Hp & Hhp).
    exists p. split_and!; [done| |done].
    destruct (decide (p = r)) as [->|Hpr]; [done|].
    by rewrite lookup_insert_ne in Hp. }
  exists h', r, P'. split_and!; [done| |done|done| |].
  - apply map_subseteq_spec. intros l' o' Hl'. apply Hframe; [intros ->; congruence|].
    rewrite lookup_insert_ne; [done|]. intros <-. congruence.
  - intros k [j Hj]%list_elem_of_lookup_1.
    destruct (Hentry j k Hj) as (p & HP & Hp & Hhp).
    exists j, p. split_and!; [by eapply lookup_lt_Some|done..].
  - intros j [k Hj]%lookup_lt_is_Some_2.
    destruct (Hentry j k Hj) as (p & HP & Hp & Hhp).
    exists k, p. split_and!; [by eapply list_elem_of_lookup_2|done..].
Qed.

Lemma objectToPairs_entries_witness :
  ∃ h' r P, objectToPairs heap_docs (VRef 9%positive) = Ret h' r ∧
    heap_docs ⊆ h' ∧ heap_docs !! r = None ∧
    h' !! r = Some (Obj (Array (N.of_nat (length
            (keys (Obj Plain {[ "a" := VNum 1; "b" := VRef 10%positive ]}))))) P) ∧
    (∀ k, k ∈ keys (Obj Plain {[ "a" := VNum 1; "b" := VRef 10%positive ]}) →
       ∃ j p, (j < length (keys (Obj Plain {[ "a" := VNum 1; "b" := VRef 10%positive ]})))%nat ∧
              P !! key_of_index (N.of_nat j) = Some (VRef p) ∧ heap_docs !! p = None ∧
              h' !! p = Some (Obj (Array 2)
                   {[ "0" := VStr k;
                      "1" := obj_get (Obj Plain {[ "a" := VNum 1; "b" := VRef 10%positive ]}) k ]})) ∧
    (∀ j, (j < length (keys (Obj Plain {[ "a" := VNum 1; "b" := VRef 10%positive ]})))%nat →
       ∃ k p, k ∈ keys (Obj Plain {[ "a" := VNum 1; "b" := VRef 10%positive ]}) ∧
              P !! key_of_index (N.of_nat j) = Some (VRef p) ∧ heap_docs !! p = None ∧
              h' !! p = Some (Obj (Array 2)
                   {[ "0" := VStr k;
                      "1" := obj_get (Obj Plain {[ "a" := VNum 1; "b" := VRef 10%positive ]}) k ]})).
Proof.
  apply (objectToPairs_entries heap_docs 9
           (Obj Plain {[ "a" := VNum 1; "b" := VRef 10%positive ]}));
    reflexivity.
Defined.

(** *** pairsToObject *)

Lemma reduce_pairs_cons pairs acc i indices (h : heap) :
  reduce_pairs pairs acc (i :: indices) h =
  match oprops (deref h pairs) !! key_of_index i with
  | None => reduce_pairs pairs acc indices h
  | Some el =>
      match pair_elements h el with
      | None => Throw h TypeError
      | Some (key, value) =>
          match to_key key with
          | None => Halt OutOfModel
          | Some k =>
              match store h acc k value with
              | Ret h' _ => reduce_pairs pairs acc indices h'
              | Throw h' e => Throw h' e
              | Halt r => Halt r
              end
          end
      end
  end.
Proof. reflexivity. Qed.

(** The loop of pairsToObject over indices that hold well-formed pairs:
    [hb] is the heap before the loop, from which the current heap differs
    only in the accumulator. *)
Lemma reduce_pairs_spec (hb : heap) pairs acc n P indices es :
  pairs ≠ acc → hb !! pairs = Some (Obj (Array n) P) →
  Forall2 (λ i (kv : string * value),
             ∃ p, P !! key_of_index i = Some (VRef p) ∧ p ≠ acc ∧
                  hb !! p = Some (Obj (Array 2) {[ "0" := VStr kv.1; "1" := kv.2 ]}))
          indices es →
  "__proto__" ∉ es.*1 →
  ∀ (h : heap) props,
    (∀ l, l ≠ acc → h !! l = hb !! l) → h !! acc = Some (Obj Plain props) →
    reduce_pairs pairs acc indices h
    = Ret (<[acc := Obj Plain (stored props es)]> h) tt.
Proof.
  intros Hne Hpairs Hall. induction Hall as [|i [k v] indices es Hi Hall IH];
    intros Hproto h props Hagree Hacc.
  { simpl. by rewrite insert_id. }
  rewrite fmap_cons in Hproto. apply not_elem_of_cons in Hproto as [Hk Hproto].
  destruct Hi as (p & HP & Hpacc & Hp). simpl in Hp, Hk.
  rewrite reduce_pairs_cons.
  assert (deref h pairs = Obj (Array n) P) as ->
    by (apply deref_Some; by rewrite Hagree).
  simpl oprops. rewrite HP.
  assert (pair_elements h (VRef p) = Some (VStr k, v)) as ->.
  { unfold pair_elements. rewrite (deref_Some h p _) by by rewrite Hagree.
    simpl. unfold obj_get. simpl.
    rewrite lookup_insert_eq. rewrite lookup_insert_ne by done.
    by rewrite lookup_singleton_eq. }
  simpl to_key. cbv iota.
  rewrite (store_plain _ _ _ _ _ Hacc) by done.
  rewrite (IH Hproto _ (<[k := v]> props)).
  - by rewrite insert_insert_eq.
  - intros l Hl. rewrite lookup_insert_ne by done. by apply Hagree.
  - apply lookup_insert_eq.
Qed.

Lemma stored_keys (f : string → value) ks : ∀ props k,
  stored props ((λ k, (k, f k)) <$> ks) !! k =
  if decide (k ∈ ks) then Some (f k) else (props !! k).
Proof.
  induction ks as [|key ks IH]; intros props k; simpl.
  { destruct (decide (k ∈ [])) as [Hin|]; [|done]. by apply elem_of_nil in Hin. }
  unfold stored in *. rewrite IH.
  destruct (decide (k ∈ ks)) as [Hin|Hin].
  - rewrite decide_True; [done|]. by right.
  - destruct (decide (k = key)) as [->|Hk].
    + rewrite lookup_insert_eq, decide_True; [done|]. by left.
    + rewrite lookup_insert_ne, decide_False; [done| |done].
      intros [?|?]%elem_of_cons; done.
Qed.

(** Round trip: the pairs of a mapping [o] that does not own [__proto__],
    given to pairsToObject, produce a new mapping with exactly the own
    properties of [o]; the objects allocated before are unchanged. *)
Theorem pairsToObject_objectToPairs (h : heap) (l : loc) (o : object) :
  h !! l = Some o → okind o = Plain → oprops o !! "__proto__" = None →
  (N.of_nat (length (keys o)) < 2 ^ 32)%N →
  ∃ h1 ps h2 r, objectToPairs h (VRef l) = Ret h1 ps ∧
    pairsToObject h1 ps = Ret h2 r ∧
    h ⊆ h2 ∧ h !! r = None ∧ h2 !! r = Some (Obj Plain (oprops o)).
Proof.
  intros Hl Hkind Hproto Hlen. unfold objectToPairs.
  set (ps := fresh (dom h)).
  change (alloc h (Obj (Array 0) ∅)) with (<[ps := Obj (Array 0) ∅]> h, ps).
  cbv iota beta. simpl own_keys. rewrite (deref_Some _ _ _ Hl).
  assert (h !! ps = None) as Hps by apply not_elem_of_dom, is_fresh.
  assert (l ≠ ps) as Hlps by (intros ->; congruence).
  destruct (push_pairs_spec l o ps (keys o) (<[ps := Obj (Array 0) ∅]> h) 0 ∅)
    as (h1 & P & -> & Hframe & Hres & Hdom & _ & Hpairs);
    [done|by rewrite lookup_insert_ne|done|apply lookup_insert_eq|lia|].
  rewrite N.add_0_l in Hres.
  assert (h ⊆ h1) as Hsub.
  { apply map_subseteq_spec. intros l' o' Hl'. apply Hframe; [intros ->; congruence|].
    rewrite lookup_insert_ne; [done|]. intros <-. congruence. }
  exists h1, ps. unfold pairsToObject. rewrite (deref_Some _ _ _ Hres). simpl okind.
  assert (owns (Obj (Array (N.of_nat (length (keys o)))) P) "reduce" = false) as ->.
  { apply bool_decide_eq_false. simpl. intros HP.
    destruct (Hdom _ HP) as [[? Hempty]|[i Hi]]; [by rewrite lookup_empty in Hempty|].
    by destruct (key_of_index_not_reduce i). }
  set (r := fresh (dom h1)).
  change (alloc h1 empty_object) with (<[r := empty_object]> h1, r).
  cbv iota beta.
  assert (h1 !! r = None) as Hr by apply not_elem_of_dom, is_fresh.
  assert (ps ≠ r) as Hpsr by (intros ->; congruence).
  rewrite Nat2N.id.
  assert (reduce_pairs ps r (N.of_nat <$> seq 0 (length (keys o)))
                       (<[r := empty_object]> h1)
          = Ret (<[r := Obj Plain (stored ∅ ((λ k, (k, obj_get o k)) <$> keys o))]>
                   (<[r := empty_object]> h1)) tt) as ->.
  { apply (reduce_pairs_spec h1 ps r (N.of_nat (length (keys o))) P); [done|done| | | |].
    - apply Forall2_same_length_lookup. split; [by rewrite !length_fmap, length_seq|].
      intros j i [k v] Hi Hkv.
      rewrite list_lookup_fmap in Hi. rewrite list_lookup_fmap in Hkv.
      destruct (keys o !! j) as [k'|] eqn:Hj; [|done]. injection Hkv as <- <-.
      apply lookup_lt_Some in Hj as Hjlt.
      rewrite lookup_seq_lt in Hi by done. injection Hi as <-.
      destruct (Hpairs j k' Hj) as (p & HP & _ & Hp).
      exists p. split_and!; [done| |done]. intros ->. congruence.
    - rewrite <- list_fmap_compose.
      intros (k & Hk & [? Hin]%elem_of_keys)%list_elem_of_fmap. simpl in Hk. congruence.
    - intros l' Hl'. by rewrite lookup_insert_ne.
    - apply lookup_insert_eq. }
  eexists _, r. split_and!; [done|done| | |].
  - rewrite insert_insert_eq. etrans; [done|]. by apply insert_subseteq.
  - by eapply lookup_weaken_None.
  - rewrite insert_insert_eq, lookup_insert_eq. do 2 f_equal.
    apply map_eq. intros k. rewrite stored_keys.
    destruct (decide (k ∈ keys o)) as [Hin|Hin].
    + apply elem_of_keys in Hin as [x Hx]. by rewrite obj_get_plain, Hx.
    + rewrite lookup_empty. symmetry. apply eq_None_not_Some.
      intros Hsome. by apply Hin, elem_of_keys.
Qed.

Lemma pairsToObject_objectToPairs_witness :
  ∃ h1 ps h2 r, objectToPairs heap_docs (VRef 9%positive) = Ret h1 ps ∧
    pairsToObject h1 ps = Ret h2 r ∧
    heap_docs ⊆ h2 ∧ heap_docs !! r = None ∧
    h2 !! r = Some (Obj Plain (oprops (Obj Plain {[ "a" := VNum 1; "b" := VRef 10%positive ]}))).
Proof.
  apply (pairsToObject_objectToPairs heap_docs 9
           (Obj Plain {[ "a" := VNum 1; "b" := VRef 10%positive ]}));
    reflexivity.
Defined.

End PairsFacts.

(** ** queryStringToObject *)

Module QueryStringFacts.
Import JS StringCase Password ObjectPairs QueryString ObjectFacts NestedFacts PairsFacts.

Lemma contains_app c a b : contains c (a ++ b) = contains c a || contains c b.
Proof.
  induction a as [|d a IH]; [done|].
  change (String d a ++ b) with (String d (a ++ b)). simpl.
  by rewrite IH, orb_assoc.
Qed.

Lemma split_on_plain sep w : contains sep w = false → split_on sep w = [w].
Proof.
  induction w as [|c w IH]; [done|]. simpl.
  intros [Hc Hw]%orb_false_iff. rewrite Hc, IH by done. done.
Qed.

Lemma split_on_join sep ws :
  ws ≠ [] → (∀ w, w ∈ ws → contains sep w = false) →
  split_on sep (join (String sep "") ws) = ws.
Proof.
  induction ws as [|w ws IH]; intros Hne Hws; [done|].
  destruct ws as [|w' ws].
  - apply split_on_plain, Hws. by left.
  - change (join (String sep "") (w :: w' :: ws))
      with (w ++ String sep (join (String sep "") (w' :: ws))).
    rewrite split_on_app, split_on_plain by (apply Hws; by left).
    rewrite IH; [done|done|]. intros x Hx. apply Hws. by right.
Qed.

Lemma plain_field_inv f :
  plain_field f = true →
  contains "&" f.1 = false ∧ contains "=" f.1 = false ∧ contains "%" f.1 = false ∧
  contains "&" (default "" f.2) = false ∧ contains "=" (default "" f.2) = false ∧
  contains "%" (default "" f.2) = false ∧ f.1 ≠ "__proto__".
Proof.
  unfold plain_field, plain_text.
  intros [[[[Hk1 Hk2]%andb_true_iff Hk3]%andb_true_iff
            [[Hv1 Hv2]%andb_true_iff Hv3]%andb_true_iff]%andb_true_iff
           Hp]%andb_true_iff.
  apply negb_true_iff in Hk1, Hk2, Hk3, Hv1, Hv2, Hv3, Hp.
  split_and!; try done. by apply String.eqb_neq.
Qed.

Lemma field_item_no_ampersand f :
  plain_field f = true → contains "&" (field_item f) = false.
Proof.
  intros (Hk & _ & _ & Hv & _)%plain_field_inv.
  destruct f as [k [v|]]; unfold field_item; simpl in *; [|done].
  by rewrite !contains_app, Hk, Hv.
Qed.

Lemma split_field_item f :
  plain_field f = true →
  split_on "=" (field_item f) =
  match f.2 with Some v => [f.1; v] | None => [f.1] end.
Proof.
  intros (_ & Hk & _ & _ & Hv & _)%plain_field_inv.
  destruct f as [k [v|]]; unfold field_item; simpl in *.
  - change (k ++ "=" ++ v) with (k ++ String "=" v).
    by rewrite split_on_app, !split_on_plain.
  - by apply split_on_plain.
Qed.

Section decode.
Variable decodeURIComponent : string → option string.
Hypothesis decode_plain :
  ∀ s, contains "%" s = false → decodeURIComponent s = Some s.

Lemma query_items_fields acc fields : ∀ (h : heap) props,
  forallb plain_field fields = true →
  h !! acc = Some (Obj Plain props) →
  query_items decodeURIComponent acc (field_item <$> fields) h
  = Object (<[acc := Obj Plain (stored props (field_entry <$> fields))]> h) acc.
Proof.
  induction fields as [|f fields IH]; intros h props Hplain Hacc.
  { simpl. by rewrite insert_id. }
  simpl in Hplain. apply andb_true_iff in Hplain as [Hf Hplain].
  rewrite !fmap_cons. simpl query_items.
  rewrite (split_field_item f Hf).
  destruct (plain_field_inv f Hf) as (_ & _ & Hk & _ & _ & Hv & Hproto).
  assert (match match f.2 with Some v => [f.1; v] | None => [f.1] end with
          | key :: _ => key
          | [] => "undefined"
          end = f.1) as -> by by destruct (f.2).
  assert (default "" (match f.2 with Some v => [f.1; v] | None => [f.1] end !! 1%nat)
          = default "" f.2) as -> by by destruct (f.2).
  rewrite !decode_plain by done.
  rewrite (store_plain _ _ _ _ _ Hacc) by done.
  rewrite (IH _ (<[f.1 := VStr (default "" f.2)]> props)); [|done|apply lookup_insert_eq].
  by rewrite insert_insert_eq.
Qed.
End decode.

(** A query string made of fields joined with ampersands after a question
    mark, where keys and values contain no ampersand, equals sign or
    percent sign and no key is [__proto__]: queryStringToObject returns a
    new object that holds, for each key, the value of its last field, and
    the empty string for a field without a value.  [decodeURIComponent]
    returns a string without percent sign as it is. *)
Theorem queryStringToObject_fields
    (decodeURIComponent : string → option string) (h : heap)
    (fields : list (string * option string)) :
  (∀ s, contains "%" s = false → decodeURIComponent s = Some s) →
  fields ≠ [] → forallb plain_field fields = true →
  ∃ h' r, queryStringToObject decodeURIComponent h
            ("?" ++ join "&" (field_item <$> fields)) = Object h' r ∧
          h ⊆ h' ∧ h !! r = None ∧
          h' !! r = Some (Obj Plain (stored ∅ (field_entry <$> fields))).
Proof.
  intros Hdecode Hne Hplain. unfold queryStringToObject.
  change ("?" ++ join "&" (field_item <$> fields))
    with (String "?" (join "&" (field_item <$> fields))).
  cbv iota beta.
  set (acc := fresh (dom h)).
  change (alloc h empty_object) with (<[acc := empty_object]> h, acc).
  cbv iota beta.
  assert (h !! acc = None) as Hacc by apply not_elem_of_dom, is_fresh.
  rewrite split_on_join.
  - rewrite (query_items_fields _ Hdecode acc fields _ ∅ Hplain)
      by apply lookup_insert_eq.
    eexists _, _. split_and!; [done| |done|].
    + rewrite insert_insert_eq. by apply insert_subseteq.
    + by rewrite insert_insert_eq, lookup_insert_eq.
  - by destruct fields.
  - intros w (f & -> & Hf)%list_elem_of_fmap.
    apply field_item_no_ampersand.
    rewrite forallb_forall in Hplain. by apply Hplain, list_elem_of_In.
Qed.

Lemma queryStringToObject_fields_witness :
  ∃ h' r, queryStringToObject Some ∅
            ("?" ++ join "&" (field_item <$>
                                [("key1", Some "value1"); ("key2", Some "value2");
                                 ("flag", None)])) = Object h' r ∧
          (∅ : heap) ⊆ h' ∧ (∅ : heap) !! r = None ∧
          h' !! r = Some (Obj Plain (stored ∅ (field_entry <$>
                                [("key1", Some "value1"); ("key2", Some "value2");
                                 ("flag", None)]))).
Proof.
  apply (queryStringToObject_fields Some ∅); [done | done | reflexivity].
Defined.

End QueryStringFacts.

(** ** The conversions of strings *)

Module StringConvertFacts.
Import StringCase StringConvert StringCaseFacts.

#[local] Arguments has_separator : simpl never.

Lemma has_separator_cons c s :
  has_separator (String c s) = is_separator c || has_separator s.
Proof. reflexivity. Qed.

Lemma append_cons c a b : String c a ++ b = String c (a ++ b).
Proof. reflexivity. Qed.

Lemma append_nil_r a : a ++ "" = a.
Proof. induction a as [|c a IH]; [done|]. by rewrite append_cons, IH. Qed.

Lemma has_separator_app a b :
  has_separator (a ++ b) = has_separator a || has_separator b.
Proof.
  induction a as [|c a IH]; [done|].
  by rewrite append_cons, !has_separator_cons, IH, orb_assoc.
Qed.

Lemma split_shape_cons in_run w w' ws :
  split_shape in_run (w :: w' :: ws) =
  negb (has_separator w) && (negb (in_run && String.eqb w "") &&
                             split_shape true (w' :: ws)).
Proof. reflexivity. Qed.

Lemma split_words_nonempty s : ∀ in_run, split_words in_run s ≠ [].
Proof.
  induction s as [|c s IH]; intros in_run; simpl; [done|].
  destruct (is_separator c).
  - destruct in_run; [apply IH|done].
  - by destruct (split_words false s).
Qed.

Lemma split_shape_weaken ws : split_shape true ws = true → split_shape false ws = true.
Proof.
  destruct ws as [|w [|w' ws]]; [done..|].
  rewrite !split_shape_cons. simpl.
  intros [-> [_ ->]%andb_true_iff]%andb_true_iff. done.
Qed.

Lemma split_words_cons_word c s in_run :
  is_separator c = false →
  split_words in_run (String c s) =
  match split_words false s with
  | w :: ws => String c w :: ws
  | [] => [String c ""]
  end.
Proof. intros Hc. simpl. by rewrite Hc. Qed.

Lemma split_words_shape s : ∀ in_run,
  split_shape in_run (split_words in_run s) = true.
Proof.
  induction s as [|c s IH]; intros in_run; [done|].
  destruct (is_separator c) eqn:Hc.
  - simpl split_words. rewrite Hc. destruct in_run; [apply IH|].
    specialize (IH true).
    destruct (split_words true s) as [|w ws] eqn:Hs; [done|].
    rewrite split_shape_cons. by rewrite IH.
  - rewrite split_words_cons_word by done.
    specialize (IH false).
    destruct (split_words false s) as [|w [|w' ws]] eqn:Hs; [done| |].
    + simpl in IH. simpl. rewrite has_separator_cons, Hc.
      by rewrite andb_true_r in IH; apply negb_true_iff in IH as ->.
    + rewrite split_shape_cons in IH.
      apply andb_true_iff in IH as [Hw [_ Hws]%andb_true_iff].
      rewrite split_shape_cons, has_separator_cons, Hc.
      apply negb_true_iff in Hw as ->. rewrite Hws.
      by rewrite andb_false_r.
Qed.

Lemma split_shape_words in_run ws w :
  split_shape in_run ws = true → w ∈ ws → has_separator w = false.
Proof.
  revert in_run. induction ws as [|w0 ws IH]; intros in_run Hshape Hw.
  { by apply elem_of_nil in Hw. }
  destruct ws as [|w1 ws].
  - apply list_elem_of_singleton in Hw as ->. simpl in Hshape.
    rewrite andb_true_r in Hshape. by apply negb_true_iff.
  - rewrite split_shape_cons in Hshape.
    apply andb_true_iff in Hshape as [Hw0 [_ Hws]%andb_true_iff].
    apply elem_of_cons in Hw as [->|Hw]; [by apply negb_true_iff|].
    by apply (IH true).
Qed.

(** splitIntoWords returns at least one word, and no word contains white
    space, an underscore or a hyphen. *)
Theorem splitIntoWords_words (str : string) :
  splitIntoWords str ≠ [] ∧
  ∀ w, w ∈ splitIntoWords str → has_separator w = false.
Proof.
  split; [apply split_words_nonempty|].
  intros w. apply split_shape_words with false, split_words_shape.
Qed.

Lemma split_shape_inner ws : ∀ in_run w0 mid wl,
  split_shape in_run ws = true → ws = w0 :: (mid ++ [wl])%list →
  forallb (λ w, negb (String.eqb w "")) mid = true.
Proof.
  induction ws as [|w ws IH]; intros in_run w0 mid wl Hshape Heq; [done|].
  injection Heq as -> ->.
  destruct mid as [|m mid]; [done|].
  simpl app in Hshape. rewrite split_shape_cons in Hshape.
  apply andb_true_iff in Hshape as [_ [_ Hshape]%andb_true_iff].
  simpl forallb. apply andb_true_iff. split.
  - destruct (mid ++ [wl])%list as [|x l] eqn:Hl.
    { by destruct mid. }
    rewrite split_shape_cons in Hshape. simpl in Hshape.
    by apply andb_true_iff in Hshape as [_ [? _]%andb_true_iff].
  - by apply (IH true m mid wl).
Qed.

(** Only the first and the last word that splitIntoWords returns can be
    empty: a run of separators inside the string separates two words
    once. *)
Theorem splitIntoWords_inner_words
    (str w0 wl : string) (mid : list string) :
  splitIntoWords str = w0 :: (mid ++ [wl])%list →
  forallb (λ w, negb (String.eqb w "")) mid = true.
Proof.
  intros Heq.
  by eapply (split_shape_inner (splitIntoWords str) false), Heq;
    apply split_words_shape.
Qed.

Lemma splitIntoWords_inner_words_witness :
  forallb (λ w, negb (String.eqb w "")) ["a"; "b"; "c"] = true.
Proof.
  apply (splitIntoWords_inner_words " a--b _c " "" "" ["a"; "b"; "c"]). reflexivity.
Defined.

(** *** Joining and splitting again *)

Lemma join_cons sep w w' ws :
  join sep (w :: w' :: ws) = w ++ sep ++ join sep (w' :: ws).
Proof. reflexivity. Qed.

Lemma split_words_app c w rest : ∀ in_run,
  is_separator c = true → has_separator w = false →
  in_run && String.eqb w "" = false →
  split_words in_run (w ++ String c rest) = w :: split_words true rest.
Proof.
  induction w as [|d w IH]; intros in_run Hc Hw Hrun.
  - rewrite andb_true_r in Hrun. subst in_run. simpl. by rewrite Hc.
  - rewrite has_separator_cons in Hw. apply orb_false_iff in Hw as [Hd Hw].
    rewrite append_cons, split_words_cons_word by done.
    by rewrite (IH false).
Qed.

(** Words of the shape that [split_words] returns, joined with one
    separator, split into the same words. *)
Lemma split_words_join c ws : ∀ in_run,
  is_separator c = true → split_shape in_run ws = true →
  split_words in_run (join (String c "") ws) = ws.
Proof.
  induction ws as [|w ws IH]; intros in_run Hc Hshape; [done|].
  destruct ws as [|w' ws].
  - simpl in Hshape. rewrite andb_true_r in Hshape.
    apply split_words_single. by apply negb_true_iff.
  - rewrite split_shape_cons in Hshape.
    apply andb_true_iff in Hshape as [Hw [Hrun Hws]%andb_true_iff].
    rewrite join_cons. change (String c "" ++ ?x) with (String c x).
    rewrite split_words_app; [|done|by apply negb_true_iff|by apply negb_true_iff].
    by rewrite (IH true).
Qed.

Section lower_case.
Variable toLowerCase : string → string.
(** What the statements below use of [toLowerCase]: it produces no
    separator, gives an empty string only for the empty string, and leaves
    its own results as they are. *)
Hypothesis lower_separator :
  ∀ w, has_separator w = false → has_separator (toLowerCase w) = false.
Hypothesis lower_empty : ∀ w, toLowerCase w = "" → w = "".
Hypothesis lower_lower : ∀ w, toLowerCase (toLowerCase w) = toLowerCase w.

Lemma split_shape_lower ws : ∀ in_run,
  split_shape in_run ws = true → split_shape in_run (toLowerCase <$> ws) = true.
Proof.
  induction ws as [|w ws IH]; intros in_run Hshape; [done|].
  destruct ws as [|w' ws].
  - simpl in *. rewrite andb_true_r in *.
    apply negb_true_iff. by apply lower_separator, negb_true_iff.
  - rewrite split_shape_cons in Hshape.
    apply andb_true_iff in Hshape as [Hw [Hrun Hws]%andb_true_iff].
    rewrite !fmap_cons, split_shape_cons. rewrite <- !fmap_cons.
    rewrite (IH true Hws), andb_true_r.
    apply andb_true_iff. split.
    + apply negb_true_iff. by apply lower_separator, negb_true_iff.
    + apply negb_true_iff. apply negb_true_iff in Hrun.
      destruct in_run; [|done]. simpl in *.
      destruct (String.eqb_spec (toLowerCase w) "") as [Hempty|]; [|done].
      apply lower_empty in Hempty as ->. done.
Qed.

Lemma split_lowered_join c str :
  is_separator c = true →
  splitIntoWords (join (String c "") (toLowerCase <$> splitIntoWords str))
  = toLowerCase <$> splitIntoWords str.
Proof.
  intros Hc. apply split_words_join; [done|].
  apply split_shape_lower, split_words_shape.
Qed.

Lemma lower_lowered (ws : list string) :
  toLowerCase <$> (toLowerCase <$> ws) = toLowerCase <$> ws.
Proof.
  rewrite <- list_fmap_compose. apply list_fmap_ext. intros i w _. apply lower_lower.
Qed.
End lower_case.

(** toSnakeCase and toKebabCase are idempotent, and each undoes the
    other: the snake case of a kebab-case result is the snake case of the
    original string, and the other way round.  This holds when
    [toLowerCase] produces no separator, gives the empty string only for
    the empty string, and leaves lower case as it is. *)
Theorem toSnakeCase_toKebabCase_absorb
    (toLowerCase : string → string) (str : string) :
  (∀ w, has_separator w = false → has_separator (toLowerCase w) = false) →
  (∀ w, toLowerCase w = "" → w = "") →
  (∀ w, toLowerCase (toLowerCase w) = toLowerCase w) →
  toSnakeCase toLowerCase (toSnakeCase toLowerCase str) = toSnakeCase toLowerCase str ∧
  toKebabCase toLowerCase (toKebabCase toLowerCase str) = toKebabCase toLowerCase str ∧
  toSnakeCase toLowerCase (toKebabCase toLowerCase str) = toSnakeCase toLowerCase str ∧
  toKebabCase toLowerCase (toSnakeCase toLowerCase str) = toKebabCase toLowerCase str.
Proof.
  intros Hsep Hempty Hidem. unfold toSnakeCase, toKebabCase.
  by rewrite !split_lowered_join, !lower_lowered.
Qed.

(** *** The conversions of ASCII *)

Lemma is_separator_ascii_lower c : is_separator (ascii_lower c) = is_separator c.
Proof. by destruct c as [[] [] [] [] [] [] [] []]. Qed.

Lemma is_separator_ascii_upper c : is_separator (ascii_upper c) = is_separator c.
Proof. by destruct c as [[] [] [] [] [] [] [] []]. Qed.

Lemma ascii_lower_lower c : ascii_lower (ascii_lower c) = ascii_lower c.
Proof. by destruct c as [[] [] [] [] [] [] [] []]. Qed.

Lemma has_separator_map_string f s :
  (∀ c, is_separator (f c) = is_separator c) →
  has_separator (map_string f s) = has_separator s.
Proof.
  intros Hf. induction s as [|c s IH]; [done|].
  simpl. by rewrite !has_separator_cons, Hf, IH.
Qed.

Lemma lower_separator_ascii w :
  has_separator w = false → has_separator (map_string ascii_lower w) = false.
Proof.
  intros Hw. rewrite has_separator_map_string; [done|].
  apply is_separator_ascii_lower.
Qed.

Lemma upper_separator_ascii w :
  has_separator w = false → has_separator (map_string ascii_upper w) = false.
Proof.
  intros Hw. rewrite has_separator_map_string; [done|].
  apply is_separator_ascii_upper.
Qed.

Lemma lower_empty_ascii w : map_string ascii_lower w = "" → w = "".
Proof. by destruct w. Qed.

Lemma lower_lower_ascii w :
  map_string ascii_lower (map_string ascii_lower w) = map_string ascii_lower w.
Proof.
  induction w as [|c w IH]; [done|]. simpl. by rewrite ascii_lower_lower, IH.
Qed.

Lemma toSnakeCase_toKebabCase_absorb_witness :
  toSnakeCase (map_string ascii_lower)
    (toSnakeCase (map_string ascii_lower) "Hello big-World")
  = toSnakeCase (map_string ascii_lower) "Hello big-World" ∧
  toKebabCase (map_string ascii_lower)
    (toKebabCase (map_string ascii_lower) "Hello big-World")
  = toKebabCase (map_string ascii_lower) "Hello big-World" ∧
  toSnakeCase (map_string ascii_lower)
    (toKebabCase (map_string ascii_lower) "Hello big-World")
  = toSnakeCase (map_string ascii_lower) "Hello big-World" ∧
  toKebabCase (map_string ascii_lower)
    (toSnakeCase (map_string ascii_lower) "Hello big-World")
  = toKebabCase (map_string ascii_lower) "Hello big-World".
Proof.
  apply (toSnakeCase_toKebabCase_absorb (map_string ascii_lower) "Hello big-World");
    [apply lower_separator_ascii | apply lower_empty_ascii | apply lower_lower_ascii].
Defined.

(** *** toCamelCase *)

Lemma join_empty_cons w ws : join "" (w :: ws) = w ++ join "" ws.
Proof. destruct ws; [by rewrite append_nil_r|done]. Qed.

Lemma has_separator_join_empty ws :
  (∀ w, w ∈ ws → has_separator w = false) → has_separator (join "" ws) = false.
Proof.
  induction ws as [|w ws IH]; intros Hws; [done|].
  rewrite join_empty_cons, has_separator_app.
  rewrite (Hws w) by by left. rewrite IH; [done|].
  intros w' Hw'. apply Hws. by right.
Qed.

Lemma has_separator_charAt0 w : has_separator w = false → has_separator (charAt0 w) = false.
Proof.
  destruct w as [|c w]; [done|]. simpl. rewrite !has_separator_cons.
  by intros [-> _]%orb_false_iff.
Qed.

Lemma has_separator_slice1 w : has_separator w = false → has_separator (slice1 w) = false.
Proof.
  destruct w as [|c w]; [done|]. simpl. rewrite !has_separator_cons.
  by intros [_ ->]%orb_false_iff.
Qed.

(** The result of toCamelCase contains no separator; so a second
    toCamelCase finds a single word in it, and puts it in lower case: the
    capitals that marked the words are lost. *)
Theorem toCamelCase_twice
    (toUpperCase toLowerCase : string → string) (str : string) :
  (∀ w, has_separator w = false → has_separator (toUpperCase w) = false) →
  (∀ w, has_separator w = false → has_separator (toLowerCase w) = false) →
  has_separator (toCamelCase toUpperCase toLowerCase str) = false ∧
  toCamelCase toUpperCase toLowerCase (toCamelCase toUpperCase toLowerCase str)
  = toLowerCase (toCamelCase toUpperCase toLowerCase str).
Proof.
  intros Hup Hlo.
  assert (has_separator (toCamelCase toUpperCase toLowerCase str) = false) as Hsep.
  { unfold toCamelCase. apply has_separator_join_empty.
    intros w (i & w0 & -> & Hw0)%elem_of_lookup_imap.
    assert (has_separator w0 = false) as Hw0'.
    { apply (split_shape_words false (splitIntoWords str));
        [apply split_words_shape|by eapply list_elem_of_lookup_2]. }
    destruct (i =? 0)%nat; [by apply Hlo|].
    unfold capitalized. rewrite has_separator_app.
    by rewrite Hup, Hlo by (by apply has_separator_charAt0 || by apply has_separator_slice1). }
  split; [done|].
  unfold toCamelCase at 1. unfold splitIntoWords.
  by rewrite (split_words_single _ false Hsep).
Qed.

Lemma toCamelCase_twice_witness :
  has_separator (toCamelCase (map_string ascii_upper) (map_string ascii_lower)
                   "hello big_world") = false ∧
  toCamelCase (map_string ascii_upper) (map_string ascii_lower)
    (toCamelCase (map_string ascii_upper) (map_string ascii_lower) "hello big_world")
  = map_string ascii_lower
      (toCamelCase (map_string ascii_upper) (map_string ascii_lower) "hello big_world").
Proof.
  apply (toCamelCase_twice (map_string ascii_upper) (map_string ascii_lower)
           "hello big_world");
    [apply upper_separator_ascii | apply lower_separator_ascii].
Defined.

(** *** toToggleCase *)

Lemma toggle_toggle c : is_ascii c = true → toggle (toggle c) = c.
Proof. by destruct c as [[] [] [] [] [] [] [] []]. Qed.

Lemma is_ascii_toggle c : is_ascii c = true → is_ascii (toggle c) = true.
Proof. by destruct c as [[] [] [] [] [] [] [] []]. Qed.

Lemma all_ascii_cons c s : all_ascii (String c s) = is_ascii c && all_ascii s.
Proof. reflexivity. Qed.

Section ascii_case.
Variables toUpperCase toLowerCase : string → string.
Hypothesis upper_ascii :
  ∀ c, is_ascii c = true → toUpperCase (String c "") = String (ascii_upper c) "".
Hypothesis lower_ascii :
  ∀ c, is_ascii c = true → toLowerCase (String c "") = String (ascii_lower c) "".

Lemma toToggleCase_ascii s :
  all_ascii s = true →
  toToggleCase toUpperCase toLowerCase s = map_string toggle s.
Proof.
  unfold toToggleCase. induction s as [|c s IH]; intros Hs; [done|].
  rewrite all_ascii_cons in Hs. apply andb_true_iff in Hs as [Hc Hs].
  unfold chars in *. simpl list_ascii_of_string.
  rewrite !fmap_cons, join_empty_cons, IH by done.
  rewrite upper_ascii, lower_ascii by done. simpl map_string.
  assert ((if String.eqb (String c "") (String (ascii_upper c) "")
           then String (ascii_lower c) "" else String (ascii_upper c) "")
          = String (toggle c) "") as ->; [|done].
  unfold toggle. destruct (Ascii.eqb_spec c (ascii_upper c)) as [Heq|Hne].
  - by rewrite <- Heq, String.eqb_refl.
  - by destruct (String.eqb_spec (String c "") (String (ascii_upper c) ""))
      as [[=]|_].
Qed.

Lemma all_ascii_toggle s : all_ascii s = true → all_ascii (map_string toggle s) = true.
Proof.
  induction s as [|c s IH]; [done|]. simpl map_string.
  rewrite !all_ascii_cons. intros [Hc Hs]%andb_true_iff.
  by rewrite is_ascii_toggle, IH.
Qed.
End ascii_case.

(** On a string of ASCII characters, where [toUpperCase] and [toLowerCase]
    change the 26 letters only, toToggleCase is its own inverse. *)
Theorem toToggleCase_involutive
    (toUpperCase toLowerCase : string → string) (str : string) :
  (∀ c, is_ascii c = true → toUpperCase (String c "") = String (ascii_upper c) "") →
  (∀ c, is_ascii c = true → toLowerCase (String c "") = String (ascii_lower c) "") →
  all_ascii str = true →
  toToggleCase toUpperCase toLowerCase (toToggleCase toUpperCase toLowerCase str) = str.
Proof.
  intros Hup Hlo Hs.
  rewrite (toToggleCase_ascii _ _ Hup Hlo str Hs).
  rewrite (toToggleCase_ascii _ _ Hup Hlo _ (all_ascii_toggle _ Hs)).
  induction str as [|c s IH]; [done|].
  rewrite all_ascii_cons in Hs. apply andb_true_iff in Hs as [Hc Hs].
  simpl. by rewrite toggle_toggle, IH.
Qed.

Lemma toToggleCase_involutive_witness :
  toToggleCase (map_string ascii_upper) (map_string ascii_lower)
    (toToggleCase (map_string ascii_upper) (map_string ascii_lower) "Hello World")
  = "Hello World".
Proof.
  apply (toToggleCase_involutive (map_string ascii_upper) (map_string ascii_lower)
           "Hello World"); [done | done | reflexivity].
Defined.

(** *** toTitleCase *)

Lemma split_words_all_ascii s : ∀ in_run w,
  all_ascii s = true → w ∈ split_words in_run s → all_ascii w = true.
Proof.
  induction s as [|c s IH]; intros in_run w Hs Hw.
  { by apply list_elem_of_singleton in Hw as ->. }
  rewrite all_ascii_cons in Hs. apply andb_true_iff in Hs as [Hc Hs].
  simpl in Hw. destruct (is_separator c).
  - destruct in_run; [by apply (IH true)|].
    apply elem_of_cons in Hw as [->|Hw]; [done|by apply (IH true)].
  - destruct (split_words false s) as [|w0 ws] eqn:Hsplit.
    { by destruct (split_words_nonempty s false). }
    apply elem_of_cons in Hw as [->|Hw].
    + rewrite all_ascii_cons, Hc. apply (IH false); [done|].
      rewrite Hsplit. by left.
    + apply (IH false); [done|]. rewrite Hsplit. by right.
Qed.

Lemma all_ascii_charAt0 w : all_ascii w = true → all_ascii (charAt0 w) = true.
Proof.
  destruct w as [|c w]; [done|]. simpl. rewrite !all_ascii_cons.
  by intros [-> _]%andb_true_iff.
Qed.

Lemma all_ascii_slice1 w : all_ascii w = true → all_ascii (slice1 w) = true.
Proof.
  destruct w as [|c w]; [done|]. simpl. rewrite !all_ascii_cons.
  by intros [_ ->]%andb_true_iff.
Qed.

Lemma ascii_upper_upper c : ascii_upper (ascii_upper c) = ascii_upper c.
Proof. by destruct c as [[] [] [] [] [] [] [] []]. Qed.

Lemma is_ascii_upper c : is_ascii c = true → is_ascii (ascii_upper c) = true.
Proof. by destruct c as [[] [] [] [] [] [] [] []]. Qed.

Lemma is_ascii_lower c : is_ascii c = true → is_ascii (ascii_lower c) = true.
Proof. by destruct c as [[] [] [] [] [] [] [] []]. Qed.

Lemma all_ascii_map_string f s :
  (∀ c, is_ascii c = true → is_ascii (f c) = true) →
  all_ascii s = true → all_ascii (map_string f s) = true.
Proof.
  intros Hf. induction s as [|c s IH]; [done|]. simpl map_string.
  rewrite !all_ascii_cons. intros [Hc Hs]%andb_true_iff.
  by rewrite Hf, IH.
Qed.

Section ascii_words.
Variables toUpperCase toLowerCase : string → string.
Hypothesis upper_ascii :
  ∀ s, all_ascii s = true → toUpperCase s = map_string ascii_upper s.
Hypothesis lower_ascii :
  ∀ s, all_ascii s = true → toLowerCase s = map_string ascii_lower s.

Lemma capitalized_ascii w :
  all_ascii w = true →
  capitalized toUpperCase toLowerCase w =
  match w with
  | EmptyString => ""
  | String c r => String (ascii_upper c) (map_string ascii_lower r)
  end.
Proof.
  intros Hw. unfold capitalized.
  rewrite upper_ascii, lower_ascii
    by (by apply all_ascii_charAt0 || by apply all_ascii_slice1).
  by destruct w.
Qed.

Lemma capitalized_capitalized w :
  all_ascii w = true →
  capitalized toUpperCase toLowerCase (capitalized toUpperCase toLowerCase w)
  = capitalized toUpperCase toLowerCase w.
Proof.
  intros Hw. rewrite (capitalized_ascii w Hw).
  destruct w as [|c r]; [by rewrite capitalized_ascii|].
  rewrite all_ascii_cons in Hw. apply andb_true_iff in Hw as [Hc Hr].
  rewrite capitalized_ascii.
  - by rewrite ascii_upper_upper, lower_lower_ascii.
  - rewrite all_ascii_cons, is_ascii_upper by done.
    by apply all_ascii_map_string; [apply is_ascii_lower|].
Qed.

Lemma capitalized_separator w :
  all_ascii w = true → has_separator w = false →
  has_separator (capitalized toUpperCase toLowerCase w) = false.
Proof.
  intros Hw Hsep. rewrite capitalized_ascii by done.
  destruct w as [|c r]; [done|].
  rewrite has_separator_cons in *. apply orb_false_iff in Hsep as [Hc Hr].
  by rewrite is_separator_ascii_upper, Hc, lower_separator_ascii.
Qed.

Lemma split_shape_capitalized ws : ∀ in_run,
  (∀ w, w ∈ ws → all_ascii w = true) →
  split_shape in_run ws = true →
  split_shape in_run (capitalized toUpperCase toLowerCase <$> ws) = true.
Proof.
  induction ws as [|w ws IH]; intros in_run Hascii Hshape; [done|].
  assert (all_ascii w = true) as Hw by (apply Hascii; by left).
  assert (∀ w', w' ∈ ws → all_ascii w' = true) as Hws
    by (intros w' Hw'; apply Hascii; by right).
  destruct ws as [|w' ws].
  - simpl in *. rewrite andb_true_r in *.
    apply negb_true_iff. by apply capitalized_separator, negb_true_iff.
  - rewrite split_shape_cons in Hshape.
    apply andb_true_iff in Hshape as [Hsep [Hrun Hshape]%andb_true_iff].
    rewrite !fmap_cons, split_shape_cons. rewrite <- !fmap_cons.
    rewrite (IH true Hws Hshape), andb_true_r.
    apply andb_true_iff. split.
    + apply negb_true_iff. by apply capitalized_separator, negb_true_iff.
    + apply negb_true_iff. apply negb_true_iff in Hrun.
      destruct in_run; [|done]. simpl in *.
      rewrite capitalized_ascii by done. by destruct w.
Qed.
End ascii_words.

(** On a string of ASCII characters, where [toUpperCase] and [toLowerCase]
    change the 26 letters only, toTitleCase is idempotent: splitting its
    result gives the capitalized words again. *)
Theorem toTitleCase_idempotent
    (toUpperCase toLowerCase : string → string) (str : string) :
  (∀ s, all_ascii s = true → toUpperCase s = map_string ascii_upper s) →
  (∀ s, all_ascii s = true → toLowerCase s = map_string ascii_lower s) →
  all_ascii str = true →
  toTitleCase toUpperCase toLowerCase (toTitleCase toUpperCase toLowerCase str)
  = toTitleCase toUpperCase toLowerCase str.
Proof.
  intros Hup Hlo Hs. unfold toTitleCase. unfold splitIntoWords at 1.
  assert (∀ w, w ∈ splitIntoWords str → all_ascii w = true) as Hwords
    by (intros w; by apply split_words_all_ascii).
  rewrite split_words_join;
    [|done|by apply split_shape_capitalized; [| |done|apply split_words_shape]].
  f_equal. rewrite <- list_fmap_compose.
  apply list_fmap_ext. intros i w Hw. simpl.
  apply capitalized_capitalized; [done..|].
  by eapply Hwords, list_elem_of_lookup_2.
Qed.

Lemma toTitleCase_idempotent_witness :
  toTitleCase (map_string ascii_upper) (map_string ascii_lower)
    (toTitleCase (map_string ascii_upper) (map_string ascii_lower) "hello big_world")
  = toTitleCase (map_string ascii_upper) (map_string ascii_lower) "hello big_world".
Proof.
  apply (toTitleCase_idempotent (map_string ascii_upper) (map_string ascii_lower)
           "hello big_world"); [done | done | reflexivity].
Defined.

End StringConvertFacts.

(** ** validatePassword, as rules on characters *)

Module PasswordRulesFacts.
Import Regex Password PasswordRules PasswordFacts.

(** A pattern made of one class is found where a character of the class
    is. *)
Lemma test_class cls s : test [Set_ cls] s = has_char (class_matches cls) s.
Proof.
  unfold has_char. induction s as [|c s IH]; [done|].
  change (test [Set_ cls] (String c s))
    with (matches_here [Set_ cls] (String c s) || test [Set_ cls] s).
  rewrite IH. simpl. by rewrite andb_true_r.
Qed.

Lemma has_char_ext p q s : (∀ c, p c = q c) → has_char p s = has_char q s.
Proof.
  intros Hpq. unfold has_char. induction s as [|c s IH]; [done|].
  simpl. by rewrite Hpq, IH.
Qed.

Lemma test_lowercase s : test re_lowercase s = has_char is_lower s.
Proof.
  unfold re_lowercase. rewrite test_class. apply has_char_ext.
  intros c. unfold class_matches, is_lower. simpl. by rewrite orb_false_r.
Qed.

Lemma test_uppercase s : test re_uppercase s = has_char is_upper s.
Proof.
  unfold re_uppercase. rewrite test_class. apply has_char_ext.
  intros c. unfold class_matches, is_upper. simpl. by rewrite orb_false_r.
Qed.

Lemma test_numeric s : test re_numeric s = has_char is_digit s.
Proof.
  unfold re_numeric. rewrite test_class. apply has_char_ext.
  intros c. unfold class_matches, is_digit. simpl. by rewrite orb_false_r.
Qed.

Lemma test_not_latin s :
  test re_not_latin s = has_char (λ c, negb (latin_allowed c)) s.
Proof.
  unfold re_not_latin. rewrite test_class. apply has_char_ext.
  intros c. by destruct c as [[] [] [] [] [] [] [] []].
Qed.

(** *** A class of plain symbols *)

Lemma plain_symbol_inv c :
  plain_symbol c = true → c ≠ "\"%char ∧ c ≠ "]"%char ∧ c ≠ "-"%char ∧ c ≠ "^"%char.
Proof. intros Hc. split_and!; by intros ->. Qed.

Lemma class_items_single fuel c s1 :
  c ≠ "]"%char → c ≠ "\"%char →
  class_items (S fuel) (String c s1) =
  match s1 with
  | String "-" (String "]" _) => cons_item (Single c) (class_items fuel s1)
  | String "-" EmptyString => SyntaxError
  | String "-" s2 =>
      match class_atom s2 with
      | Parsed (hi, s3) =>
          if (code hi <? code c)%N then SyntaxError
          else cons_item (Range c hi) (class_items fuel s3)
      | SyntaxError => SyntaxError
      | Unsupported => Unsupported
      end
  | _ => cons_item (Single c) (class_items fuel s1)
  end.
Proof.
  intros Hc1 Hc2. by destruct c as [[] [] [] [] [] [] [] []].
Qed.

Lemma class_items_single_plain fuel c d tl :
  c ≠ "]"%char → c ≠ "\"%char → d ≠ "-"%char →
  class_items (S fuel) (String c (String d tl))
  = cons_item (Single c) (class_items fuel (String d tl)).
Proof.
  intros Hc1 Hc2 Hd. rewrite class_items_single by done.
  by destruct d as [[] [] [] [] [] [] [] []].
Qed.

Lemma class_items_plain syms : ∀ fuel rest,
  forallb plain_symbol (list_ascii_of_string syms) = true →
  (String.length syms < fuel)%nat →
  class_items fuel (syms ++ String "]" rest)
  = Parsed (Single <$> list_ascii_of_string syms, rest).
Proof.
  induction syms as [|c syms IH]; intros fuel rest Hplain Hfuel.
  { destruct fuel; [simpl in Hfuel; lia|done]. }
  simpl in Hplain. apply andb_true_iff in Hplain as [Hc Hplain].
  destruct fuel as [|fuel]; [simpl in Hfuel; lia|].
  assert (String.length syms < fuel)%nat as Hfuel' by (simpl in Hfuel; lia).
  specialize (IH fuel rest Hplain Hfuel').
  destruct (plain_symbol_inv c Hc) as (Hc1 & Hc2 & Hc3 & Hc4).
  change (String c syms ++ String "]" rest)
    with (String c (syms ++ String "]" rest)).
  assert (∃ d tl, syms ++ String "]" rest = String d tl ∧ d ≠ "-"%char)
    as (d & tl & Heq & Hd).
  { destruct syms as [|d syms]; [by exists "]"%char, rest|].
    exists d, (syms ++ String "]" rest). split; [done|].
    simpl in Hplain. apply andb_true_iff in Hplain as [Hd _].
    by destruct (plain_symbol_inv d Hd) as (_ & _ & ? & _). }
  rewrite Heq in *. by rewrite class_items_single_plain, IH.
Qed.

Lemma parse_plain_symbols syms :
  forallb plain_symbol (list_ascii_of_string syms) = true →
  parse ("[" ++ syms ++ "]")
  = Parsed [Set_ (Class false (Single <$> list_ascii_of_string syms))].
Proof.
  intros Hplain. unfold parse.
  change ("[" ++ syms ++ "]") with (String "[" (syms ++ String "]" "")).
  simpl String.length. cbn [atoms].
  assert (∃ d tl, syms ++ String "]" "" = String d tl ∧ d ≠ "^"%char)
    as (d & tl & Heq & Hd).
  { destruct syms as [|d syms]; [by exists "]"%char, ""|].
    exists d, (syms ++ String "]" ""). split; [done|].
    simpl in Hplain. apply andb_true_iff in Hplain as [Hd _].
    by destruct (plain_symbol_inv d Hd) as (_ & _ & _ & ?). }
  assert ((let '(neg, body) :=
             match syms ++ String "]" "" with
             | String "^" body' => (true, body')
             | _ => (false, syms ++ String "]" "")
             end in
           match class_items (S (String.length body)) body with
           | Parsed (l, rest) =>
               cons_atom (Set_ (Class neg l))
                 (atoms (String.length (syms ++ String "]" "")) rest)
           | SyntaxError => SyntaxError
           | Unsupported => Unsupported
           end)
          = Parsed [Set_ (Class false (Single <$> list_ascii_of_string syms))])
    as Hgoal; [|exact Hgoal].
  assert (match syms ++ String "]" "" with
          | String "^" body' => (true, body')
          | _ => (false, syms ++ String "]" "")
          end = (false, syms ++ String "]" "")) as ->.
  { rewrite Heq. by destruct d as [[] [] [] [] [] [] [] []]. }
  rewrite class_items_plain; [|done|].
  - simpl. by destruct (String.length _).
  - clear. induction syms as [|c syms IH]; simpl; lia.
Qed.

Lemma test_plain_symbols syms s :
  test [Set_ (Class false (Single <$> list_ascii_of_string syms))] s
  = has_char (λ c, contains c syms) s.
Proof.
  rewrite test_class. apply has_char_ext. intros c.
  unfold class_matches. simpl. induction syms as [|d syms IH]; [done|].
  simpl. rewrite <- IH. by rewrite (Ascii.eqb_sym c d).
Qed.

(** When the symbol requirement is off, or the configured symbols are
    all plain in a character class (no backslash, closing bracket, dash or
    caret), validatePassword returns, and tells whether the password meets
    the requirements read as rules on its characters. *)
Theorem validatePassword_meets
    (password : string) (config : PasswordValidationConfig) :
  symbols_plain config = true →
  validatePassword password config = Returns (meets config password).
Proof.
  intros Hplain. unfold validatePassword, meets.
  rewrite test_lowercase, test_uppercase, test_numeric, test_not_latin.
  destruct config as [mn mx rl ru rn rs sy ol]. simpl in *.
  unfold symbols_plain in Hplain. simpl in Hplain.
  set (len := Z.of_nat (String.length password)).
  assert ((len <? default 8%Z mn)%Z || (len >? default 64%Z mx)%Z
          = negb ((default 8%Z mn <=? len)%Z && (len <=? default 64%Z mx)%Z)) as ->.
  { rewrite Z.gtb_ltb, negb_andb, !Z.leb_antisym, !negb_involutive. done. }
  destruct ((default 8%Z mn <=? len)%Z && (len <=? default 64%Z mx)%Z);
    simpl; [|done].
  assert (∀ latin : result,
            (if default true rs
             then match parse ("[" ++ default "!@#$%^&*()-_+=<>?/[]" sy ++ "]") with
                  | Parsed symbolPattern =>
                      if negb (test symbolPattern password) then Returns false
                      else latin
                  | SyntaxError => Throws
                  | Unsupported => NotModelled
                  end
             else latin)
            = if implb (default true rs)
                       (has_char (λ c, contains c (default "" sy)) password)
              then latin else Returns false) as ->.
  { intros latin. destruct rs as [[]|]; simpl; [|done|];
      (destruct sy as [syms|]; [|done]); simpl;
      rewrite (parse_plain_symbols syms Hplain), test_plain_symbols;
      by destruct (has_char _ password). }
  destruct (default true rl), (has_char is_lower password),
    (default true ru), (has_char is_upper password),
    (default true rn), (has_char is_digit password),
    (implb (default true rs) _),
    (default true ol), (has_char (λ c, negb (latin_allowed c)) password); done.
Qed.

Lemma validatePassword_meets_witness :
  validatePassword "Passw0rd!" (Config None None None None None None (Some "!?#") None)
  = Returns (meets (Config None None None None None None (Some "!?#") None) "Passw0rd!").
Proof.
  apply validatePassword_meets. reflexivity.
Defined.

(** *** The default configuration *)

Lemma test_default_symbols s :
  test [Set_ (Class false
          [Single "!"; Single "@"; Single "#"; Single "$"; Single "%";
           Single "^"; Single "&"; Single "*"; Single "("; Range ")" "_";
           Single "+"; Single "="; Single "<"; Single ">"; Single "?";
           Single "/"; Single "["]);
        Lit "]"] s
  = symbol_then_bracket s.
Proof.
  set (cls := Class false _).
  assert (∀ c, class_matches cls c = default_symbol c) as Hcls
    by (intros c; by destruct c as [[] [] [] [] [] [] [] []]).
  induction s as [|c s IH]; [done|].
  change (test [Set_ cls; Lit "]"] (String c s))
    with (matches_here [Set_ cls; Lit "]"] (String c s) || test [Set_ cls; Lit "]"] s).
  rewrite IH. destruct s as [|d s].
  - simpl. by rewrite andb_false_r.
  - change (matches_here [Set_ cls; Lit "]"] (String c (String d s)))
      with (class_matches cls c && (Ascii.eqb d "]" && true)).
    by rewrite Hcls, andb_true_r.
Qed.

(** With the default configuration validatePassword accepts exactly the
    passwords of 8 to 64 characters that hold a lower-case letter, an
    upper-case letter and a digit, in which a closing bracket comes right
    after a character of the symbol class, and all of whose characters are
    allowed ones. *)
Theorem validatePassword_default (password : string) :
  validatePassword password empty_config = Returns (meets_default password).
Proof.
  unfold validatePassword, meets_default, empty_config.
  cbn [default minLength maxLength requireLowercase requireUppercase
       requireNumeric requireSymbol symbols onlyLatin].
  rewrite parse_default_symbols, test_default_symbols.
  rewrite test_lowercase, test_uppercase, test_numeric, test_not_latin.
  set (len := Z.of_nat (String.length password)).
  assert ((len <? 8)%Z || (len >? 64)%Z = negb ((8 <=? len)%Z && (len <=? 64)%Z)) as ->.
  { rewrite Z.gtb_ltb, negb_andb, !Z.leb_antisym, !negb_involutive. done. }
  destruct ((8 <=? len)%Z && (len <=? 64)%Z); simpl; [|done].
  by destruct (has_char is_lower password), (has_char is_upper password),
    (has_char is_digit password), (symbol_then_bracket password),
    (has_char (λ c, negb (latin_allowed c)) password).
Qed.

End PasswordRulesFacts.

(** ** generateUUID: every identifier can come out *)

Module UuidDrawsFacts.
Import Regex Uuid UuidDraws UuidFacts.

Lemma draw_for_x d :
  is_hex d = true →
  replacement "x" (draw_for "x" d) = String d "" ∧
  (0 <= draw_for "x" d)%Q ∧ (draw_for "x" d < 1)%Q.
Proof.
  intros Hd.
  destruct d as [[] [] [] [] [] [] [] []]; vm_compute in Hd; try discriminate Hd;
    (split; [by vm_compute|split; by vm_compute]).
Qed.

Lemma draw_for_y d :
  existsb (Ascii.eqb d) (list_ascii_of_string "89ab") = true →
  replacement "y" (draw_for "y" d) = String d "" ∧
  (0 <= draw_for "y" d)%Q ∧ (draw_for "y" d < 1)%Q.
Proof.
  intros Hd.
  destruct d as [[] [] [] [] [] [] [] []]; vm_compute in Hd; try discriminate Hd;
    (split; [by vm_compute|split; by vm_compute]).
Qed.

Lemma replace_xy_draws template : ∀ s n (random : nat → Q),
  conforms template s →
  (∀ i q, draws template s !! i = Some q → random (n + i)%nat = q) →
  (replace_xy random n template).1 = s.
Proof.
  induction template as [|c template IH]; intros s n random Hconf Hdraws.
  { by destruct s. }
  destruct s as [|d s]; [done|]. destruct Hconf as [Hd Hconf].
  simpl replace_xy. simpl draws in Hdraws.
  assert (class_matches xy c = true →
          random n = draw_for c d ∧
          ∀ i q, draws template s !! i = Some q → random (S n + i)%nat = q) as Hwild.
  { intros Hc. rewrite Hc in Hdraws. split.
    - rewrite <- (Nat.add_0_r n). by apply Hdraws.
    - intros i q Hi. replace (S n + i)%nat with (n + S i)%nat by lia.
      by apply Hdraws. }
  destruct (Ascii.eqb c "x") eqn:Hx.
  - apply Ascii.eqb_eq in Hx as ->.
    destruct (Hwild eq_refl) as [Hn Hrest].
    change (class_matches xy "x") with true. cbv iota.
    rewrite Hn. destruct (draw_for_x d Hd) as (-> & _ & _).
    specialize (IH s (S n) random Hconf Hrest).
    destruct (replace_xy random (S n) template) as [out n']. simpl in *.
    by rewrite IH.
  - destruct (Ascii.eqb c "y") eqn:Hy.
    + apply Ascii.eqb_eq in Hy as ->.
      destruct (Hwild eq_refl) as [Hn Hrest].
      change (class_matches xy "y") with true. cbv iota.
      rewrite Hn. destruct (draw_for_y d Hd) as (-> & _ & _).
      specialize (IH s (S n) random Hconf Hrest).
      destruct (replace_xy random (S n) template) as [out n']. simpl in *.
      by rewrite IH.
    + assert (class_matches xy c = false) as Hc
        by (unfold class_matches; simpl; by rewrite Hx, Hy).
      rewrite Hc in *. subst d.
      specialize (IH s n random Hconf Hdraws).
      destruct (replace_xy random n template) as [out n']. simpl in *.
      by rewrite IH.
Qed.

Lemma draws_unit_interval template : ∀ s q,
  conforms template s → q ∈ draws template s → (0 <= q)%Q ∧ (q < 1)%Q.
Proof.
  induction template as [|c template IH]; intros s q Hconf Hq.
  { destruct s; by apply elem_of_nil in Hq. }
  destruct s as [|d s]; [done|]. destruct Hconf as [Hd Hconf].
  simpl in Hq.
  destruct (Ascii.eqb c "x") eqn:Hx.
  - apply Ascii.eqb_eq in Hx as ->.
    change (class_matches xy "x") with true in Hq. cbv iota in Hq.
    apply elem_of_cons in Hq as [->|Hq]; [|by eapply IH].
    by destruct (draw_for_x d Hd) as (_ & ? & ?).
  - destruct (Ascii.eqb c "y") eqn:Hy.
    + apply Ascii.eqb_eq in Hy as ->.
      change (class_matches xy "y") with true in Hq. cbv iota in Hq.
      apply elem_of_cons in Hq as [->|Hq]; [|by eapply IH].
      by destruct (draw_for_y d Hd) as (_ & ? & ?).
    + assert (class_matches xy c = false) as Hc
        by (unfold class_matches; simpl; by rewrite Hx, Hy).
      rewrite Hc in Hq. by eapply IH.
Qed.

Lemma is_uuid_v4_conforms s :
  is_uuid_v4 s = true → conforms "xxxxxxxx-xxxx-4xxx-yxxx-xxxxxxxxxxxx" s.
Proof.
  unfold is_uuid_v4. intros [Hlen Hpos]%andb_true_iff.
  do 36 (destruct s as [|? s]; [done|]). destruct s; [|done].
  simpl in Hpos. rewrite ?andb_true_r in Hpos.
  repeat (apply andb_true_iff in Hpos as [? Hpos]).
  simpl. repeat split; (done || by apply Ascii.eqb_eq).
Qed.

(** generateUUID can return every identifier of the version 4 shape: for
    each one there are outcomes of [Math.random()], all of the interval
    [0, 1), with which it is the result. *)
Theorem generateUUID_reaches_every_v4 (s : string) :
  is_uuid_v4 s = true →
  unit_interval (random_for s) ∧ (generateUUID (random_for s) 0).1 = s.
Proof.
  intros Hconf%is_uuid_v4_conforms. split.
  - intros n. unfold random_for.
    destruct (nth_in_or_default n
                (draws "xxxxxxxx-xxxx-4xxx-yxxx-xxxxxxxxxxxx" s) 0%Q) as [Hin| ->];
      [|done].
    apply (draws_unit_interval "xxxxxxxx-xxxx-4xxx-yxxx-xxxxxxxxxxxx" s); [done|].
    by apply list_elem_of_In.
  - apply replace_xy_draws; [done|].
    intros i q Hi. unfold random_for. simpl Nat.add.
    by apply nth_lookup_Some.
Qed.

Lemma generateUUID_reaches_every_v4_witness :
  unit_interval (random_for "01234567-89ab-4cde-b012-3456789abcde") ∧
  (generateUUID (random_for "01234567-89ab-4cde-b012-3456789abcde") 0).1
  = "01234567-89ab-4cde-b012-3456789abcde".
Proof.
  apply generateUUID_reaches_every_v4. reflexivity.
Defined.

End UuidDrawsFacts.

(** ** debounce and throttle *)

Module TimingFacts.
Import Timing.

Section TimerFacts.
Context {Args : Type}.
Implicit Types (events : list (@event Args)) (args : Args).

Lemma debounce_run_snoc events e :
  debounce_run (events ++ [e]) = debounce_step (debounce_run events) e.
Proof. unfold debounce_run. by rewrite foldl_app. Qed.

(** Every pending timer is the one that [debounceTimer] holds. *)
Lemma debounce_one_timer events id :
  is_Some (debounce_timers (debounce_run events) !! id) →
  debounceTimer (debounce_run events) = Some id.
Proof.
  revert id. induction events as [|e events IH] using rev_ind; intros id.
  { simpl. rewrite lookup_empty. by intros [? ?]. }
  rewrite debounce_run_snoc.
  destruct e as [args|id']; unfold debounce_step, debounced, debounce_timeout; simpl.
  - destruct (decide (id = debounce_next (debounce_run events))) as [->|Hne]; [done|].
    rewrite lookup_insert_ne by done.
    destruct (debounceTimer (debounce_run events)) as [old|] eqn:Hold; simpl.
    + destruct (decide (id = old)) as [->|Hne']; [rewrite lookup_delete_eq; by intros [? ?]|].
      rewrite lookup_delete_ne by done. intros Hid%IH. congruence.
    + intros Hid%IH. congruence.
  - destruct (debounce_timers (debounce_run events) !! id') as [args|] eqn:Hid';
      [|apply IH]. simpl.
    destruct (decide (id = id')) as [->|Hne]; [rewrite lookup_delete_eq; by intros [? ?]|].
    rewrite lookup_delete_ne by done. apply IH.
Qed.

Lemma debounce_cleared events :
  clearTimeout (debounceTimer (debounce_run events))
               (debounce_timers (debounce_run events)) = ∅.
Proof.
  apply map_eq. intros id. rewrite lookup_empty.
  apply eq_None_not_Some. intros Hid.
  destruct (debounceTimer (debounce_run events)) as [old|] eqn:Hold; simpl in Hid.
  - destruct (decide (id = old)) as [->|Hne];
      [rewrite lookup_delete_eq in Hid; by destruct Hid|].
    rewrite lookup_delete_ne in Hid by done.
    apply debounce_one_timer in Hid. congruence.
  - apply debounce_one_timer in Hid. congruence.
Qed.

(** A call of the debounced function does not call [func]; it cancels the
    pending timer, so that one timer is pending afterwards, with the
    arguments of this call.  When that timer runs, [func] is called once,
    with these arguments, and no timer is left. *)
Theorem debounce_last_call_wins events args :
  let st := debounce_run events in
  let st1 := debounce_run (events ++ [Call args]) in
  let st2 := debounce_run (events ++ [Call args; Fire (debounce_next st)]) in
  debounce_timers st1 = {[ debounce_next st := args ]} ∧
  debounce_calls st1 = debounce_calls st ∧
  debounce_timers st2 = ∅ ∧
  debounce_calls st2 = (debounce_calls st ++ [args])%list.
Proof.
  intros st st1 st2.
  assert (st1 = DebounceState (Some (debounce_next st))
                  {[ debounce_next st := args ]} (S (debounce_next st))
                  (debounce_calls st)) as Hst1.
  { unfold st1. rewrite debounce_run_snoc. unfold debounce_step, debounced.
    by rewrite debounce_cleared, insert_empty. }
  assert (st2 = debounce_step st1 (Fire (debounce_next st))) as Hst2.
  { unfold st2, st1.
    change [Call args; Fire (debounce_next st)]
      with ([Call args] ++ [Fire (debounce_next st)])%list.
    by rewrite app_assoc, debounce_run_snoc. }
  rewrite Hst2, Hst1. unfold debounce_step, debounce_timeout. simpl.
  rewrite lookup_singleton_eq. simpl.
  by rewrite delete_singleton_eq.
Qed.

Lemma call_args_snoc events e :
  call_args (events ++ [e]) =
  (call_args events ++ match e with Call args => [args] | Fire _ => [] end)%list.
Proof. unfold call_args. rewrite omap_app. by destruct e. Qed.

Lemma debounce_calls_pending events :
  let st := debounce_run events in
  (debounce_timers st = ∅ ∧ sublist (debounce_calls st) (call_args events)) ∨
  (∃ id a l, debounce_timers st = {[ id := a ]} ∧
             call_args events = (l ++ [a])%list ∧ sublist (debounce_calls st) l).
Proof.
  induction events as [|e events IH] using rev_ind; [by left|].
  rewrite debounce_run_snoc, call_args_snoc. cbv zeta in *.
  destruct e as [args|id']; unfold debounce_step, debounced, debounce_timeout; simpl.
  - right. exists (debounce_next (debounce_run events)), args, (call_args events).
    rewrite debounce_cleared, insert_empty. split_and!; [done..|].
    destruct IH as [[_ Hsub]|(id & a & l & _ & -> & Hsub)]; [done|].
    by apply sublist_inserts_r.
  - rewrite app_nil_r.
    destruct IH as [[Hempty Hsub]|(id & a & l & Htimers & Hargs & Hsub)].
    + rewrite Hempty, lookup_empty. left. by rewrite Hempty.
    + rewrite Htimers. destruct (decide (id' = id)) as [->|Hne].
      * rewrite lookup_singleton_eq. simpl. left.
        rewrite delete_singleton_eq, Hargs. split; [done|].
        by apply sublist_app.
      * rewrite lookup_singleton_ne by done. right.
        exists id, a, l. by rewrite Htimers.
Qed.

(** The calls of [func] that a debounced function makes are calls it has
    received: at most one for each, in the same order, with the same
    arguments. *)
Theorem debounce_calls_sublist events :
  sublist (debounce_calls (debounce_run events)) (call_args events).
Proof.
  destruct (debounce_calls_pending events)
    as [[_ Hsub]|(id & a & l & _ & -> & Hsub)]; [done|].
  by apply sublist_inserts_r.
Qed.

(** *** throttle *)

Implicit Types (tevents : list (@throttle_event Args)).

Lemma throttle_run_snoc tevents e :
  throttle_run (tevents ++ [e]) = throttle_step (throttle_run tevents) e.
Proof. unfold throttle_run. by rewrite foldl_app. Qed.

(** One event that is not a call made while [func] runs: the shape of
    the state, and the count of the calls that returned against the timers
    run. *)
Lemma throttle_step_sequential (st : @throttle_state Args) e n :
  one_timer st →
  (throttle_returned st + (if inThrottle st then 0 else 1) ≤ S n)%nat →
  match e with Called _ => throttle_running st = 0%nat | _ => True end →
  one_timer (throttle_step st e) ∧
  (throttle_returned (throttle_step st e)
   + (if inThrottle (throttle_step st e) then 0 else 1)
   ≤ S (n + match e with Fired _ => 1 | _ => 0 end))%nat.
Proof.
  destruct st as [flag timers next calls running returned].
  unfold one_timer. simpl. intros Hone Hrate He.
  destruct e as [args| | |id];
    unfold throttle_step, throttled, throttled_returns, throttled_throws,
      throttle_timeout; simpl.
  - (* a call *)
    subst running. destruct flag; simpl; split; (done || lia).
  - (* func returns *)
    destruct running as [|[|running]]; simpl; [split; (done || lia)| |done].
    destruct Hone as [-> ->]. split; [|lia].
    exists next. by rewrite union_empty_r_L.
  - (* func throws *)
    destruct running as [|[|running]]; simpl; [split; (done || lia)| |done].
    destruct Hone as [-> ->]. split; [done|lia].
  - (* a timer runs *)
    destruct running as [|[|running]]; simpl; [|split; [done|lia]|done].
    destruct (decide (id ∈ timers)) as [Hid|Hid]; simpl.
    + split; [|lia]. destruct flag.
      * destruct Hone as [id' ->]. apply elem_of_singleton in Hid as ->.
        apply difference_diag_L.
      * rewrite Hone in Hid. by apply not_elem_of_empty in Hid.
    + split; [done|destruct flag; lia].
Qed.

(** The same of a run, from any state on. *)
Lemma throttle_sequential tevents : ∀ (st : @throttle_state Args) n,
  one_timer st →
  (throttle_returned st + (if inThrottle st then 0 else 1) ≤ S n)%nat →
  sequential_from st tevents = true →
  one_timer (foldl throttle_step st tevents) ∧
  (throttle_returned (foldl throttle_step st tevents)
   + (if inThrottle (foldl throttle_step st tevents) then 0 else 1)
   ≤ S (n + fired tevents))%nat.
Proof.
  induction tevents as [|e tevents IH]; intros st n Hone Hrate Hseq.
  { simpl. split; [done|]. by rewrite Nat.add_0_r. }
  change (sequential_from st (e :: tevents)) with
    (match e with
     | Called _ => Nat.eqb (throttle_running st) 0
     | _ => true
     end && sequential_from (throttle_step st e) tevents) in Hseq.
  apply andb_true_iff in Hseq as [He Hseq].
  destruct (throttle_step_sequential st e n Hone Hrate) as [Hone' Hrate'].
  { destruct e; [by apply Nat.eqb_eq|done..]. }
  destruct (IH _ _ Hone' Hrate' Hseq) as [Hone'' Hrate''].
  split; [done|]. simpl foldl.
  replace (n + fired (e :: tevents))%nat
    with (n + match e with Fired _ => 1 | _ => 0 end + fired tevents)%nat;
    [done|].
  destruct e; simpl; lia.
Qed.

(** Whatever [func] does, also when it calls the throttled function while
    it runs: whenever the throttle is engaged, a timer that will release it
    is pending.  When [func] does not call the throttled function, more
    holds: between two calls of [func] the throttle is engaged exactly
    while one timer is pending, and while [func] runs it is not engaged and
    no timer is pending. *)
Theorem throttle_engaged_while_pending tevents :
  (if inThrottle (throttle_run tevents)
   then ∃ id, id ∈ throttle_timers (throttle_run tevents)
   else True) ∧
  (sequential tevents = true → one_timer (throttle_run tevents)).
Proof.
  split.
  - induction tevents as [|e tevents IH] using rev_ind; [done|].
    rewrite throttle_run_snoc.
    destruct (throttle_run tevents) as [flag timers next calls running returned].
    simpl in IH.
    destruct e as [args| | |id];
      unfold throttle_step, throttled, throttled_returns, throttled_throws,
        throttle_timeout; simpl.
    + by destruct flag.
    + destruct running; simpl; [done|]. exists next. set_solver.
    + by destruct running.
    + destruct running; simpl; [|done].
      by destruct (decide (id ∈ timers)).
  - intros Hseq.
    by destruct (throttle_sequential tevents throttle 0) as [Hone _];
      [done|simpl; lia|done|].
Qed.

(** When [func] does not call the throttled function, a timer runs between
    two calls of [func] that return: the calls of [func] that have returned
    number at most one more than the timers that have run. *)
Theorem throttle_rate tevents :
  sequential tevents = true →
  (throttle_returned (throttle_run tevents) ≤ S (fired tevents))%nat.
Proof.
  intros Hseq.
  destruct (throttle_sequential tevents throttle 0) as [_ Hrate];
    [done|simpl; lia|done|].
  unfold throttle_run. simpl in Hrate. lia.
Qed.

(** The hypothesis on [func] is needed.  A [func] that calls the throttled
    function once while it runs is called twice with no timer run in
    between, and leaves two timers pending; when the first of them has run
    the throttle is released while the second is still pending. *)
Lemma throttle_reentrant (a b : Args) :
  sequential [Called a; Called b; Returned; Returned] = false ∧
  throttle_calls (throttle_run [Called a; Called b; Returned; Returned]) = [a; b] ∧
  throttle_returned (throttle_run [Called a; Called b; Returned; Returned]) = 2%nat ∧
  throttle_timers (throttle_run [Called a; Called b; Returned; Returned])
    = {[ 0%nat; 1%nat ]} ∧
  inThrottle (throttle_run [Called a; Called b; Returned; Returned; Fired 0])
    = false ∧
  throttle_timers (throttle_run [Called a; Called b; Returned; Returned; Fired 0])
    = {[ 1%nat ]}.
Proof.
  by split_and!.
Qed.

End TimerFacts.

Lemma throttle_engaged_while_pending_witness :
  (if inThrottle (throttle_run [Called 1%nat; Returned; Called 2%nat; Fired 0;
                               Called 3%nat; Thrown; Called 4%nat; Returned])
   then ∃ id, id ∈ throttle_timers
                     (throttle_run [Called 1%nat; Returned; Called 2%nat; Fired 0;
                                    Called 3%nat; Thrown; Called 4%nat; Returned])
   else True) ∧
  one_timer (throttle_run [Called 1%nat; Returned; Called 2%nat; Fired 0;
                           Called 3%nat; Thrown; Called 4%nat; Returned]).
Proof.
  split;
    [apply (throttle_engaged_while_pending
              [Called 1%nat; Returned; Called 2%nat; Fired 0;
               Called 3%nat; Thrown; Called 4%nat; Returned])
    |apply (throttle_engaged_while_pending
              [Called 1%nat; Returned; Called 2%nat; Fired 0;
               Called 3%nat; Thrown; Called 4%nat; Returned]);
     vm_compute; reflexivity].
Defined.

Lemma throttle_rate_witness :
  (throttle_returned (throttle_run [Called 1%nat; Returned; Called 2%nat; Fired 0;
                                    Called 3%nat; Thrown; Called 4%nat; Returned])
   ≤ S (fired [Called 1%nat; Returned; Called 2%nat; Fired 0;
               Called 3%nat; Thrown; Called 4%nat; Returned]))%nat.
Proof.
  apply (throttle_rate [Called 1%nat; Returned; Called 2%nat; Fired 0;
                        Called 3%nat; Thrown; Called 4%nat; Returned]).
  vm_compute. reflexivity.
Defined.


End TimingFacts.
